(** * Thompson NFA construction and simulation (thompson_nfa.py)

    A shallow embedding of the regex pipeline of [thompson_nfa.py]:
    whitespace removal, explicit concatenation, shunting-yard conversion
    to postfix, Thompson's construction over a heap of mutable states,
    and the epsilon-closure simulator.

    Conventions of the embedding.
    - A Python character is its Unicode code point, a value of [N]; a
      [str] is a [list char].
    - The operator stack and the fragment stack are lists whose HEAD is
      the top of the stack (Python's [stack[-1]]); [out] is a list that
      grows at its end, as [out.append] does.
    - [State] objects are mutable and shared; they live in a [store]: the
      global counter [_id] and a heap that maps the identifier of every
      allocated state to its [edges] dictionary.  Within one build the
      identifier determines the object, so a state is its identifier.
    - Python exceptions are the constructors of [exn]; a computation that
      may raise returns a [res].
    - The two graph traversals ([dfs] and the loop of [epsilon_closure])
      carry a fuel computed from the heap, which is finite; the lemmas
      [dfs_spec] and [epsilon_closure_spec] show that this fuel is never
      exhausted, so [Fuel_exhausted] is never raised. *)

From stdpp Require Import base numbers option list gmap sets relations.

Set Default Proof Using "Type".
Set Warnings "-clear-no-such-hyp".


(** ** Characters *)

Definition char := N.

Definition EPS : char := 949%N.      (* "ε", U+03B5 *)
Definition BAR : char := 124%N.      (* "|" *)
Definition DOT : char := 46%N.       (* "." *)
Definition STAR : char := 42%N.      (* "*" *)
Definition PLUS : char := 43%N.      (* "+" *)
Definition QMARK : char := 63%N.     (* "?" *)
Definition LPAREN : char := 40%N.    (* "(" *)
Definition RPAREN : char := 41%N.    (* ")" *)

(** [str.isspace] on a one-character string: the code points that
    CPython's Unicode database classifies as whitespace. *)
Definition isspace (ch : char) : bool :=
  ((9 <=? ch) && (ch <=? 13) || (28 <=? ch) && (ch <=? 32)
   || (ch =? 133) || (ch =? 160) || (ch =? 5760)
   || (8192 <=? ch) && (ch <=? 8202)
   || (ch =? 8232) || (ch =? 8233) || (ch =? 8239) || (ch =? 8287)
   || (ch =? 12288))%N.

(** ** Exceptions *)

Inductive exn : Type :=
  | ValueError_parentesis_desbalanceados
  | ValueError_parentesis_desbalanceados_al_final
  | ValueError_simbolo_no_soportado (ch : char)
  | RuntimeError_ER_invalida
  | IndexError_pop_from_empty_list
  | Fuel_exhausted.

Inductive res (A : Type) : Type :=
  | Ok (a : A)
  | Raise (e : exn).
Arguments Ok {A} a.
Arguments Raise {A} e.

Global Instance res_ret : MRet res := λ A a, Ok a.
Global Instance res_bind : MBind res := λ A B k m,
  match m with
  | Ok a => k a
  | Raise e => Raise e
  end.

(** The names the specification gives to the three failure kinds. *)
Definition UnbalancedParentheses (e : exn) : Prop :=
  e = ValueError_parentesis_desbalanceados
  ∨ e = ValueError_parentesis_desbalanceados_al_final.
Definition UnsupportedSymbol (e : exn) : Prop :=
  ∃ ch, e = ValueError_simbolo_no_soportado ch.
Definition InvalidConstruction (e : exn) : Prop :=
  e = RuntimeError_ER_invalida.

(** ** Tokenisation *)

Definition remove_spaces (s : list char) : list char :=
  filter (λ ch, isspace ch = false) s.

Definition is_symbol (ch : char) : bool :=
  bool_decide (ch ∉ [BAR; STAR; PLUS; QMARK; LPAREN; RPAREN; DOT]).

(** The test of [add_concat] on the pair [(a, b)]. *)
Definition concat_here (a b : char) : bool :=
  (is_symbol a || bool_decide (a ∈ [RPAREN; STAR; PLUS; QMARK]))
  && (is_symbol b || bool_decide (b ∈ [LPAREN; EPS])).

(** What one iteration of the loop of [add_concat] appends to [res]. *)
Definition add_concat_at (exp : list char) (i : nat) (ch : char) : list char :=
  ch :: (if bool_decide (i = length exp - 1) then []
         else match exp !! (i + 1) with
              | Some b => if concat_here ch b then [DOT] else []
              | None => []   (* exp[i + 1] is in range when i < len(exp) - 1 *)
              end).

Definition add_concat (exp : list char) : list char :=
  concat (imap (add_concat_at exp) exp).

(** ** Infix to postfix *)

Definition PRECEDENCE : gmap char nat :=
  {[ BAR := 1; DOT := 2; STAR := 3; PLUS := 3; QMARK := 3 ]}.
Definition RIGHT_ASSOC : gset char := {[ STAR; PLUS; QMARK ]}.

(** The condition under which the operator loop pops [top]. *)
Definition pops (top ch : char) : bool :=
  match PRECEDENCE !! top, PRECEDENCE !! ch with
  | Some pt, Some pc =>
      (pc <? pt) || ((pt =? pc) && bool_decide (ch ∉ RIGHT_ASSOC))
  | _, _ => false
  end.

(** [while stack and stack[-1] != "(": out.append(stack.pop())] *)
Fixpoint pop_to_paren (out stack : list char) : list char * list char :=
  match stack with
  | [] => (out, [])
  | top :: below =>
      if bool_decide (top = LPAREN) then (out, stack)
      else pop_to_paren (out ++ [top]) below
  end.

(** The [while] loop of the operator branch. *)
Fixpoint pop_ops (ch : char) (out stack : list char) : list char * list char :=
  match stack with
  | [] => (out, [])
  | top :: below =>
      if bool_decide (top = LPAREN) then (out, stack)
      else if pops top ch then pop_ops ch (out ++ [top]) below
      else (out, stack)
  end.

(** One iteration of the main loop of [to_postfix] on character [ch]. *)
Definition to_postfix_step (st : list char * list char) (ch : char)
  : res (list char * list char) :=
  let '(out, stack) := st in
  if bool_decide (ch = EPS) then Ok (out ++ [EPS], stack)
  else if is_symbol ch then Ok (out ++ [ch], stack)
  else if bool_decide (ch = LPAREN) then Ok (out, ch :: stack)
  else if bool_decide (ch = RPAREN) then
    let '(out', stack') := pop_to_paren out stack in
    match stack' with
    | [] => Raise ValueError_parentesis_desbalanceados
    | _ :: below => Ok (out', below)
    end
  else if bool_decide (is_Some (PRECEDENCE !! ch)) then
    let '(out', stack') := pop_ops ch out stack in
    Ok (out', ch :: stack')
  else Raise (ValueError_simbolo_no_soportado ch).

Fixpoint to_postfix_scan (st : list char * list char) (regex : list char)
  : res (list char * list char) :=
  match regex with
  | [] => Ok st
  | ch :: rest => st' ← to_postfix_step st ch; to_postfix_scan st' rest
  end.

(** The final [while stack:] loop. *)
Fixpoint to_postfix_drain (out stack : list char) : res (list char) :=
  match stack with
  | [] => Ok out
  | op :: below =>
      if bool_decide (op ∈ [LPAREN; RPAREN])
      then Raise ValueError_parentesis_desbalanceados_al_final
      else to_postfix_drain (out ++ [op]) below
  end.

Definition to_postfix (regex : list char) : res (list char) :=
  '(out, stack) ← to_postfix_scan ([], []) regex;
  to_postfix_drain out stack.

(** ** States, fragments and automata *)

Definition State := nat.

(** The global counter [_id] and the heap of [State] objects: the [edges]
    dictionary of every allocated state. *)
Record store : Type := Store {
  _id : nat;
  heap : gmap State (gmap char (gset State))
}.

Record Fragment : Type := mkFragment {
  frag_start : State;
  frag_accept : State
}.

Record NFA : Type := mkNFA {
  nfa_start : State;
  nfa_accept : State;
  nfa_states : gset State
}.

(** [u.edges] *)
Definition edges (σ : store) (u : State) : gmap char (gset State) :=
  default ∅ (heap σ !! u).

(** [u.edges.get(sym, set())] *)
Definition edges_get (σ : store) (u : State) (sym : char) : gset State :=
  default ∅ (edges σ u !! sym).

(** [State()]: [new_id] increments the counter, the new state has no edge. *)
Definition new_State (σ : store) : State * store :=
  let i := S (_id σ) in (i, Store i (<[i := ∅]> (heap σ))).

(** [u.add_edge(sym, v)]: [u.edges.setdefault(sym, set()).add(v)] *)
Definition add_edge (σ : store) (u : State) (sym : char) (v : State) : store :=
  Store (_id σ)
        (<[u := <[sym := edges_get σ u sym ∪ {[v]}]> (edges σ u)]> (heap σ)).

(** ** Thompson's construction *)

Definition sym_frag (σ : store) (s : char) : Fragment * store :=
  let '(a, σ) := new_State σ in
  let '(b, σ) := new_State σ in
  let σ := add_edge σ a (if bool_decide (s = EPS) then EPS else s) b in
  (mkFragment a b, σ).

(** [stack.pop()] *)
Definition pop (stack : list Fragment) : res (Fragment * list Fragment) :=
  match stack with
  | [] => Raise IndexError_pop_from_empty_list
  | f :: below => Ok (f, below)
  end.

(** The body of the [for tok in post] loop. *)
Definition thompson_step (cfg : store * list Fragment) (tok : char)
  : res (store * list Fragment) :=
  let '(σ, stack) := cfg in
  if bool_decide (tok = BAR) then
    '(b, stack) ← pop stack;
    '(a, stack) ← pop stack;
    let '(s, σ) := new_State σ in
    let '(t, σ) := new_State σ in
    let σ := add_edge σ s EPS (frag_start a) in
    let σ := add_edge σ s EPS (frag_start b) in
    let σ := add_edge σ (frag_accept a) EPS t in
    let σ := add_edge σ (frag_accept b) EPS t in
    Ok (σ, mkFragment s t :: stack)
  else if bool_decide (tok = DOT) then
    '(b, stack) ← pop stack;
    '(a, stack) ← pop stack;
    let σ := add_edge σ (frag_accept a) EPS (frag_start b) in
    Ok (σ, mkFragment (frag_start a) (frag_accept b) :: stack)
  else if bool_decide (tok = STAR) then
    '(a, stack) ← pop stack;
    let '(s, σ) := new_State σ in
    let '(t, σ) := new_State σ in
    let σ := add_edge σ s EPS (frag_start a) in
    let σ := add_edge σ s EPS t in
    let σ := add_edge σ (frag_accept a) EPS (frag_start a) in
    let σ := add_edge σ (frag_accept a) EPS t in
    Ok (σ, mkFragment s t :: stack)
  else if bool_decide (tok = PLUS) then
    '(a, stack) ← pop stack;
    let '(s, σ) := new_State σ in
    let '(t, σ) := new_State σ in
    let σ := add_edge σ s EPS (frag_start a) in
    let σ := add_edge σ (frag_accept a) EPS (frag_start a) in
    let σ := add_edge σ (frag_accept a) EPS t in
    Ok (σ, mkFragment s t :: stack)
  else if bool_decide (tok = QMARK) then
    '(a, stack) ← pop stack;
    let '(s, σ) := new_State σ in
    let '(t, σ) := new_State σ in
    let σ := add_edge σ s EPS (frag_start a) in
    let σ := add_edge σ s EPS t in
    let σ := add_edge σ (frag_accept a) EPS t in
    Ok (σ, mkFragment s t :: stack)
  else
    let '(f, σ) := sym_frag σ tok in
    Ok (σ, f :: stack).

Fixpoint thompson_loop (cfg : store * list Fragment) (post : list char)
  : res (store * list Fragment) :=
  match post with
  | [] => Ok cfg
  | tok :: rest => cfg' ← thompson_step cfg tok; thompson_loop cfg' rest
  end.

(** The states the nested loops of [dfs] iterate over:
    [for succs in u.edges.values(): for v in succs]. *)
Definition successors (σ : store) (u : State) : list State :=
  kv ← map_to_list (edges σ u); elements kv.2.

(** Every state the heap mentions, as the owner of an [edges] dictionary
    or as a destination.  The heap is finite; this set only bounds the
    fuel of the two traversals below. *)
Definition all_states (σ : store) : gset State :=
  dom (heap σ)
  ∪ ⋃ (map (λ ue, ⋃ (map snd (map_to_list ue.2))) (map_to_list (heap σ))).

(** [dfs(u)], threading the [visited] set; [fuel] bounds the recursion
    depth. *)
Fixpoint dfs (fuel : nat) (σ : store) (u : State) (visited : gset State)
  : res (gset State) :=
  match fuel with
  | 0 => Raise Fuel_exhausted
  | S fuel =>
      if decide (u ∈ visited) then Ok visited
      else foldl (λ acc v, visited ← acc; dfs fuel σ v visited)
                 (Ok (visited ∪ {[u]})) (successors σ u)
  end.

Definition thompson_from_postfix (σ : store) (post : list char)
  : res (store * NFA) :=
  '(σ, stack) ← thompson_loop (σ, []) post;
  match stack with
  | [frag] =>
      visited ← dfs (S (size (all_states σ))) σ (frag_start frag) ∅;
      Ok (σ, mkNFA (frag_start frag) (frag_accept frag) visited)
  | _ => Raise RuntimeError_ER_invalida
  end.

(** ** Simulation *)

(** [if v not in closure: closure.add(v); stack.append(v)] *)
Definition closure_visit (acc : list State * gset State) (v : State)
  : list State * gset State :=
  if decide (v ∈ acc.2) then acc else (v :: acc.1, acc.2 ∪ {[v]}).

(** The [while stack:] loop of [epsilon_closure]; [fuel] bounds the number
    of iterations. *)
Fixpoint epsilon_closure_loop (fuel : nat) (σ : store)
    (stack : list State) (closure : gset State) : res (gset State) :=
  match stack with
  | [] => Ok closure
  | s :: stack =>
      match fuel with
      | 0 => Raise Fuel_exhausted
      | S fuel =>
          let acc := foldl closure_visit (stack, closure)
                           (elements (edges_get σ s EPS)) in
          epsilon_closure_loop fuel σ acc.1 acc.2
      end
  end.

Definition epsilon_closure (σ : store) (states : gset State)
  : res (gset State) :=
  epsilon_closure_loop (size states + size (all_states σ)) σ
                       (elements states) states.

Definition move (σ : store) (states : gset State) (sym : char) : gset State :=
  ⋃ (map (λ s, edges_get σ s sym) (elements states)).

(** The [for ch in w] loop of [nfa_accepts], with its [break]. *)
Fixpoint nfa_accepts_loop (σ : store) (current : gset State) (w : list char)
  : res (gset State) :=
  match w with
  | [] => Ok current
  | ch :: w =>
      current ← epsilon_closure σ (move σ current ch);
      if decide (current = ∅) then Ok current
      else nfa_accepts_loop σ current w
  end.

Definition nfa_accepts (σ : store) (nfa : NFA) (w : list char) : res bool :=
  current ← epsilon_closure σ {[nfa_start nfa]};
  current ← nfa_accepts_loop σ current w;
  Ok (bool_decide (nfa_accept nfa ∈ current)).

(** ** The front end *)

Definition compile_regex_to_nfa (regex : list char) : res (store * NFA) :=
  let σ := Store 0 ∅ in
  let s := add_concat (remove_spaces regex) in
  post ← to_postfix s;
  thompson_from_postfix σ post.

(** ** Specification-side vocabulary *)

(** A literal symbol is a character that [is_symbol] accepts. *)
Definition literal (ch : char) : Prop := is_symbol ch = true.

(** The rule of the concatenation expander, in the words of the
    specification. *)
Definition concat_between (a b : char) : Prop :=
  (literal a ∨ a = RPAREN ∨ a = STAR ∨ a = PLUS ∨ a = QMARK)
  ∧ (literal b ∨ b = LPAREN ∨ b = EPS).

Global Instance literal_dec ch : Decision (literal ch).
Proof. unfold literal. apply _. Defined.
Global Instance concat_between_dec a b : Decision (concat_between a b).
Proof. unfold concat_between. apply _. Defined.

(** What the expander writes between the adjacent pair [(a, b)]. *)
Definition gap (a b : char) : list char :=
  if decide (concat_between a b) then [DOT] else [].

(** [weave exp gaps] writes [gaps !! i] between [exp !! i] and
    [exp !! (i + 1)], nothing before the first character and nothing
    after the last one. *)
Fixpoint weave (exp : list char) (gaps : list (list char)) : list char :=
  match exp with
  | [] => []
  | a :: rest =>
      a :: match gaps with
           | [] => rest
           | g :: gaps => g ++ weave rest gaps
           end
  end.

(** The precedence rule of the converter, in the words of the
    specification: [top] is popped for the incoming operator [ch] when it
    has strictly greater precedence, or equal precedence and [ch] is
    left-associative (alternation or concatenation). *)
Definition left_assoc (ch : char) : Prop := ch = BAR ∨ ch = DOT.

Definition must_pop (top ch : char) : Prop :=
  ∃ pt pc, PRECEDENCE !! top = Some pt ∧ PRECEDENCE !! ch = Some pc
           ∧ (pc < pt ∨ (pt = pc ∧ left_assoc ch)).

(** Invariant of the scan: the operator stack holds opening parentheses
    and operators only. *)
Definition stack_ok (stack : list char) : Prop :=
  Forall (λ op, op = LPAREN ∨ is_Some (PRECEDENCE !! op)) stack.

(** ** The transition graph of a store *)

(** [edge σ u sym v]: state [u] has a transition labelled [sym] to [v]. *)
Definition edge (σ : store) (u : State) (sym : char) (v : State) : Prop :=
  v ∈ edges_get σ u sym.

(** A transition of any label, and an epsilon transition. *)
Definition step (σ : store) (u v : State) : Prop := ∃ sym, edge σ u sym v.
Definition eps_step (σ : store) (u v : State) : Prop := edge σ u EPS v.

(** Reachability from [u] over transitions of any label. *)
Definition reachable (σ : store) (u v : State) : Prop := rtc (step σ) u v.

(** Membership in the epsilon-closure of the set [states]. *)
Definition in_eps_closure (σ : store) (states : gset State) (v : State) : Prop :=
  ∃ u, u ∈ states ∧ rtc (eps_step σ) u v.

(** ** Invariants of the construction *)

(** Every state the heap knows was allocated by the counter. *)
Definition store_ok (σ : store) : Prop :=
  (∀ u, u ∈ dom (heap σ) → u ≤ _id σ)
  ∧ (∀ u sym v, edge σ u sym v → u ≤ _id σ ∧ v ≤ _id σ).

(** A fragment on the stack: both ends are allocated, the exit has no
    outgoing transition yet, and the exit is reachable from the entry. *)
Definition frag_ok (σ : store) (f : Fragment) : Prop :=
  frag_start f ≤ _id σ
  ∧ frag_accept f ≤ _id σ
  ∧ (∀ sym v, ¬ edge σ (frag_accept f) sym v)
  ∧ reachable σ (frag_start f) (frag_accept f).

Definition cfg_inv (σ : store) (stack : list Fragment) : Prop :=
  store_ok σ
  ∧ Forall (frag_ok σ) stack
  ∧ NoDup (frag_accept <$> stack).

(** The store after two allocations. *)
Definition alloc2 (σ : store) : store := (new_State (new_State σ).2).2.

(** The epsilon successors the specification gives to the fresh entry
    [s] and to the operand's exit for the unary operator [op], where
    [a0] is the operand's entry and [t] the fresh exit. *)
Definition entry_targets (op : char) (a0 t : State) : gset State :=
  if decide (op = PLUS) then {[ a0 ]} else {[ a0; t ]}.
Definition exit_targets (op : char) (a0 t : State) : gset State :=
  if decide (op = QMARK) then {[ t ]} else {[ a0; t ]}.

(** The simulator without the early exit: every symbol of the word is
    processed. *)
Fixpoint nfa_accepts_loop_nobreak (σ : store) (current : gset State)
    (w : list char) : res (gset State) :=
  match w with
  | [] => Ok current
  | ch :: w =>
      current ← epsilon_closure σ (move σ current ch);
      nfa_accepts_loop_nobreak σ current w
  end.

Definition nfa_accepts_nobreak (σ : store) (nfa : NFA) (w : list char)
  : res bool :=
  current ← epsilon_closure σ {[nfa_start nfa]};
  current ← nfa_accepts_loop_nobreak σ current w;
  Ok (bool_decide (nfa_accept nfa ∈ current)).

(** The transitions one iteration of the builder adds for [tok], read off
    the fragments on top of the stack; [s] and [t] are the two states it
    allocates. *)
Definition new_edges (tok : char) (σ : store) (stack : list Fragment)
  : list (State * char * State) :=
  let s := S (_id σ) in
  let t := S (S (_id σ)) in
  if decide (tok = BAR) then
    match stack with
    | b :: a :: _ =>
        [(s, EPS, frag_start a); (s, EPS, frag_start b);
         (frag_accept a, EPS, t); (frag_accept b, EPS, t)]
    | _ => []
    end
  else if decide (tok = DOT) then
    match stack with
    | b :: a :: _ => [(frag_accept a, EPS, frag_start b)]
    | _ => []
    end
  else if decide (tok = STAR) then
    match stack with
    | a :: _ =>
        [(s, EPS, frag_start a); (s, EPS, t);
         (frag_accept a, EPS, frag_start a); (frag_accept a, EPS, t)]
    | _ => []
    end
  else if decide (tok = PLUS) then
    match stack with
    | a :: _ =>
        [(s, EPS, frag_start a);
         (frag_accept a, EPS, frag_start a); (frag_accept a, EPS, t)]
    | _ => []
    end
  else if decide (tok = QMARK) then
    match stack with
    | a :: _ =>
        [(s, EPS, frag_start a); (s, EPS, t); (frag_accept a, EPS, t)]
    | _ => []
    end
  else [(s, tok, t)].

(** ** Worked examples *)

(** The heap after building the fragment of the literal ["a"], and after
    applying the star operator to it. *)
Definition store_a : store := add_edge (alloc2 (Store 0 ∅)) 1 97%N 2.

Definition store_a_star : store :=
  add_edge (add_edge (add_edge (add_edge (alloc2 store_a)
    3 EPS 1) 3 EPS 4) 2 EPS 1) 2 EPS 4.

Definition nfa_a : NFA := mkNFA 1 2 {[1; 2]}.
Definition nfa_a_star : NFA := mkNFA 3 4 {[1; 2; 3; 4]}.



(** Compile [regex], then run the simulator on [w]. *)
Definition compile_then_accepts (regex w : list char) : res bool :=
  compile_regex_to_nfa regex ≫= λ r, nfa_accepts r.1 r.2 w.

(** ** Further specification-side vocabulary *)

(** The nesting depth of parentheses after reading [s] at depth [d];
    [None] when a closing parenthesis has no opening one to match. *)
Fixpoint paren_depth (d : nat) (s : list char) : option nat :=
  match s with
  | [] => Some d
  | ch :: s =>
      if decide (ch = LPAREN) then paren_depth (S d) s
      else if decide (ch = RPAREN) then
        match d with
        | 0 => None
        | S d => paren_depth d s
        end
      else paren_depth d s
  end.

(** The parentheses of [s] are balanced. *)
Definition balanced (s : list char) : Prop := paren_depth 0 s = Some 0.

(** A character other than the two parentheses. *)
Definition not_paren (ch : char) : Prop := ch ≠ LPAREN ∧ ch ≠ RPAREN.

Global Instance not_paren_dec ch : Decision (not_paren ch).
Proof. unfold not_paren. apply _. Defined.

(** The tokens of a postfix sequence: operands, and binary operators. *)
Definition operand (tok : char) : Prop := tok ∉ [BAR; DOT; STAR; PLUS; QMARK].
Definition binary (tok : char) : Prop := tok ∈ [BAR; DOT].

Global Instance operand_dec tok : Decision (operand tok).
Proof. unfold operand. apply _. Defined.
Global Instance binary_dec tok : Decision (binary tok).
Proof. unfold binary. apply _. Defined.

(** ** Runs of the automaton *)

(** [run σ u w v]: from state [u] the automaton can reach [v] reading the
    word [w].  An epsilon transition may be taken without reading; a
    transition labelled [ch] reads [ch].  As in [move], which looks the
    character up among the labels, the character [EPS] itself reads a
    transition labelled [EPS]. *)
Inductive run (σ : store) : State → list char → State → Prop :=
  | run_nil u : run σ u [] u
  | run_eps u v w x : edge σ u EPS v → run σ v w x → run σ u w x
  | run_sym u ch v w x : edge σ u ch v → run σ v w x → run σ u (ch :: w) x.

(** The words a fragment, and an automaton, lead from entry to exit. *)
Definition frag_lang (σ : store) (f : Fragment) (w : list char) : Prop :=
  run σ (frag_start f) w (frag_accept f).
Definition nfa_lang (σ : store) (nfa : NFA) (w : list char) : Prop :=
  run σ (nfa_start nfa) w (nfa_accept nfa).

(** ** Languages of regular expressions *)

Definition lang : Type := list char → Prop.

Definition lang_sym (ch : char) : lang :=
  λ w, if decide (ch = EPS) then w = [] else w = [ch].
Definition lang_alt (A B : lang) : lang := λ w, A w ∨ B w.
Definition lang_cat (A B : lang) : lang :=
  λ w, ∃ w1 w2, w = w1 ++ w2 ∧ A w1 ∧ B w2.
Definition lang_star (A : lang) : lang :=
  λ w, ∃ ws, w = concat ws ∧ Forall A ws.
Definition lang_plus (A : lang) : lang := lang_cat A (lang_star A).
Definition lang_opt (A : lang) : lang := λ w, w = [] ∨ A w.

(** The languages a postfix sequence denotes, evaluated on a stack as the
    builder evaluates it on fragments; [None] on stack underflow. *)
Definition postfix_lang_step (Ls : list lang) (tok : char) : option (list lang) :=
  if decide (tok = BAR) then
    match Ls with B :: A :: Ls => Some (lang_alt A B :: Ls) | _ => None end
  else if decide (tok = DOT) then
    match Ls with B :: A :: Ls => Some (lang_cat A B :: Ls) | _ => None end
  else if decide (tok = STAR) then
    match Ls with A :: Ls => Some (lang_star A :: Ls) | _ => None end
  else if decide (tok = PLUS) then
    match Ls with A :: Ls => Some (lang_plus A :: Ls) | _ => None end
  else if decide (tok = QMARK) then
    match Ls with A :: Ls => Some (lang_opt A :: Ls) | _ => None end
  else Some (lang_sym tok :: Ls).

Fixpoint postfix_langs (Ls : list lang) (post : list char) : option (list lang) :=
  match post with
  | [] => Some Ls
  | tok :: post => Ls' ← postfix_lang_step Ls tok; postfix_langs Ls' post
  end.

(** ** The shape of one iteration of the builder *)

(** What an iteration does to the heap, whatever the token: it pops
    [popped], allocates the states between the old and the new counter,
    adds the transitions [extra], which leave fresh states or exits of
    popped fragments and enter fresh states or entries of popped
    fragments, and pushes [f], from whose entry the popped fragments and
    the fresh states are reachable. *)
Record step_shape (σ σ' : store) (popped : list Fragment) (f : Fragment)
    (extra : list (State * char * State)) : Prop := {
  shape_id : _id σ ≤ _id σ';
  shape_edges :
    ∀ u sym v, edge σ' u sym v ↔ edge σ u sym v ∨ (u, sym, v) ∈ extra;
  shape_src :
    ∀ u sym v, (u, sym, v) ∈ extra →
      _id σ < u ≤ _id σ' ∨ u ∈ frag_accept <$> popped;
  shape_tgt :
    ∀ u sym v, (u, sym, v) ∈ extra →
      _id σ < v ≤ _id σ' ∨ v ∈ frag_start <$> popped;
  shape_start :
    _id σ < frag_start f ≤ _id σ' ∨ frag_start f ∈ frag_start <$> popped;
  shape_no_incoming : ∀ u sym, (u, sym, frag_start f) ∉ extra;
  shape_cover_popped :
    ∀ p, p ∈ popped → reachable σ' (frag_start f) (frag_start p);
  shape_cover_fresh :
    ∀ u, _id σ < u ≤ _id σ' → reachable σ' (frag_start f) u;
  shape_degree : ∀ u, length (filter (λ e, e.1.1 = u) extra) ≤ 2
}.

(** The parts of the heap owned by the fragments on the stack: the states
    reachable from the entries of two different fragments are different,
    no transition enters an entry, every state allocated since the
    counter was [n0] is reachable from some entry, and no state has more
    than two outgoing transitions. *)
Record region_inv (n0 : nat) (σ : store) (stack : list Fragment) : Prop := {
  ri_low : n0 ≤ _id σ;
  ri_disjoint :
    ∀ f g x, f ∈ stack → g ∈ stack → frag_accept f ≠ frag_accept g →
      reachable σ (frag_start f) x → reachable σ (frag_start g) x → False;
  ri_no_incoming :
    ∀ f u sym, f ∈ stack → ¬ edge σ u sym (frag_start f);
  ri_cover :
    ∀ u, n0 < u ≤ _id σ → ∃ f, f ∈ stack ∧ reachable σ (frag_start f) u;
  ri_degree :
    ∀ u, ∃ l : list (char * State),
      length l ≤ 2 ∧ ∀ sym v, edge σ u sym v → (sym, v) ∈ l
}.

(** The fragments of [stack] have the languages [Ls], on the words that
    do not hold the character [EPS]. *)
Definition langs_match (σ : store) (stack : list Fragment) (Ls : list lang) : Prop :=
  Forall2 (λ f L, ∀ w, EPS ∉ w → frag_lang σ f w ↔ L w) stack Ls.

(** The heap after building the fragments of the literals ["a"] and
    ["b"]. *)
Definition store_ab : store := add_edge (alloc2 store_a) 3 98%N 4.

(** No state at or below the counter's initial value [n0] is ever used:
    transitions enter, and fragments start at, states allocated since. *)
Definition low_inv (n0 : nat) (σ : store) (stack : list Fragment) : Prop :=
  (∀ u sym v, edge σ u sym v → n0 < v)
  ∧ Forall (λ f, n0 < frag_start f) stack.

(** The labels of the transitions of a heap. *)
Definition alphabet (σ : store) : gset char :=
  ⋃ (map (λ ue, dom ue.2) (map_to_list (heap σ))).

(** * Properties *)

(** ** Concatenation expander *)

Section add_concat_facts.

Lemma concat_here_spec a b : concat_here a b = true ↔ concat_between a b.
Proof.
  unfold concat_here, concat_between, literal.
  rewrite andb_true_iff, !orb_true_iff, !bool_decide_eq_true.
  rewrite !elem_of_cons, !elem_of_nil. tauto.
Qed.

Lemma concat_here_gap a b : (if concat_here a b then [DOT] else []) = gap a b.
Proof.
  unfold gap. destruct (concat_here a b) eqn:E.
  - rewrite decide_True; [done|]. by apply concat_here_spec.
  - rewrite decide_False; [done|]. rewrite <- concat_here_spec. congruence.
Qed.

Lemma add_concat_at_shift a exp i ch :
  exp ≠ [] → add_concat_at (a :: exp) (S i) ch = add_concat_at exp i ch.
Proof.
  intros Hne. unfold add_concat_at. f_equal.
  destruct exp as [|b rest]; [done|]. cbn [length].
  rewrite !Nat.sub_succ, !Nat.sub_0_r.
  destruct (decide (i = length rest)) as [->|Hi].
  - rewrite !bool_decide_eq_true_2 by lia. done.
  - rewrite !bool_decide_eq_false_2 by lia. done.
Qed.

Lemma add_concat_nil : add_concat [] = [].
Proof. reflexivity. Qed.

Lemma add_concat_singleton a : add_concat [a] = [a].
Proof. reflexivity. Qed.

Lemma add_concat_cons a b rest :
  add_concat (a :: b :: rest) = a :: gap a b ++ add_concat (b :: rest).
Proof.
  unfold add_concat. rewrite imap_cons. cbn [concat].
  rewrite (imap_ext _ (add_concat_at (b :: rest))).
  2:{ intros i x _. apply add_concat_at_shift. done. }
  unfold add_concat_at at 1. cbn [length].
  rewrite bool_decide_eq_false_2 by lia. cbn.
  rewrite concat_here_gap. reflexivity.
Qed.

Lemma add_concat_weave exp :
  add_concat exp = weave exp (zip_with gap exp (tail exp)).
Proof.
  induction exp as [|a [|b rest] IH]; [done..|].
  rewrite add_concat_cons, IH. reflexivity.
Qed.

Lemma add_concat_head exp : head (add_concat exp) = head exp.
Proof. destruct exp as [|a [|b rest]]; [done..|]. by rewrite add_concat_cons. Qed.

Lemma add_concat_last exp : last (add_concat exp) = last exp.
Proof.
  induction exp as [|a [|b rest] IH]; [done..|].
  rewrite add_concat_cons. rewrite (last_cons_cons a b rest).
  rewrite <- IH. 
  destruct (add_concat (b :: rest)) as [|c l] eqn:E.
  { pose proof (add_concat_head (b :: rest)) as H. rewrite E in H. done. }
  change (a :: gap a b ++ c :: l) with ((a :: gap a b) ++ c :: l).
  rewrite last_app_cons. done.
Qed.

End add_concat_facts.

(** C6. Between the adjacent characters [a] and [b] of its input the
    expander writes the concatenation operator exactly when [a] is a
    literal symbol, a closing parenthesis or one of star, plus, optional,
    and [b] is a literal symbol, an opening parenthesis or the
    empty-string marker ([gap]); it writes nothing else, so the output
    begins with the first character of the input and ends with its last.
    This holds for every input, whitespace-free or not. *)
Theorem add_concat_inserts_exactly_between (exp : list char) :
  add_concat exp = weave exp (zip_with gap exp (tail exp))
  ∧ length (zip_with gap exp (tail exp)) = length exp - 1
  ∧ head (add_concat exp) = head exp
  ∧ last (add_concat exp) = last exp.
Proof.
  split_and!.
  - apply add_concat_weave.
  - rewrite length_zip_with. destruct exp; cbn [length tail]; lia.
  - apply add_concat_head.
  - apply add_concat_last.
Qed.

(** ** Infix to postfix *)

Section to_postfix_facts.

Lemma PRECEDENCE_lookup (ch : char) :
  PRECEDENCE !! ch =
    if decide (ch = BAR) then Some 1
    else if decide (ch = DOT) then Some 2
    else if decide (ch ∈ [STAR; PLUS; QMARK]) then Some 3 else None.
Proof.
  unfold PRECEDENCE.
  repeat case_decide; subst; try reflexivity.
  - set_unfold. destruct_or!; subst; reflexivity.
  - set_unfold. rewrite !lookup_insert_ne by naive_solver.
    rewrite lookup_singleton_ne by naive_solver. done.
Qed.

Lemma PRECEDENCE_is_Some (ch : char) :
  is_Some (PRECEDENCE !! ch) ↔ ch ∈ [BAR; DOT; STAR; PLUS; QMARK].
Proof.
  rewrite PRECEDENCE_lookup.
  repeat case_decide; subst; split; intros Hx;
    try (by eexists); try (by destruct Hx as [? [=]]); set_solver.
Qed.

Lemma is_symbol_false (ch : char) :
  is_symbol ch = false ↔ ch ∈ [BAR; STAR; PLUS; QMARK; LPAREN; RPAREN; DOT].
Proof.
  unfold is_symbol. rewrite bool_decide_eq_false. split; [|tauto].
  intros H. by destruct (decide (ch ∈ [BAR; STAR; PLUS; QMARK; LPAREN; RPAREN; DOT])).
Qed.

Lemma is_symbol_or_operator (ch : char) :
  is_symbol ch = true ∨ ch ∈ [BAR; STAR; PLUS; QMARK; LPAREN; RPAREN; DOT].
Proof.
  destruct (is_symbol ch) eqn:E; [by left|right]. by apply is_symbol_false.
Qed.

(** The branch of an operator of [PRECEDENCE]. *)
Lemma to_postfix_step_operator ch out stack :
  is_Some (PRECEDENCE !! ch) →
  to_postfix_step (out, stack) ch
  = Ok ((pop_ops ch out stack).1, ch :: (pop_ops ch out stack).2).
Proof.
  intros Hop. unfold to_postfix_step.
  rewrite (bool_decide_eq_true_2 (is_Some _)) by done.
  apply PRECEDENCE_is_Some in Hop.
  assert (is_symbol ch = false) as ->.
  { apply is_symbol_false. set_unfold. naive_solver. }
  rewrite !bool_decide_eq_false_2.
  - by destruct (pop_ops ch out stack).
  - set_unfold. unfold RPAREN. destruct_or!; subst; done.
  - set_unfold. unfold LPAREN. destruct_or!; subst; done.
  - set_unfold. unfold EPS. destruct_or!; subst; done.
Qed.

Lemma pops_spec top ch : pops top ch = true ↔ must_pop top ch.
Proof.
  unfold pops, must_pop, left_assoc.
  destruct (PRECEDENCE !! top) as [pt|] eqn:Ht; [|naive_solver].
  destruct (PRECEDENCE !! ch) as [pc|] eqn:Hc; [|naive_solver].
  assert (ch ∉ RIGHT_ASSOC ↔ ch = BAR ∨ ch = DOT) as Hassoc.
  { assert (is_Some (PRECEDENCE !! ch)) as Hin by eauto.
    apply PRECEDENCE_is_Some in Hin. unfold RIGHT_ASSOC.
    set_unfold. unfold BAR, DOT, STAR, PLUS, QMARK in *.
    destruct_or!; subst; naive_solver. }
  rewrite orb_true_iff, andb_true_iff, bool_decide_eq_true, Hassoc.
  rewrite Nat.ltb_lt, Nat.eqb_eq.
  split.
  - intros H. exists pt, pc. naive_solver.
  - intros (pt' & pc' & ? & ? & H). naive_solver.
Qed.

(** What the operator loop does, as a split of the stack. *)
Lemma pop_ops_split ch out stack :
  ∃ popped rest,
    stack = popped ++ rest
    ∧ pop_ops ch out stack = (out ++ popped, rest)
    ∧ Forall (λ top, top ≠ LPAREN ∧ must_pop top ch) popped
    ∧ (match rest with
       | [] => True
       | top :: _ => top = LPAREN ∨ ¬ must_pop top ch
       end).
Proof.
  revert out. induction stack as [|top below IH]; intros out.
  - exists [], []. cbn. rewrite app_nil_r. split_and!; auto.
  - cbn [pop_ops]. case_bool_decide as Hparen.
    { exists [], (top :: below). cbn. rewrite app_nil_r. split_and!; auto. }
    destruct (pops top ch) eqn:Hpops.
    + destruct (IH (out ++ [top])) as (popped & rest & -> & Heq & Hall & Hrest).
      exists (top :: popped), rest. split_and!; [done| |  |done].
      * by rewrite Heq, <- app_assoc.
      * constructor; [|done]. split; [done|]. by apply pops_spec.
    + exists [], (top :: below). cbn. rewrite app_nil_r. split_and!; auto.
      right. rewrite <- pops_spec. congruence.
Qed.

Lemma pop_to_paren_split out stack :
  ∃ popped rest,
    stack = popped ++ rest
    ∧ pop_to_paren out stack = (out ++ popped, rest)
    ∧ (LPAREN ∉ popped)
    ∧ (match rest with [] => True | top :: _ => top = LPAREN end).
Proof.
  revert out. induction stack as [|top below IH]; intros out.
  - exists [], []. cbn. rewrite app_nil_r. split_and!; auto. set_solver.
  - cbn [pop_to_paren]. case_bool_decide as Hparen.
    { exists [], (top :: below). cbn. rewrite app_nil_r. split_and!; auto. set_solver. }
    destruct (IH (out ++ [top])) as (popped & rest & -> & Heq & Hall & Hrest).
    exists (top :: popped), rest. split_and!; [done| | |done].
    + by rewrite Heq, <- app_assoc.
    + set_solver.
Qed.

Lemma pop_to_paren_empty out stack :
  (pop_to_paren out stack).2 = [] ↔ LPAREN ∉ stack.
Proof.
  destruct (pop_to_paren_split out stack) as (popped & rest & -> & -> & Hno & Hrest).
  cbn. destruct rest as [|top rest].
  - rewrite app_nil_r. tauto.
  - subst top. split; [done|]. intros H. exfalso. apply H. set_solver.
Qed.

(** The only way one iteration of the scan can fail. *)
Lemma to_postfix_step_Raise out stack ch e :
  to_postfix_step (out, stack) ch = Raise e ↔
  ch = RPAREN ∧ (LPAREN ∉ stack) ∧ e = ValueError_parentesis_desbalanceados.
Proof.
  unfold to_postfix_step.
  case_bool_decide as Heps; [subst; split; [done|intros [? _]; done]|].
  destruct (is_symbol ch) eqn:Hsym.
  { split; [done|]. intros [-> _]. done. }
  case_bool_decide as Hl; [subst; split; [done|intros [? _]; done]|].
  case_bool_decide as Hr.
  - subst ch. pose proof (pop_to_paren_empty out stack) as Hemp.
    destruct (pop_to_paren out stack) as [out' stack']. cbn in Hemp.
    destruct stack' as [|top below].
    + split; [intros [= <-]|]; naive_solver.
    + split; [done|]. intros (_ & Hno & _). apply Hemp in Hno. done.
  - apply is_symbol_false in Hsym.
    rewrite bool_decide_eq_true_2.
    + destruct (pop_ops ch out stack). naive_solver.
    + apply PRECEDENCE_is_Some. set_unfold. naive_solver.
Qed.

Lemma to_postfix_scan_app st pre post :
  to_postfix_scan st (pre ++ post)
  = st' ← to_postfix_scan st pre; to_postfix_scan st' post.
Proof.
  revert st. induction pre as [|ch pre IH]; intros st; [done|].
  cbn [to_postfix_scan app]. destruct (to_postfix_step st ch); cbn; [apply IH|done].
Qed.

Lemma to_postfix_scan_Raise st regex e :
  to_postfix_scan st regex = Raise e ↔
  e = ValueError_parentesis_desbalanceados
  ∧ ∃ pre post out stack,
      regex = pre ++ RPAREN :: post
      ∧ to_postfix_scan st pre = Ok (out, stack)
      ∧ LPAREN ∉ stack.
Proof.
  split.
  - revert st. induction regex as [|ch rest IH]; intros st; [done|].
    cbn [to_postfix_scan]. destruct (to_postfix_step st ch) as [st'|e'] eqn:Hstep; cbn.
    + intros H. apply IH in H as (-> & pre & post & out & stack & -> & Hpre & Hno).
      split; [done|]. exists (ch :: pre), post, out, stack.
      split_and!; [done| |done]. cbn. by rewrite Hstep.
    + intros [= ->]. destruct st as [out stack].
      apply to_postfix_step_Raise in Hstep as (-> & Hno & ->).
      split; [done|]. by exists [], rest, out, stack.
  - intros (-> & pre & post & out & stack & -> & Hpre & Hno).
    rewrite to_postfix_scan_app, Hpre.
    change (to_postfix_scan (out, stack) (RPAREN :: post)
            = Raise ValueError_parentesis_desbalanceados).
    cbn [to_postfix_scan].
    assert (to_postfix_step (out, stack) RPAREN
            = Raise ValueError_parentesis_desbalanceados) as ->; [|done].
    by apply to_postfix_step_Raise.
Qed.

Lemma to_postfix_step_stack_ok out stack ch out' stack' :
  stack_ok stack →
  to_postfix_step (out, stack) ch = Ok (out', stack') →
  stack_ok stack'.
Proof.
  unfold stack_ok, to_postfix_step. intros Hok.
  case_bool_decide; [by intros [= <- <-]|].
  destruct (is_symbol ch); [by intros [= <- <-]|].
  case_bool_decide; [intros [= <- <-]; constructor; auto|].
  case_bool_decide.
  - destruct (pop_to_paren_split out stack) as (popped & rest & -> & -> & _ & _).
    destruct rest; [done|]. intros [= <- <-].
    apply Forall_app in Hok as [_ Hok]. by inversion Hok.
  - case_bool_decide as Hop; [|done].
    destruct (pop_ops_split ch out stack) as (popped & rest & -> & -> & _ & _).
    intros [= <- <-]. apply Forall_app in Hok as [_ Hok]. constructor; auto.
Qed.

Lemma to_postfix_scan_stack_ok regex out stack out' stack' :
  stack_ok stack →
  to_postfix_scan (out, stack) regex = Ok (out', stack') →
  stack_ok stack'.
Proof.
  revert out stack. induction regex as [|ch rest IH]; intros out stack Hok.
  - by intros [= <- <-].
  - cbn [to_postfix_scan].
    destruct (to_postfix_step (out, stack) ch) as [[o s]|] eqn:Hstep; [|done].
    cbn. apply IH. eapply to_postfix_step_stack_ok; eauto.
Qed.

Lemma to_postfix_drain_Raise out stack e :
  stack_ok stack →
  to_postfix_drain out stack = Raise e ↔
  e = ValueError_parentesis_desbalanceados_al_final ∧ LPAREN ∈ stack.
Proof.
  intros Hok. revert out. induction Hok as [|op below Hop Hok IH]; intros out.
  - cbn. split; [done|]. intros [_ H]. set_solver.
  - cbn [to_postfix_drain]. case_bool_decide as Hparen.
    + split; [intros [= <-]|by intros [-> _]]. split; [done|].
      destruct Hop as [->|Hop]; [set_solver|].
      apply PRECEDENCE_is_Some in Hop. exfalso.
      set_unfold. unfold LPAREN, RPAREN, BAR, DOT, STAR, PLUS, QMARK in *.
      destruct_or!; subst; done.
    + rewrite IH. set_solver.
Qed.

Lemma to_postfix_Raise regex e :
  to_postfix regex = Raise e ↔
  (e = ValueError_parentesis_desbalanceados
   ∧ ∃ pre post out stack,
       regex = pre ++ RPAREN :: post
       ∧ to_postfix_scan ([], []) pre = Ok (out, stack)
       ∧ LPAREN ∉ stack)
  ∨ (e = ValueError_parentesis_desbalanceados_al_final
     ∧ ∃ out stack,
         to_postfix_scan ([], []) regex = Ok (out, stack) ∧ LPAREN ∈ stack).
Proof.
  unfold to_postfix.
  destruct (to_postfix_scan ([], []) regex) as [[out stack]|e'] eqn:Hscan; cbn.
  - assert (stack_ok stack) as Hok.
    { eapply (to_postfix_scan_stack_ok regex [] []); [constructor|done]. }
    rewrite (to_postfix_drain_Raise _ _ _ Hok). split.
    + intros [-> Hin]. right. eauto.
    + intros [(_ & pre & post & o & s & -> & Hpre & Hno)|(-> & o & s & [= <- <-] & Hin)]; [|done].
      exfalso.
      assert (to_postfix_scan ([], []) (pre ++ RPAREN :: post)
              = Raise ValueError_parentesis_desbalanceados) as Hr.
      { apply to_postfix_scan_Raise. split; [done|]. by exists pre, post, o, s. }
      congruence.
  - pose proof Hscan as Hscan'. apply to_postfix_scan_Raise in Hscan' as [-> Hex].
    split.
    + intros [= <-]. by left.
    + intros [[-> _]|(_ & o & s & ? & _)]; done.
Qed.

End to_postfix_facts.

(** ** A parenthesised group followed by star *)

Section group_star_facts.

Lemma remove_spaces_group_star (A : list char) :
  remove_spaces (LPAREN :: A ++ [RPAREN; STAR])
  = LPAREN :: remove_spaces A ++ [RPAREN; STAR].
Proof.
  unfold remove_spaces. rewrite filter_cons_True by reflexivity.
  by rewrite filter_app.
Qed.

Lemma gap_LPAREN b : gap LPAREN b = [].
Proof.
  unfold gap. rewrite decide_False; [done|].
  intros [Ha _]. unfold literal in Ha.
  destruct Ha as [Ha|Ha]; [by vm_compute in Ha|].
  unfold LPAREN, RPAREN, STAR, PLUS, QMARK in Ha. destruct_or!; done.
Qed.

Lemma gap_RPAREN_r a : gap a RPAREN = [].
Proof.
  unfold gap. rewrite decide_False; [done|].
  intros [_ Hb]. unfold literal in Hb.
  destruct Hb as [Hb|Hb]; [by vm_compute in Hb|].
  unfold LPAREN, RPAREN, EPS in Hb. destruct_or!; done.
Qed.

Lemma gap_STAR_r a : gap a STAR = [].
Proof.
  unfold gap. rewrite decide_False; [done|].
  intros [_ Hb]. unfold literal in Hb.
  destruct Hb as [Hb|Hb]; [by vm_compute in Hb|].
  unfold LPAREN, STAR, EPS in Hb. destruct_or!; done.
Qed.

Lemma add_concat_close_star (l : list char) :
  add_concat (l ++ [RPAREN; STAR]) = add_concat l ++ [RPAREN; STAR].
Proof.
  induction l as [|a [|b l] IH].
  - cbn [app]. by rewrite add_concat_cons, gap_STAR_r.
  - cbn [app]. rewrite add_concat_cons, gap_RPAREN_r.
    rewrite (add_concat_cons RPAREN STAR []). by rewrite gap_STAR_r.
  - cbn [app] in *. rewrite !add_concat_cons, IH.
    cbn [app]. by rewrite app_assoc.
Qed.

Lemma add_concat_group_star (l : list char) :
  add_concat (LPAREN :: l ++ [RPAREN; STAR])
  = LPAREN :: add_concat l ++ [RPAREN; STAR].
Proof.
  destruct l as [|b l].
  - cbn [app]. by rewrite !add_concat_cons, gap_LPAREN, gap_STAR_r.
  - cbn [app]. rewrite add_concat_cons, gap_LPAREN. cbn [app]. f_equal.
    apply (add_concat_close_star (b :: l)).
Qed.

(** The two pop loops do not look below an opening parenthesis. *)
Lemma pop_ops_frame ch o out stack base :
  pop_ops ch (o ++ out) (stack ++ LPAREN :: base)
  = (o ++ (pop_ops ch out stack).1, (pop_ops ch out stack).2 ++ LPAREN :: base).
Proof.
  revert out. induction stack as [|top below IH]; intros out.
  - cbn. by rewrite bool_decide_eq_true_2.
  - cbn [pop_ops app]. case_bool_decide; [done|].
    destruct (pops top ch); [|done]. by rewrite <- app_assoc, IH.
Qed.

Lemma pop_to_paren_frame o out stack base :
  (pop_to_paren out stack).2 ≠ [] →
  pop_to_paren (o ++ out) (stack ++ LPAREN :: base)
  = (o ++ (pop_to_paren out stack).1,
     (pop_to_paren out stack).2 ++ LPAREN :: base).
Proof.
  revert out. induction stack as [|top below IH]; intros out; [done|].
  cbn [pop_to_paren app]. case_bool_decide; [done|].
  intros Hne. by rewrite <- app_assoc, IH.
Qed.

Lemma to_postfix_step_frame o base out stack ch out1 stack1 :
  to_postfix_step (out, stack) ch = Ok (out1, stack1) →
  to_postfix_step (o ++ out, stack ++ LPAREN :: base) ch
  = Ok (o ++ out1, stack1 ++ LPAREN :: base).
Proof.
  unfold to_postfix_step.
  case_bool_decide; [intros [= <- <-]; by rewrite app_assoc|].
  destruct (is_symbol ch); [intros [= <- <-]; by rewrite app_assoc|].
  case_bool_decide; [by intros [= <- <-]|].
  case_bool_decide.
  - destruct (pop_to_paren out stack) as [out' stack'] eqn:Hpop.
    destruct stack' as [|top below]; [done|]. intros [= <- <-].
    rewrite pop_to_paren_frame by (by rewrite Hpop). by rewrite Hpop.
  - case_bool_decide; [|done].
    rewrite pop_ops_frame. destruct (pop_ops ch out stack) as [out' stack'].
    by intros [= <- <-].
Qed.

Lemma to_postfix_scan_frame o base regex out stack out1 stack1 :
  to_postfix_scan (out, stack) regex = Ok (out1, stack1) →
  to_postfix_scan (o ++ out, stack ++ LPAREN :: base) regex
  = Ok (o ++ out1, stack1 ++ LPAREN :: base).
Proof.
  revert out stack. induction regex as [|ch rest IH]; intros out stack.
  - by intros [= <- <-].
  - cbn [to_postfix_scan].
    destruct (to_postfix_step (out, stack) ch) as [[out' stack']|] eqn:Hstep; [|done].
    rewrite (to_postfix_step_frame o base _ _ _ _ _ Hstep). apply IH.
Qed.

Lemma to_postfix_drain_Ok out stack post :
  to_postfix_drain out stack = Ok post →
  post = out ++ stack ∧ LPAREN ∉ stack.
Proof.
  revert out. induction stack as [|op below IH]; intros out.
  - intros [= <-]. rewrite app_nil_r. split; [done|set_solver].
  - cbn [to_postfix_drain]. case_bool_decide as Hparen; [done|].
    intros H. apply IH in H as [-> Hno]. rewrite <- app_assoc. split; [done|].
    set_solver.
Qed.

Lemma pop_to_paren_all out stack base :
  LPAREN ∉ stack →
  pop_to_paren out (stack ++ LPAREN :: base) = (out ++ stack, LPAREN :: base).
Proof.
  revert out. induction stack as [|top below IH]; intros out Hno.
  - cbn. by rewrite bool_decide_eq_true_2, app_nil_r.
  - cbn [pop_to_paren app]. rewrite bool_decide_eq_false_2 by set_solver.
    rewrite IH by set_solver. by rewrite <- app_assoc.
Qed.

Lemma to_postfix_step_RPAREN out stack :
  to_postfix_step (out, stack) RPAREN
  = match (pop_to_paren out stack).2 with
    | [] => Raise ValueError_parentesis_desbalanceados
    | _ :: below => Ok ((pop_to_paren out stack).1, below)
    end.
Proof.
  unfold to_postfix_step. by destruct (pop_to_paren out stack) as [out' [|top below]].
Qed.

(** The postfix form of [(A)*] is the postfix form of [A] followed by the
    star operator. *)
Lemma to_postfix_group_star (A post : list char) :
  to_postfix (add_concat (remove_spaces A)) = Ok post →
  to_postfix (add_concat (remove_spaces (LPAREN :: A ++ [RPAREN; STAR])))
  = Ok (post ++ [STAR]).
Proof.
  rewrite remove_spaces_group_star, add_concat_group_star.
  set (E := add_concat (remove_spaces A)).
  unfold to_postfix.
  destruct (to_postfix_scan ([], []) E) as [[out stack]|] eqn:Hscan; [|done].
  cbn [mbind res_bind]. intros Hdrain.
  apply to_postfix_drain_Ok in Hdrain as [-> Hno].
  cbn [to_postfix_scan]. 
  assert (to_postfix_step ([], []) LPAREN = Ok ([], [LPAREN])) as -> by reflexivity.
  cbn [mbind res_bind]. rewrite to_postfix_scan_app.
  pose proof (to_postfix_scan_frame [] [] E [] [] out stack Hscan) as Hframe.
  cbn [app] in Hframe. rewrite Hframe. cbn [mbind res_bind to_postfix_scan].
  assert (to_postfix_step (out, stack ++ [LPAREN]) RPAREN = Ok (out ++ stack, [])) as ->.
  { rewrite to_postfix_step_RPAREN, pop_to_paren_all by done. done. }
  cbn [mbind res_bind].
  assert (to_postfix_step (out ++ stack, []) STAR = Ok (out ++ stack, [STAR])) as ->.
  { rewrite to_postfix_step_operator by (exists 3; reflexivity). done. }
  cbn [mbind res_bind to_postfix_drain].
  rewrite bool_decide_eq_false_2; [done|].
  unfold STAR, LPAREN, RPAREN. set_solver.
Qed.

End group_star_facts.

(** ** A star written at the end of a regex *)

Section trailing_star_facts.







End trailing_star_facts.

(** ** The store *)

Section store_facts.

Implicit Types (σ : store) (u v : State) (sym : char).

Lemma new_State_fst σ : (new_State σ).1 = S (_id σ).
Proof. reflexivity. Qed.

Lemma new_State_id σ : _id (new_State σ).2 = S (_id σ).
Proof. reflexivity. Qed.

Lemma add_edge_id σ u sym v : _id (add_edge σ u sym v) = _id σ.
Proof. reflexivity. Qed.

Lemma edges_get_new_State σ u sym :
  edges_get (new_State σ).2 u sym
  = if decide (u = S (_id σ)) then ∅ else edges_get σ u sym.
Proof.
  unfold edges_get, edges, new_State. cbn [snd heap].
  case_decide as Hu.
  - subst u. by rewrite lookup_insert_eq.
  - by rewrite lookup_insert_ne.
Qed.

Lemma edges_get_add_edge σ u sym v u' sym' :
  edges_get (add_edge σ u sym v) u' sym'
  = if decide (u' = u ∧ sym' = sym) then edges_get σ u sym ∪ {[v]}
    else edges_get σ u' sym'.
Proof.
  unfold add_edge. unfold edges_get at 1. unfold edges at 1. cbn [heap].
  destruct (decide (u' = u)) as [->|Hu].
  - rewrite lookup_insert_eq. cbn [default from_option id].
    destruct (decide (sym' = sym)) as [->|Hs].
    + rewrite lookup_insert_eq, decide_True by done. done.
    + rewrite lookup_insert_ne, decide_False by naive_solver. done.
  - rewrite lookup_insert_ne, decide_False by naive_solver. done.
Qed.

Lemma edge_new_State σ u sym v :
  edge (new_State σ).2 u sym v ↔ edge σ u sym v ∧ u ≠ S (_id σ).
Proof.
  unfold edge. rewrite edges_get_new_State. case_decide; set_solver.
Qed.

Lemma edge_add_edge σ u0 sym0 v0 u sym v :
  edge (add_edge σ u0 sym0 v0) u sym v
  ↔ edge σ u sym v ∨ (u = u0 ∧ sym = sym0 ∧ v = v0).
Proof.
  unfold edge. rewrite edges_get_add_edge. case_decide; set_solver.
Qed.

Lemma dom_new_State σ u :
  u ∈ dom (heap (new_State σ).2) ↔ u = S (_id σ) ∨ u ∈ dom (heap σ).
Proof. unfold new_State. cbn [snd heap]. rewrite dom_insert_L. set_solver. Qed.

Lemma dom_add_edge σ u0 sym0 v0 u :
  u ∈ dom (heap (add_edge σ u0 sym0 v0)) ↔ u = u0 ∨ u ∈ dom (heap σ).
Proof. unfold add_edge. cbn [heap]. rewrite dom_insert_L. set_solver. Qed.

Lemma edge_dom σ u sym v : edge σ u sym v → u ∈ dom (heap σ).
Proof.
  unfold edge, edges_get, edges. rewrite elem_of_dom.
  destruct (heap σ !! u); [eauto|]. cbn. rewrite lookup_empty. set_solver.
Qed.

Lemma edge_lookup σ u sym v :
  edge σ u sym v ↔
  ∃ es succs, heap σ !! u = Some es ∧ es !! sym = Some succs ∧ v ∈ succs.
Proof.
  unfold edge, edges_get, edges. split.
  - destruct (heap σ !! u) as [es|]; cbn; [|rewrite lookup_empty; set_solver].
    destruct (es !! sym) as [succs|] eqn:E; cbn; [|set_solver]. eauto.
  - intros (es & succs & -> & Hs & Hv). cbn. by rewrite Hs.
Qed.

Lemma elem_of_successors σ u v : v ∈ successors σ u ↔ step σ u v.
Proof.
  unfold successors, step. rewrite list_elem_of_bind. split.
  - intros ([sym succs] & Hv & Hkv).
    apply elem_of_map_to_list in Hkv. cbn in Hv. apply elem_of_elements in Hv.
    exists sym. unfold edge, edges_get. by rewrite Hkv.
  - intros (sym & Hedge). unfold edge, edges_get in Hedge.
    destruct (edges σ u !! sym) as [succs|] eqn:E; [|set_solver].
    exists (sym, succs). split; [by apply elem_of_elements|].
    by apply elem_of_map_to_list.
Qed.

Lemma edge_all_states σ u sym v :
  edge σ u sym v → u ∈ all_states σ ∧ v ∈ all_states σ.
Proof.
  intros Hedge. unfold all_states. split.
  - apply elem_of_union_l. by eapply edge_dom.
  - apply elem_of_union_r. apply edge_lookup in Hedge as (es & succs & Hu & Hs & Hv).
    apply elem_of_union_list. eexists. split.
    + apply list_elem_of_fmap. exists (u, es). split; [done|].
      by apply elem_of_map_to_list.
    + cbn. apply elem_of_union_list. exists succs. split; [|done].
      apply list_elem_of_fmap. exists (sym, succs). split; [done|].
      by apply elem_of_map_to_list.
Qed.

Lemma step_all_states σ u v : step σ u v → u ∈ all_states σ ∧ v ∈ all_states σ.
Proof. intros [sym H]. by eapply edge_all_states. Qed.

End store_facts.

(** ** The traversals terminate and compute reachability *)

Section traversal_facts.

Implicit Types (σ : store) (u v : State) (V C : gset State).

Lemma size_difference_mono (U V V' : gset State) :
  V ⊆ V' → size (U ∖ V') ≤ size (U ∖ V).
Proof. intros H. apply subseteq_size. set_solver. Qed.

Lemma size_difference_lt (U V : gset State) (u : State) :
  u ∈ U → u ∉ V → size (U ∖ (V ∪ {[u]})) < size (U ∖ V).
Proof.
  intros HU HV. apply subset_size. apply strict_spec_alt.
  split; [set_solver|]. intros Heq.
  assert (u ∈ U ∖ V) as Hin by set_solver. set_solver.
Qed.

(** The loop over the successors inside [dfs], given [dfs] itself is
    correct at the fuel [n] of the recursive calls. *)
Lemma dfs_successors n σ (l : list State) :
  (∀ v V, size (all_states σ ∖ V) < n →
     ∃ V', dfs n σ v V = Ok V'
           ∧ V ⊆ V' ∧ v ∈ V'
           ∧ (∀ x y, x ∈ V' → x ∉ V → step σ x y → y ∈ V')
           ∧ (∀ x, x ∈ V' → x ∈ V ∨ reachable σ v x)) →
  ∀ V, size (all_states σ ∖ V) < n →
    ∃ V', foldl (λ acc v, visited ← acc; dfs n σ v visited) (Ok V) l = Ok V'
          ∧ V ⊆ V' ∧ (∀ v, v ∈ l → v ∈ V')
          ∧ (∀ x y, x ∈ V' → x ∉ V → step σ x y → y ∈ V')
          ∧ (∀ x, x ∈ V' → x ∈ V ∨ ∃ v, v ∈ l ∧ reachable σ v x).
Proof.
  intros Hdfs. induction l as [|v l IH]; intros V Hsize.
  - exists V. cbn. split_and!; [done|done|set_solver|done|auto].
  - cbn [foldl]. destruct (Hdfs v V Hsize) as (V1 & Hrun & Hsub & Hv & Hclosed & Hreach).
    change (visited ← Ok V; dfs n σ v visited) with (dfs n σ v V). rewrite Hrun.
    destruct (IH V1) as (V2 & Hrun2 & Hsub2 & Hl & Hclosed2 & Hreach2).
    { pose proof (size_difference_mono (all_states σ) V V1 Hsub). lia. }
    exists V2. split_and!; [done|set_solver|set_solver| |].
    + intros x y Hx HxV Hstep. destruct (decide (x ∈ V1)) as [Hx1|Hx1].
      * apply Hsub2. by eapply Hclosed.
      * by eapply Hclosed2.
    + intros x Hx. destruct (Hreach2 x Hx) as [Hx1|(w & Hw & Hr)].
      * destruct (Hreach x Hx1) as [?|?]; [by left|right].
        exists v. split; [set_solver|done].
      * right. exists w. split; [set_solver|done].
Qed.

Lemma dfs_spec fuel σ u V :
  size (all_states σ ∖ V) < fuel →
  ∃ V', dfs fuel σ u V = Ok V'
        ∧ V ⊆ V' ∧ u ∈ V'
        ∧ (∀ x y, x ∈ V' → x ∉ V → step σ x y → y ∈ V')
        ∧ (∀ x, x ∈ V' → x ∈ V ∨ reachable σ u x).
Proof.
  revert u V. induction fuel as [|n IH]; intros u V Hsize; [lia|].
  cbn [dfs]. case_decide as Hu.
  { exists V. split_and!; [done|done|done|done|auto]. }
  destruct (successors σ u) as [|v0 l0] eqn:Hsucc.
  { exists (V ∪ {[u]}). cbn. split_and!; [done|set_solver|set_solver| |].
    - intros x y Hx HxV [sym Hstep]. assert (x = u) as -> by set_solver.
      assert (y ∈ successors σ u) as Hy by (apply elem_of_successors; by exists sym).
      rewrite Hsucc in Hy. set_solver.
    - intros x Hx. apply elem_of_union in Hx as [?|Hx]; [by left|right].
      apply elem_of_singleton in Hx as ->. apply rtc_refl. }
  rewrite <- Hsucc.
  assert (u ∈ all_states σ) as HuU.
  { assert (step σ u v0) as Hs by (apply elem_of_successors; rewrite Hsucc; set_solver).
    by apply step_all_states in Hs as [? _]. }
  destruct (dfs_successors n σ (successors σ u)
              (λ v V Hlt, IH v V Hlt) (V ∪ {[u]}))
    as (V' & Hrun & Hsub & Hl & Hclosed & Hreach).
  { pose proof (size_difference_lt (all_states σ) V u HuU Hu). lia. }
  exists V'. split_and!; [done|set_solver|set_solver| |].
  - intros x y Hx HxV Hstep. destruct (decide (x = u)) as [->|Hne].
    + apply Hl. by apply elem_of_successors.
    + eapply Hclosed; [done|set_solver|done].
  - intros x Hx. destruct (Hreach x Hx) as [Hx1|(w & Hw & Hr)].
    + apply elem_of_union in Hx1 as [?|Hx1]; [by left|right].
      apply elem_of_singleton in Hx1 as ->. apply rtc_refl.
    + right. eapply rtc_l; [|exact Hr]. by apply elem_of_successors.
Qed.

(** From a start state and an empty [visited] set, [dfs] returns exactly
    the states reachable from it. *)
Lemma dfs_reachable σ u :
  ∃ V, dfs (S (size (all_states σ))) σ u ∅ = Ok V
       ∧ ∀ x, x ∈ V ↔ reachable σ u x.
Proof.
  destruct (dfs_spec (S (size (all_states σ))) σ u ∅)
    as (V & Hrun & _ & Hu & Hclosed & Hreach).
  { pose proof (size_difference_mono (all_states σ) ∅ ∅).
    assert (size (all_states σ ∖ ∅) ≤ size (all_states σ)); [|lia].
    apply subseteq_size. set_solver. }
  exists V. split; [done|]. intros x. split.
  - intros Hx. destruct (Hreach x Hx) as [?|?]; [set_solver|done].
  - intros Hr.
    assert (∀ a c, rtc (step σ) a c → a ∈ V → c ∈ V) as Hrtc.
    { clear -Hclosed. induction 1 as [|a b c Hab Hbc IH]; [done|].
      intros Ha. apply IH. eapply Hclosed; [exact Ha|set_solver|done]. }
    by eapply Hrtc.
Qed.

(** The inner loop of [epsilon_closure] over the epsilon successors. *)
Lemma closure_visit_fold (U : gset State) (l : list State)
    (stack : list State) (closure : gset State) :
  (∀ v, v ∈ l → v ∈ U) →
  (foldl closure_visit (stack, closure) l).2 = closure ∪ list_to_set l
  ∧ (∀ x, x ∈ (foldl closure_visit (stack, closure) l).1
          ↔ x ∈ stack ∨ (x ∈ l ∧ x ∉ closure))
  ∧ length (foldl closure_visit (stack, closure) l).1
    + size (U ∖ (foldl closure_visit (stack, closure) l).2)
    ≤ length stack + size (U ∖ closure).
Proof.
  revert stack closure. induction l as [|v l IH]; intros stack closure HU.
  - cbn. split_and!; [set_solver|set_solver|lia].
  - cbn [foldl]. unfold closure_visit at 2 4 6 8. cbn [fst snd].
    assert (∀ v, v ∈ l → v ∈ U) as HU' by set_solver.
    case_decide as Hv.
    + destruct (IH stack closure HU') as (Hcl & Hst & Hsz).
      split_and!; [set_solver| |done].
      intros x. rewrite Hst. set_solver.
    + destruct (IH (v :: stack) (closure ∪ {[v]}) HU') as (Hcl & Hst & Hsz).
      split_and!; [set_solver| |].
      * intros x. rewrite Hst. rewrite !elem_of_cons.
        destruct (decide (x = v)) as [->|Hne]; set_solver.
      * assert (size (U ∖ (closure ∪ {[v]})) < size (U ∖ closure)).
        { apply size_difference_lt; set_solver. }
        cbn [length] in Hsz. lia.
Qed.

Lemma epsilon_closure_loop_spec fuel σ stack closure :
  length stack + size (all_states σ ∖ closure) ≤ fuel →
  (∀ x, x ∈ stack → x ∈ closure) →
  ∃ C, epsilon_closure_loop fuel σ stack closure = Ok C
       ∧ closure ⊆ C
       ∧ (∀ x, x ∈ C → x ∈ closure ∨ ∃ s, s ∈ stack ∧ rtc (eps_step σ) s x)
       ∧ (∀ x y, x ∈ C → x ∈ stack ∨ x ∉ closure → eps_step σ x y → y ∈ C).
Proof.
  revert stack closure. induction fuel as [|n IH]; intros stack closure Hfuel Hstack.
  - destruct stack as [|s stack]; [|cbn in Hfuel; lia].
    exists closure. cbn. split_and!; [done|done|auto|set_solver].
  - destruct stack as [|s stack].
    { exists closure. cbn. split_and!; [done|done|auto|set_solver]. }
    cbn [epsilon_closure_loop].
    pose proof (closure_visit_fold (all_states σ)
                  (elements (edges_get σ s EPS)) stack closure) as Hfold.
    destruct Hfold as (Hcl & Hst & Hsz).
    { intros v Hv. apply elem_of_elements in Hv.
      by apply (edge_all_states σ s EPS v). }
    set (acc := foldl closure_visit (stack, closure)
                      (elements (edges_get σ s EPS))) in *.
    destruct (IH acc.1 acc.2) as (C & Hrun & Hsub & Hreach & Hclosed).
    { cbn [length] in Hfuel. lia. }
    { intros x Hx. apply Hst in Hx. rewrite Hcl. set_solver. }
    exists C. split_and!; [done|set_solver| |].
    + intros x Hx. destruct (Hreach x Hx) as [Hx1|(s' & Hs' & Hr)].
      * rewrite Hcl in Hx1. apply elem_of_union in Hx1 as [?|Hx1]; [by left|right].
        exists s. split; [set_solver|]. apply rtc_once.
        unfold eps_step, edge. set_solver.
      * right. apply Hst in Hs' as [Hs'|[Hs' _]].
        -- exists s'. split; [set_solver|done].
        -- exists s. split; [set_solver|]. eapply rtc_l; [|exact Hr].
           unfold eps_step, edge. set_solver.
    + intros x y Hx Hcase Hstep.
      destruct (decide (x = s)) as [->|Hne].
      { apply Hsub. rewrite Hcl. unfold eps_step, edge in Hstep. set_solver. }
      destruct (decide (x ∈ acc.1)) as [Hin|Hnin].
      { eapply Hclosed; [done|by left|done]. }
      eapply Hclosed; [done| |done]. right.
      rewrite Hst in Hnin. rewrite Hcl. set_solver.
Qed.

(** [epsilon_closure] returns, and returns the epsilon-closure. *)
Lemma epsilon_closure_spec σ (states : gset State) :
  ∃ C, epsilon_closure σ states = Ok C
       ∧ ∀ x, x ∈ C ↔ in_eps_closure σ states x.
Proof.
  unfold epsilon_closure.
  destruct (epsilon_closure_loop_spec (size states + size (all_states σ)) σ
              (elements states) states)
    as (C & Hrun & Hsub & Hreach & Hclosed).
  { change (length (elements states)) with (size states).
    assert (size (all_states σ ∖ states) ≤ size (all_states σ)); [|lia].
    apply subseteq_size. set_solver. }
  { intros x. by rewrite elem_of_elements. }
  exists C. split; [done|]. intros x. unfold in_eps_closure. split.
  - intros Hx. destruct (Hreach x Hx) as [?|(s & Hs & Hr)].
    + exists x. split; [done|apply rtc_refl].
    + exists s. split; [by apply elem_of_elements|done].
  - intros (s & Hs & Hr). assert (s ∈ C) as HsC by set_solver.
    assert (∀ a c, rtc (eps_step σ) a c → a ∈ C → c ∈ C) as Hrtc.
    { clear -Hclosed. induction 1 as [|a b c Hab Hbc IH]; [done|].
      intros Ha. apply IH. eapply Hclosed; [exact Ha| |done].
      destruct (decide (a ∈ states)); [left; by apply elem_of_elements|by right]. }
    by eapply Hrtc.
Qed.

Lemma epsilon_closure_empty σ : epsilon_closure σ ∅ = Ok ∅.
Proof.
  unfold epsilon_closure. rewrite elements_empty.
  by destruct (size (∅ : gset State) + size (all_states σ)).
Qed.

Lemma move_empty σ sym : move σ ∅ sym = ∅.
Proof. unfold move. rewrite elements_empty. reflexivity. Qed.

Lemma elem_of_move σ (states : gset State) sym v :
  v ∈ move σ states sym ↔ ∃ u, u ∈ states ∧ edge σ u sym v.
Proof.
  unfold move. rewrite elem_of_union_list. split.
  - intros (X & HX & Hv). apply list_elem_of_fmap in HX as (u & -> & Hu).
    exists u. split; [by apply elem_of_elements|done].
  - intros (u & Hu & Hv). exists (edges_get σ u sym). split; [|done].
    apply list_elem_of_fmap. exists u. split; [done|by apply elem_of_elements].
Qed.

End traversal_facts.

(** ** Thompson's construction *)

Section thompson_facts.

Implicit Types (σ : store) (u v : State) (sym : char) (f a b : Fragment).

(** *** The loop body, operator by operator *)

Lemma thompson_step_BAR σ b a stack :
  thompson_step (σ, b :: a :: stack) BAR
  = let s := S (_id σ) in
    let t := S (S (_id σ)) in
    Ok (add_edge (add_edge (add_edge (add_edge (alloc2 σ)
          s EPS (frag_start a)) s EPS (frag_start b))
          (frag_accept a) EPS t) (frag_accept b) EPS t,
        mkFragment s t :: stack).
Proof. reflexivity. Qed.

Lemma thompson_step_DOT σ b a stack :
  thompson_step (σ, b :: a :: stack) DOT
  = Ok (add_edge σ (frag_accept a) EPS (frag_start b),
        mkFragment (frag_start a) (frag_accept b) :: stack).
Proof. reflexivity. Qed.

Lemma thompson_step_STAR σ a stack :
  thompson_step (σ, a :: stack) STAR
  = let s := S (_id σ) in
    let t := S (S (_id σ)) in
    Ok (add_edge (add_edge (add_edge (add_edge (alloc2 σ)
          s EPS (frag_start a)) s EPS t)
          (frag_accept a) EPS (frag_start a)) (frag_accept a) EPS t,
        mkFragment s t :: stack).
Proof. reflexivity. Qed.

Lemma thompson_step_PLUS σ a stack :
  thompson_step (σ, a :: stack) PLUS
  = let s := S (_id σ) in
    let t := S (S (_id σ)) in
    Ok (add_edge (add_edge (add_edge (alloc2 σ)
          s EPS (frag_start a))
          (frag_accept a) EPS (frag_start a)) (frag_accept a) EPS t,
        mkFragment s t :: stack).
Proof. reflexivity. Qed.

Lemma thompson_step_QMARK σ a stack :
  thompson_step (σ, a :: stack) QMARK
  = let s := S (_id σ) in
    let t := S (S (_id σ)) in
    Ok (add_edge (add_edge (add_edge (alloc2 σ)
          s EPS (frag_start a)) s EPS t)
          (frag_accept a) EPS t,
        mkFragment s t :: stack).
Proof. reflexivity. Qed.

Lemma thompson_step_symbol σ stack tok :
  tok ∉ [BAR; DOT; STAR; PLUS; QMARK] →
  thompson_step (σ, stack) tok
  = Ok (add_edge (alloc2 σ) (S (_id σ)) tok (S (S (_id σ))),
        mkFragment (S (_id σ)) (S (S (_id σ))) :: stack).
Proof.
  intros Hne. unfold thompson_step.
  rewrite !bool_decide_eq_false_2 by set_solver.
  unfold sym_frag. cbn.
  case_bool_decide as Heps; [rewrite Heps|]; reflexivity.
Qed.

(** The loop body fails only by popping an empty stack. *)
Lemma thompson_step_Raise σ stack tok e :
  thompson_step (σ, stack) tok = Raise e → e = IndexError_pop_from_empty_list.
Proof.
  unfold thompson_step.
  repeat case_bool_decide; destruct stack as [|b [|a stack]]; cbn;
    by intros [= <-].
Qed.

Lemma thompson_loop_app cfg pre post :
  thompson_loop cfg (pre ++ post)
  = cfg' ← thompson_loop cfg pre; thompson_loop cfg' post.
Proof.
  revert cfg. induction pre as [|tok pre IH]; intros cfg; [done|].
  cbn [thompson_loop app]. destruct (thompson_step cfg tok); cbn; [apply IH|done].
Qed.

Lemma thompson_loop_Raise cfg post e :
  thompson_loop cfg post = Raise e → e = IndexError_pop_from_empty_list.
Proof.
  revert cfg. induction post as [|tok post IH]; intros cfg; [done|].
  cbn [thompson_loop].
  destruct (thompson_step cfg tok) as [cfg'|e'] eqn:Hstep; cbn.
  - apply IH.
  - intros [= <-]. destruct cfg. by eapply thompson_step_Raise.
Qed.

(** *** Allocation and the transition graph *)

Lemma alloc2_id σ : _id (alloc2 σ) = S (S (_id σ)).
Proof. reflexivity. Qed.

Lemma edge_alloc2 σ u sym v :
  store_ok σ → edge (alloc2 σ) u sym v ↔ edge σ u sym v.
Proof.
  intros [_ Hedge]. unfold alloc2. rewrite !edge_new_State, new_State_id.
  split; [tauto|]. intros H. destruct (Hedge _ _ _ H). split_and!; [done|lia..].
Qed.

Lemma dom_alloc2 σ u :
  u ∈ dom (heap (alloc2 σ))
  ↔ u = S (S (_id σ)) ∨ u = S (_id σ) ∨ u ∈ dom (heap σ).
Proof. unfold alloc2. by rewrite !dom_new_State, new_State_id. Qed.

Lemma reachable_mono σ σ' u v :
  (∀ x sym y, edge σ x sym y → edge σ' x sym y) →
  reachable σ u v → reachable σ' u v.
Proof.
  intros Hmono. unfold reachable. apply rtc_subrel.
  intros x y [sym H]. exists sym. by apply Hmono.
Qed.

(** One iteration adds exactly the transitions [new_edges] and keeps all
    the others. *)
Lemma thompson_step_edges σ stack tok σ' stack' :
  store_ok σ →
  thompson_step (σ, stack) tok = Ok (σ', stack') →
  ∀ u sym v,
    edge σ' u sym v ↔ edge σ u sym v ∨ (u, sym, v) ∈ new_edges tok σ stack.
Proof.
  intros Hok Hstep u sym v. unfold new_edges.
  destruct (decide (tok = BAR)) as [->|?].
  { destruct stack as [|b [|a stack]]; [done..|].
    rewrite thompson_step_BAR in Hstep. cbn zeta in Hstep.
    injection Hstep as <- <-.
    rewrite !edge_add_edge, (edge_alloc2 _ _ _ _ Hok). set_solver. }
  destruct (decide (tok = DOT)) as [->|?].
  { destruct stack as [|b [|a stack]]; [done..|].
    rewrite thompson_step_DOT in Hstep. injection Hstep as <- <-.
    rewrite !edge_add_edge. set_solver. }
  destruct (decide (tok = STAR)) as [->|?].
  { destruct stack as [|a stack]; [done|].
    rewrite thompson_step_STAR in Hstep. cbn zeta in Hstep.
    injection Hstep as <- <-.
    rewrite !edge_add_edge, (edge_alloc2 _ _ _ _ Hok). set_solver. }
  destruct (decide (tok = PLUS)) as [->|?].
  { destruct stack as [|a stack]; [done|].
    rewrite thompson_step_PLUS in Hstep. cbn zeta in Hstep.
    injection Hstep as <- <-.
    rewrite !edge_add_edge, (edge_alloc2 _ _ _ _ Hok). set_solver. }
  destruct (decide (tok = QMARK)) as [->|?].
  { destruct stack as [|a stack]; [done|].
    rewrite thompson_step_QMARK in Hstep. cbn zeta in Hstep.
    injection Hstep as <- <-.
    rewrite !edge_add_edge, (edge_alloc2 _ _ _ _ Hok). set_solver. }
  rewrite thompson_step_symbol in Hstep by set_solver.
  injection Hstep as <- <-.
  rewrite !edge_add_edge, (edge_alloc2 _ _ _ _ Hok). set_solver.
Qed.

(** *** The invariant of the loop *)

(** A step that pops [popped], only adds transitions [extra] that leave
    fresh states or exits of popped fragments, and pushes [f]. *)
Lemma cfg_inv_extend σ σ' popped stack f (extra : list (State * char * State)) :
  cfg_inv σ (popped ++ stack) →
  _id σ ≤ _id σ' →
  (∀ u, u ∈ dom (heap σ') → u ≤ _id σ') →
  (∀ u sym v, edge σ' u sym v ↔ edge σ u sym v ∨ (u, sym, v) ∈ extra) →
  (∀ u sym v, (u, sym, v) ∈ extra →
     u ≤ _id σ' ∧ v ≤ _id σ' ∧ u ≠ frag_accept f
     ∧ (_id σ < u ∨ u ∈ frag_accept <$> popped)) →
  frag_start f ≤ _id σ' →
  frag_accept f ≤ _id σ' →
  _id σ < frag_accept f ∨ frag_accept f ∈ frag_accept <$> popped →
  reachable σ' (frag_start f) (frag_accept f) →
  cfg_inv σ' (f :: stack).
Proof.
  intros ([Hdom Hedge] & Hfrags & Hnodup) Hid Hdom' Hedges Hextra Hs Ha Hfresh Hreach.
  rewrite fmap_app in Hnodup. apply NoDup_app in Hnodup as (Hnd1 & Hdisj & Hnd2).
  apply Forall_app in Hfrags as [Hpopped Hstack].
  rewrite Forall_forall in Hpopped, Hstack.
  assert (∀ g, g ∈ popped ++ stack → ∀ sym v, ¬ edge σ (frag_accept g) sym v) as Hnone.
  { intros g Hg. rewrite elem_of_app in Hg.
    destruct Hg as [Hg|Hg]; [apply Hpopped in Hg|apply Hstack in Hg]; apply Hg. }
  split_and!.
  - split; [done|]. intros u sym v Hu. apply Hedges in Hu as [Hu|Hu].
    + apply Hedge in Hu. lia.
    + apply Hextra in Hu. tauto.
  - constructor.
    + split_and!; [done|done| |done].
      intros sym v Hu. apply Hedges in Hu as [Hu|Hu].
      * destruct Hfresh as [Hlt|Hin].
        -- apply Hedge in Hu. lia.
        -- apply list_elem_of_fmap in Hin as (g & Heq & Hg). rewrite Heq in Hu.
           eapply Hnone; [|exact Hu]. set_solver.
      * apply Hextra in Hu. tauto.
    + apply Forall_forall. intros g Hg.
      destruct (Hstack g Hg) as (Hgs & Hga & Hgnone & Hgreach).
      split_and!; [lia|lia| |].
      * intros sym v Hu. apply Hedges in Hu as [Hu|Hu]; [by eapply Hgnone|].
        apply Hextra in Hu as (_ & _ & _ & [Hlt|Hin]); [lia|].
        eapply Hdisj; [exact Hin|]. apply list_elem_of_fmap. eauto.
      * eapply reachable_mono; [|done]. intros x sym y Hxy. apply Hedges. by left.
  - cbn [fmap list_fmap]. constructor; [|done].
    intros Hin. destruct Hfresh as [Hlt|Hin'].
    + apply list_elem_of_fmap in Hin as (g & Heq & Hg).
      apply Hstack in Hg as (_ & Hga & _). lia.
    + by eapply Hdisj.
Qed.

Lemma reachable_edge σ u sym v : edge σ u sym v → reachable σ u v.
Proof. intros H. apply rtc_once. by exists sym. Qed.

Lemma reachable_cons σ u sym v w :
  edge σ u sym v → reachable σ v w → reachable σ u w.
Proof. intros H. apply rtc_l. by exists sym. Qed.

Lemma reachable_snoc σ u v sym w :
  reachable σ u v → edge σ v sym w → reachable σ u w.
Proof. intros Hr H. eapply rtc_r; [done|]. by exists sym. Qed.

Local Ltac extra_bounds :=
  let Hin := fresh "Hin" in
  intros ? ? ? Hin; cbn [frag_accept fmap list_fmap];
  rewrite ?elem_of_cons, elem_of_nil in Hin;
  destruct_or!; try done; injection Hin as -> -> ->;
  split_and!; first [lia | left; lia | right; set_solver | set_solver].

Lemma thompson_step_inv σ stack tok σ' stack' :
  cfg_inv σ stack →
  thompson_step (σ, stack) tok = Ok (σ', stack') →
  cfg_inv σ' stack'.
Proof.
  intros Hinv Hstep.
  pose proof (thompson_step_edges _ _ _ _ _ (proj1 Hinv) Hstep) as Hedges.
  pose proof Hinv as ([Hdom Hedge] & Hfrags & Hnd).
  assert (∀ x sym y, edge σ x sym y → edge σ' x sym y) as Hmono.
  { intros x sym y H. apply Hedges. by left. }
  unfold new_edges in Hedges.
  destruct (decide (tok = BAR)) as [->|?].
  { destruct stack as [|b [|a stack]]; [done..|].
    rewrite thompson_step_BAR in Hstep. cbn zeta in Hstep.
    injection Hstep as Hσ <-.
    apply Forall_cons in Hfrags as [(Hbs & Hba & Hbn & Hbr) Hfrags].
    apply Forall_cons in Hfrags as [(Has & Haa & Han & Har) Hfrags].
    assert (_id σ' = S (S (_id σ))) as Hid by (by rewrite <- Hσ).
    eapply (cfg_inv_extend σ σ' [b; a] stack _ _ Hinv); [lia| |exact Hedges|..].
    - intros u. rewrite <- Hσ, !dom_add_edge, dom_alloc2, !add_edge_id, alloc2_id.
      intros Hu. destruct_or!; subst; try lia. apply Hdom in Hu. lia.
    - clear Hσ. extra_bounds.
    - cbn. lia.
    - cbn. lia.
    - cbn. left. lia.
    - cbn [frag_start frag_accept].
      apply (reachable_cons _ _ EPS (frag_start a)); [apply Hedges; right; set_solver|].
      apply (reachable_snoc _ _ (frag_accept a) EPS);
        [by eapply reachable_mono|apply Hedges; right; set_solver]. }
  destruct (decide (tok = DOT)) as [->|?].
  { destruct stack as [|b [|a stack]]; [done..|].
    rewrite thompson_step_DOT in Hstep. injection Hstep as Hσ <-.
    apply Forall_cons in Hfrags as [(Hbs & Hba & Hbn & Hbr) Hfrags].
    apply Forall_cons in Hfrags as [(Has & Haa & Han & Har) Hfrags].
    assert (_id σ' = _id σ) as Hid by (by rewrite <- Hσ).
    apply NoDup_cons in Hnd as [Hne _]. cbn [fmap list_fmap] in Hne.
    eapply (cfg_inv_extend σ σ' [b; a] stack _ _ Hinv); [lia| |exact Hedges|..].
    - intros u. rewrite <- Hσ, !dom_add_edge, !add_edge_id.
      intros Hu. destruct_or!; subst; try lia. by apply Hdom.
    - clear Hσ. extra_bounds.
    - cbn. lia.
    - cbn. lia.
    - cbn. right. set_solver.
    - cbn [frag_start frag_accept].
      apply rtc_trans with (frag_start b); [|by eapply reachable_mono].
      apply (reachable_snoc _ _ (frag_accept a) EPS);
        [by eapply reachable_mono|apply Hedges; right; set_solver]. }
  destruct (decide (tok = STAR)) as [->|?].
  { destruct stack as [|a stack]; [done|].
    rewrite thompson_step_STAR in Hstep. cbn zeta in Hstep.
    injection Hstep as Hσ <-.
    apply Forall_cons in Hfrags as [(Has & Haa & Han & Har) Hfrags].
    assert (_id σ' = S (S (_id σ))) as Hid by (by rewrite <- Hσ).
    eapply (cfg_inv_extend σ σ' [a] stack _ _ Hinv); [lia| |exact Hedges|..].
    - intros u. rewrite <- Hσ, !dom_add_edge, dom_alloc2, !add_edge_id, alloc2_id.
      intros Hu. destruct_or!; subst; try lia. apply Hdom in Hu. lia.
    - clear Hσ. extra_bounds.
    - cbn. lia.
    - cbn. lia.
    - cbn. left. lia.
    - cbn [frag_start frag_accept].
      eapply (reachable_edge _ _ EPS), Hedges. right. set_solver. }
  destruct (decide (tok = PLUS)) as [->|?].
  { destruct stack as [|a stack]; [done|].
    rewrite thompson_step_PLUS in Hstep. cbn zeta in Hstep.
    injection Hstep as Hσ <-.
    apply Forall_cons in Hfrags as [(Has & Haa & Han & Har) Hfrags].
    assert (_id σ' = S (S (_id σ))) as Hid by (by rewrite <- Hσ).
    eapply (cfg_inv_extend σ σ' [a] stack _ _ Hinv); [lia| |exact Hedges|..].
    - intros u. rewrite <- Hσ, !dom_add_edge, dom_alloc2, !add_edge_id, alloc2_id.
      intros Hu. destruct_or!; subst; try lia. apply Hdom in Hu. lia.
    - clear Hσ. extra_bounds.
    - cbn. lia.
    - cbn. lia.
    - cbn. left. lia.
    - cbn [frag_start frag_accept].
      apply (reachable_cons _ _ EPS (frag_start a)); [apply Hedges; right; set_solver|].
      apply (reachable_snoc _ _ (frag_accept a) EPS);
        [by eapply reachable_mono|apply Hedges; right; set_solver]. }
  destruct (decide (tok = QMARK)) as [->|?].
  { destruct stack as [|a stack]; [done|].
    rewrite thompson_step_QMARK in Hstep. cbn zeta in Hstep.
    injection Hstep as Hσ <-.
    apply Forall_cons in Hfrags as [(Has & Haa & Han & Har) Hfrags].
    assert (_id σ' = S (S (_id σ))) as Hid by (by rewrite <- Hσ).
    eapply (cfg_inv_extend σ σ' [a] stack _ _ Hinv); [lia| |exact Hedges|..].
    - intros u. rewrite <- Hσ, !dom_add_edge, dom_alloc2, !add_edge_id, alloc2_id.
      intros Hu. destruct_or!; subst; try lia. apply Hdom in Hu. lia.
    - clear Hσ. extra_bounds.
    - cbn. lia.
    - cbn. lia.
    - cbn. left. lia.
    - cbn [frag_start frag_accept].
      eapply (reachable_edge _ _ EPS), Hedges. right. set_solver. }
  rewrite thompson_step_symbol in Hstep by set_solver.
  injection Hstep as Hσ <-.
  assert (_id σ' = S (S (_id σ))) as Hid by (by rewrite <- Hσ).
  eapply (cfg_inv_extend σ σ' [] stack _ _ Hinv); [lia| |exact Hedges|..].
  - intros u. rewrite <- Hσ, !dom_add_edge, dom_alloc2, !add_edge_id, alloc2_id.
    intros Hu. destruct_or!; subst; try lia. apply Hdom in Hu. lia.
  - clear Hσ. extra_bounds.
  - cbn. lia.
  - cbn. lia.
  - cbn. left. lia.
  - cbn [frag_start frag_accept].
    eapply (reachable_edge _ _ tok), Hedges. right. set_solver.
Qed.

Lemma cfg_inv_init n : cfg_inv (Store n ∅) [].
Proof.
  split_and!.
  - split.
    + intros u. cbn. set_solver.
    + intros u sym v H. apply edge_dom in H. cbn in H. set_solver.
  - constructor.
  - constructor.
Qed.

Lemma thompson_loop_inv σ stack post σ' stack' :
  cfg_inv σ stack →
  thompson_loop (σ, stack) post = Ok (σ', stack') →
  cfg_inv σ' stack'.
Proof.
  revert σ stack. induction post as [|tok post IH]; intros σ stack Hinv.
  - by intros [= <- <-].
  - cbn [thompson_loop].
    destruct (thompson_step (σ, stack) tok) as [[σ1 stack1]|] eqn:Hstep; [|done].
    cbn. apply IH. by eapply thompson_step_inv.
Qed.

End thompson_facts.

(** ** The builder's result *)

Section builder_facts.

Implicit Types (σ : store) (u v : State) (sym : char) (f a b : Fragment).

Lemma bind_Ok {A B} (a : A) (k : A → res B) : (Ok a ≫= k) = k a.
Proof. reflexivity. Qed.

Lemma bind_Raise {A B} (e : exn) (k : A → res B) : (Raise e ≫= k) = Raise e.
Proof. reflexivity. Qed.

Lemma thompson_from_postfix_eq σ0 post :
  thompson_from_postfix σ0 post
  = match thompson_loop (σ0, []) post with
    | Ok (σ, [frag]) =>
        match dfs (S (size (all_states σ))) σ (frag_start frag) ∅ with
        | Ok visited => Ok (σ, mkNFA (frag_start frag) (frag_accept frag) visited)
        | Raise e => Raise e
        end
    | Ok _ => Raise RuntimeError_ER_invalida
    | Raise e => Raise e
    end.
Proof.
  unfold thompson_from_postfix.
  destruct (thompson_loop (σ0, []) post) as [[σ1 stack]|e]; [|done].
  rewrite bind_Ok. by destruct stack as [|frag [|g stack]].
Qed.

Lemma thompson_from_postfix_Ok σ0 post σ nfa :
  thompson_from_postfix σ0 post = Ok (σ, nfa) ↔
  ∃ frag,
    thompson_loop (σ0, []) post = Ok (σ, [frag])
    ∧ nfa_start nfa = frag_start frag
    ∧ nfa_accept nfa = frag_accept frag
    ∧ dfs (S (size (all_states σ))) σ (frag_start frag) ∅ = Ok (nfa_states nfa).
Proof.
  rewrite thompson_from_postfix_eq. split.
  - destruct (thompson_loop (σ0, []) post) as [[σ1 stack]|e]; [|done].
    destruct stack as [|frag [|g stack]]; try done.
    destruct (dfs (S (size (all_states σ1))) σ1 (frag_start frag) ∅)
      as [V|] eqn:Hdfs; [|done].
    intros [= <- <-]. by exists frag.
  - intros (frag & -> & Hs & Ha & ->). destruct nfa; cbn in *. by subst.
Qed.

(** The builder fails by stack underflow or with a final stack that is not
    a single fragment; the traversal never runs out of fuel. *)
Lemma thompson_from_postfix_Raise σ0 post e :
  thompson_from_postfix σ0 post = Raise e →
  e = IndexError_pop_from_empty_list ∨ e = RuntimeError_ER_invalida.
Proof.
  rewrite thompson_from_postfix_eq.
  destruct (thompson_loop (σ0, []) post) as [[σ1 stack]|e'] eqn:Hloop.
  - destruct stack as [|frag [|g stack]].
    + intros [= <-]. by right.
    + destruct (dfs_reachable σ1 (frag_start frag)) as (V & -> & _). done.
    + intros [= <-]. by right.
  - intros [= <-]. left. by eapply thompson_loop_Raise.
Qed.

Lemma thompson_from_postfix_invalid σ0 post σ stack :
  thompson_loop (σ0, []) post = Ok (σ, stack) →
  length stack ≠ 1 →
  thompson_from_postfix σ0 post = Raise RuntimeError_ER_invalida.
Proof.
  intros Hloop Hlen. rewrite thompson_from_postfix_eq, Hloop.
  by destruct stack as [|frag [|g stack]].
Qed.

Lemma compile_regex_to_nfa_eq regex :
  compile_regex_to_nfa regex
  = match to_postfix (add_concat (remove_spaces regex)) with
    | Ok post => thompson_from_postfix (Store 0 ∅) post
    | Raise e => Raise e
    end.
Proof. reflexivity. Qed.

Lemma compile_regex_to_nfa_Ok regex σ nfa :
  compile_regex_to_nfa regex = Ok (σ, nfa) ↔
  ∃ post,
    to_postfix (add_concat (remove_spaces regex)) = Ok post
    ∧ thompson_from_postfix (Store 0 ∅) post = Ok (σ, nfa).
Proof.
  rewrite compile_regex_to_nfa_eq.
  destruct (to_postfix (add_concat (remove_spaces regex))) as [post|e]; cbv beta iota.
  - split; [intros H; by exists post|]. by intros (post' & [= <-] & ?).
  - split; [done|]. by intros (post' & ? & ?).
Qed.

Lemma compile_regex_to_nfa_Raise regex e :
  compile_regex_to_nfa regex = Raise e ↔
  to_postfix (add_concat (remove_spaces regex)) = Raise e
  ∨ ∃ post,
      to_postfix (add_concat (remove_spaces regex)) = Ok post
      ∧ thompson_from_postfix (Store 0 ∅) post = Raise e.
Proof.
  rewrite compile_regex_to_nfa_eq.
  destruct (to_postfix (add_concat (remove_spaces regex))) as [post|e']; cbv beta iota.
  - split; [intros H; right; by exists post|]. intros [?|(post' & [= <-] & ?)]; done.
  - split; [intros [= ->]; by left|]. intros [[= ->]|(post' & ? & ?)]; done.
Qed.

(** Every outcome of [compile_regex_to_nfa]. *)
Lemma compile_regex_to_nfa_outcomes regex :
  (∃ σ nfa, compile_regex_to_nfa regex = Ok (σ, nfa))
  ∨ compile_regex_to_nfa regex = Raise ValueError_parentesis_desbalanceados
  ∨ compile_regex_to_nfa regex = Raise ValueError_parentesis_desbalanceados_al_final
  ∨ compile_regex_to_nfa regex = Raise IndexError_pop_from_empty_list
  ∨ compile_regex_to_nfa regex = Raise RuntimeError_ER_invalida.
Proof.
  destruct (compile_regex_to_nfa regex) as [[σ nfa]|e] eqn:Hc; [left; eauto|right].
  apply compile_regex_to_nfa_Raise in Hc as [Hp|(post & _ & Ht)].
  - apply to_postfix_Raise in Hp as [[Heq _]|[Heq _]]; subst e; auto.
  - apply thompson_from_postfix_Raise in Ht as [Heq|Heq]; subst e; auto.
Qed.

(** The epsilon successors of a state allocated after [σ] are those the
    last step gave it, and those of a fragment's exit likewise. *)
Lemma edges_get_fresh σ u sym : store_ok σ → _id σ < u → edges_get σ u sym = ∅.
Proof.
  intros [_ Hedge] Hlt. apply set_eq. intros x. split; [|set_solver].
  intros Hx. apply (Hedge u sym x) in Hx. lia.
Qed.

Lemma edges_get_exit σ f sym : frag_ok σ f → edges_get σ (frag_accept f) sym = ∅.
Proof.
  intros (_ & _ & Hnone & _). apply set_eq. intros x. split; [|set_solver].
  intros Hx. by apply Hnone in Hx.
Qed.

Lemma thompson_step_edges_get σ stack tok σ' stack' u sym :
  store_ok σ →
  thompson_step (σ, stack) tok = Ok (σ', stack') →
  edges_get σ' u sym
  = edges_get σ u sym
    ∪ list_to_set ((λ e, e.2) <$> filter (λ e, e.1 = (u, sym)) (new_edges tok σ stack)).
Proof.
  intros Hok Hstep. apply set_eq. intros x.
  change (x ∈ edges_get σ' u sym) with (edge σ' u sym x).
  rewrite (thompson_step_edges _ _ _ _ _ Hok Hstep).
  rewrite elem_of_union, elem_of_list_to_set, list_elem_of_fmap.
  apply or_iff_compat_l. split.
  - intros Hin. exists (u, sym, x). split; [done|].
    apply list_elem_of_filter. done.
  - intros ([[u' sym'] x'] & -> & Hin). apply list_elem_of_filter in Hin as [Heq Hin].
    cbn in Heq. by injection Heq as -> ->.
Qed.

(** [nfa_accepts] on the empty word. *)
Lemma nfa_accepts_nil σ (nfa : NFA) :
  ∃ closure,
    epsilon_closure σ {[nfa_start nfa]} = Ok closure
    ∧ (∀ q, q ∈ closure ↔ in_eps_closure σ {[nfa_start nfa]} q)
    ∧ nfa_accepts σ nfa [] = Ok (bool_decide (nfa_accept nfa ∈ closure))
    ∧ (nfa_accepts σ nfa [] = Ok true
       ↔ in_eps_closure σ {[nfa_start nfa]} (nfa_accept nfa)).
Proof.
  destruct (epsilon_closure_spec σ {[nfa_start nfa]}) as (C & Hrun & HC).
  exists C. unfold nfa_accepts. rewrite Hrun, bind_Ok. cbn [nfa_accepts_loop].
  rewrite bind_Ok. split_and!; [done|done|done|].
  rewrite <- HC. split.
  - intros [= H]. by apply bool_decide_eq_true in H.
  - intros H. by rewrite bool_decide_eq_true_2.
Qed.

(** From the empty set the simulator stays in the empty set. *)
Lemma nfa_accepts_loop_nobreak_empty σ (w : list char) :
  nfa_accepts_loop_nobreak σ ∅ w = Ok ∅.
Proof.
  induction w as [|ch w IH]; [done|].
  cbn [nfa_accepts_loop_nobreak]. by rewrite move_empty, epsilon_closure_empty, bind_Ok.
Qed.

Lemma nfa_accepts_loop_nobreak_eq σ (current : gset State) (w : list char) :
  nfa_accepts_loop σ current w = nfa_accepts_loop_nobreak σ current w.
Proof.
  revert current. induction w as [|ch w IH]; intros current; [done|].
  cbn [nfa_accepts_loop nfa_accepts_loop_nobreak].
  destruct (epsilon_closure σ (move σ current ch)) as [C|e]; [|done].
  rewrite !bind_Ok. case_decide as HC.
  - subst C. by rewrite nfa_accepts_loop_nobreak_empty.
  - apply IH.
Qed.

(** The simulator never runs out of fuel: it returns a boolean on every
    heap, automaton and word. *)
Lemma nfa_accepts_loop_total σ (current : gset State) (w : list char) :
  ∃ C, nfa_accepts_loop σ current w = Ok C.
Proof.
  revert current. induction w as [|ch w IH]; intros current; [by eexists|].
  cbn [nfa_accepts_loop].
  destruct (epsilon_closure_spec σ (move σ current ch)) as (C & -> & _).
  rewrite bind_Ok. case_decide; [by eexists|apply IH].
Qed.

Lemma nfa_accepts_total σ (nfa : NFA) (w : list char) :
  ∃ r : bool, nfa_accepts σ nfa w = Ok r.
Proof.
  unfold nfa_accepts.
  destruct (epsilon_closure_spec σ {[nfa_start nfa]}) as (C & -> & _).
  rewrite bind_Ok. destruct (nfa_accepts_loop_total σ C w) as (C' & ->).
  rewrite bind_Ok. by eexists.
Qed.

(** A postfix sequence that ends with the star operator builds an
    automaton that accepts the empty word. *)
Lemma star_postfix_accepts_empty (regex post : list char) σ (nfa : NFA) :
  to_postfix (add_concat (remove_spaces regex)) = Ok (post ++ [STAR]) →
  compile_regex_to_nfa regex = Ok (σ, nfa) →
  nfa_accepts σ nfa [] = Ok true.
Proof.
  intros Hpost Hc. apply compile_regex_to_nfa_Ok in Hc as (post' & Hpost' & Hb).
  rewrite Hpost in Hpost'. injection Hpost' as <-.
  apply thompson_from_postfix_Ok in Hb as (frag & Hloop & Hs & Ha & _).
  rewrite thompson_loop_app in Hloop.
  destruct (thompson_loop (Store 0 ∅, []) post) as [[σ1 stack1]|] eqn:Hpre; [|done].
  rewrite bind_Ok in Hloop. cbn [thompson_loop] in Hloop.
  destruct stack1 as [|a below]; [done|].
  rewrite thompson_step_STAR in Hloop. cbn zeta in Hloop. rewrite bind_Ok in Hloop.
  injection Hloop as Hσ <- ->.
  destruct (nfa_accepts_nil σ nfa) as (C & _ & HC & Hacc & _).
  rewrite Hacc, bool_decide_eq_true_2; [done|].
  apply HC. exists (nfa_start nfa). split; [set_solver|].
  apply rtc_once. rewrite Hs, Ha. cbn [frag_start frag_accept].
  unfold eps_step. rewrite <- Hσ, !edge_add_edge. auto 10.
Qed.

End builder_facts.

(** ** Fragments that can be crossed on epsilon transitions alone *)

Section skip_facts.

Implicit Types (σ : store) (f : Fragment).






End skip_facts.

(** * The scenarios of the specification, evaluated *)

Section scenarios.

Local Abbreviation run := compile_then_accepts.
Local Abbreviation a := (97%N : char).
Local Abbreviation b := (98%N : char).

Example scenario_a :
  run [a] [a] = Ok true ∧ run [a] [] = Ok false ∧ run [a] [a; a] = Ok false.
Proof. by vm_compute. Qed.

Example scenario_a_star :
  run [a; STAR] [] = Ok true ∧ run [a; STAR] [a; a; a; a] = Ok true
  ∧ run [a; STAR] [b] = Ok false.
Proof. by vm_compute. Qed.

Example scenario_alternation :
  run [a; BAR; b] [a] = Ok true ∧ run [a; BAR; b] [b] = Ok true
  ∧ run [a; BAR; b] [a; b] = Ok false.
Proof. by vm_compute. Qed.

Example scenario_plus :
  run [LPAREN; a; BAR; b; RPAREN; PLUS] [a; b] = Ok true
  ∧ run [LPAREN; a; BAR; b; RPAREN; PLUS] [b; a] = Ok true
  ∧ run [LPAREN; a; BAR; b; RPAREN; PLUS] [a] = Ok true
  ∧ run [LPAREN; a; BAR; b; RPAREN; PLUS] [] = Ok false.
Proof. by vm_compute. Qed.

Example scenario_optional :
  run [a; QMARK; b] [b] = Ok true ∧ run [a; QMARK; b] [a; b] = Ok true
  ∧ run [a; QMARK; b] [a; a; b] = Ok false.
Proof. by vm_compute. Qed.

(** The operand of star is the last primary only: the regex "ab*" stars
    "b" alone and rejects the empty word, while the regex "(ab)*" accepts
    it. *)
Example scenario_star_operand :
  run [a; b; STAR] [] = Ok false
  ∧ run [LPAREN; a; b; RPAREN; STAR] [] = Ok true
  ∧ to_postfix (add_concat [a; b; STAR]) = Ok [a; b; STAR; DOT]
  ∧ to_postfix (add_concat [LPAREN; a; b; RPAREN; STAR]) = Ok [a; b; DOT; STAR].
Proof. by vm_compute. Qed.

(** Whitespace is dropped; the empty-string marker is expanded like a
    literal symbol. *)
Example scenario_tokens :
  remove_spaces [a; 32%N; 9%N; b] = [a; b]
  ∧ add_concat [EPS; a] = [EPS; DOT; a]
  ∧ add_concat [a; STAR; b] = [a; STAR; DOT; b]
  ∧ add_concat [a; LPAREN; b; BAR; a; RPAREN] = [a; DOT; LPAREN; b; BAR; a; RPAREN].
Proof. by vm_compute. Qed.

Example scenario_errors :
  compile_regex_to_nfa [LPAREN; a] = Raise ValueError_parentesis_desbalanceados_al_final
  ∧ compile_regex_to_nfa [a; BAR] = Raise IndexError_pop_from_empty_list
  ∧ compile_regex_to_nfa [LPAREN; RPAREN] = Raise RuntimeError_ER_invalida
  ∧ thompson_from_postfix (Store 0 ∅) [a; b] = Raise RuntimeError_ER_invalida.
Proof. by vm_compute. Qed.

End scenarios.

(** * The properties of the specification *)

(** C1. Whenever the builder, started on a fresh heap, has processed a
    prefix of a postfix sequence and meets a unary operator token, it
    pops exactly the top fragment [a] and pushes the fragment of two
    fresh states [s] (entry) and [t] (exit).  For star, the epsilon
    successors of [s] are the operand's entry and [t], and those of the
    operand's exit are the operand's entry and [t]; for plus, [s] goes to
    the operand's entry only (no edge from [s] to [t]); for optional, the
    operand's exit goes to [t] only (no edge back to the operand's
    entry).  No other transition changes.  On an empty stack the pop
    raises [IndexError]. *)
Theorem unary_operator_fragment (n : nat) (pre : list char) (op : char)
    (σ : store) (stack : list Fragment) :
  thompson_loop (Store n ∅, []) pre = Ok (σ, stack) →
  op ∈ [STAR; PLUS; QMARK] →
  match stack with
  | [] => thompson_step (σ, stack) op = Raise IndexError_pop_from_empty_list
  | a :: below =>
      let s := S (_id σ) in
      let t := S (S (_id σ)) in
      ∃ σ',
        thompson_step (σ, stack) op = Ok (σ', mkFragment s t :: below)
        ∧ (s ∉ dom (heap σ)) ∧ (t ∉ dom (heap σ)) ∧ s ≠ t
        ∧ s ∈ dom (heap σ') ∧ t ∈ dom (heap σ')
        ∧ edges_get σ' s EPS = entry_targets op (frag_start a) t
        ∧ edges_get σ' (frag_accept a) EPS = exit_targets op (frag_start a) t
        ∧ (op = PLUS → t ∉ edges_get σ' s EPS)
        ∧ (op = QMARK → frag_start a ∉ edges_get σ' (frag_accept a) EPS)
        ∧ (∀ u sym, ¬ (sym = EPS ∧ (u = s ∨ u = frag_accept a)) →
             edges_get σ' u sym = edges_get σ u sym)
  end.
Proof.
  intros Hloop Hop.
  assert (cfg_inv σ stack) as Hinv.
  { eapply thompson_loop_inv; [apply (cfg_inv_init n)|exact Hloop]. }
  destruct stack as [|a below].
  { rewrite !elem_of_cons, elem_of_nil in Hop. by destruct_or!; subst. }
  destruct Hinv as (Hok & Hfrags & _).
  apply Forall_cons in Hfrags as [(Has & Haa & Han & _) _].
  pose proof Hok as [Hdom Hedge].
  intros s t.
  assert (∃ σ', thompson_step (σ, a :: below) op = Ok (σ', mkFragment s t :: below)
                ∧ s ∈ dom (heap σ') ∧ t ∈ dom (heap σ')) as (σ' & Hstep & Hs' & Ht').
  { rewrite !elem_of_cons, elem_of_nil in Hop. destruct_or!; try done; subst op.
    - rewrite thompson_step_STAR. eexists. split; [reflexivity|].
      rewrite !dom_add_edge, !dom_alloc2. subst s t. split; auto 10.
    - rewrite thompson_step_PLUS. eexists. split; [reflexivity|].
      rewrite !dom_add_edge, !dom_alloc2. subst s t. split; auto 10.
    - rewrite thompson_step_QMARK. eexists. split; [reflexivity|].
      rewrite !dom_add_edge, !dom_alloc2. subst s t. split; auto 10. }
  pose proof (thompson_step_edges _ _ _ _ _ Hok Hstep) as Hedges.
  assert (∀ x sym, ¬ edge σ s sym x) as Hns.
  { intros x sym H. apply Hedge in H. subst s. lia. }
  assert (∀ x, x ∈ edges_get σ' s EPS ↔ x ∈ entry_targets op (frag_start a) t) as Hentry.
  { clear Hstep Hs' Ht'.
    intros x. change (x ∈ edges_get σ' s EPS) with (edge σ' s EPS x).
    rewrite Hedges. unfold new_edges, entry_targets. fold s t.
    rewrite !elem_of_cons, elem_of_nil in Hop.
    destruct_or!; try done; subst op;
      repeat (case_decide; try done); cbv beta iota zeta;
      set_unfold;
      split; intros Hx; destruct_or?; simplify_eq;
      solve [by apply Hns in Hx | try subst s; try subst t; first [lia|auto 10]]. }
  assert (∀ x, x ∈ edges_get σ' (frag_accept a) EPS
               ↔ x ∈ exit_targets op (frag_start a) t) as Hexit.
  { clear Hstep Hs' Ht'.
    intros x. change (x ∈ edges_get σ' (frag_accept a) EPS)
      with (edge σ' (frag_accept a) EPS x).
    rewrite Hedges. unfold new_edges, exit_targets. fold s t.
    rewrite !elem_of_cons, elem_of_nil in Hop.
    destruct_or!; try done; subst op;
      repeat (case_decide; try done); cbv beta iota zeta;
      set_unfold;
      split; intros Hx; destruct_or?; simplify_eq;
      solve [by apply Han in Hx | try subst s; try subst t; first [lia|auto 10]]. }
  exists σ'. split_and!.
  - exact Hstep.
  - intros H. apply Hdom in H. subst s. lia.
  - intros H. apply Hdom in H. subst t. lia.
  - subst s t. lia.
  - exact Hs'.
  - exact Ht'.
  - apply set_eq, Hentry.
  - apply set_eq, Hexit.
  - intros ->. rewrite Hentry. unfold entry_targets.
    rewrite decide_True by done. subst t. set_unfold. lia.
  - intros ->. rewrite Hexit. unfold exit_targets.
    rewrite decide_True by done. subst t. set_unfold. lia.
  - intros u sym Hother. apply set_eq. intros x.
    change (x ∈ edges_get σ' u sym ↔ x ∈ edges_get σ u sym)
      with (edge σ' u sym x ↔ edge σ u sym x).
    rewrite Hedges. unfold new_edges. fold s t.
    rewrite !elem_of_cons, elem_of_nil in Hop.
    destruct_or!; try done; subst op;
      repeat (case_decide; try done); cbv beta iota zeta;
      set_unfold;
      split; intros Hx; destruct_or?; simplify_eq; auto;
      exfalso; apply Hother; auto.
Qed.

Lemma unary_operator_fragment_witness :
  thompson_loop (Store 0 ∅, []) [97%N] = Ok (store_a, [mkFragment 1 2])
  ∧ ∃ σ',
      thompson_step (store_a, [mkFragment 1 2]) STAR = Ok (σ', [mkFragment 3 4])
      ∧ edges_get σ' 3 EPS = {[1; 4]}
      ∧ edges_get σ' 2 EPS = {[1; 4]}.
Proof.
  assert (thompson_loop (Store 0 ∅, []) [97%N] = Ok (store_a, [mkFragment 1 2]))
    as Hloop by (vm_compute; reflexivity).
  assert (STAR ∈ [STAR; PLUS; QMARK]) as Hop by (apply list_elem_of_here).
  split; [exact Hloop|].
  destruct (unary_operator_fragment 0 [97%N] STAR store_a [mkFragment 1 2] Hloop Hop)
    as (σ' & Hstep & _ & _ & _ & _ & _ & Hentry & Hexit & _).
  exists σ'. split_and!; [exact Hstep|exact Hentry|exact Hexit].
Defined.

(** C2. When [compile_regex_to_nfa] succeeds, the state set of the
    automaton is exactly the set of states reachable from the start state
    over transitions of any label, and the accept state belongs to it:
    the accept state is reachable from the start state. *)
Theorem compile_states_are_reachable (regex : list char) (σ : store) (nfa : NFA) :
  compile_regex_to_nfa regex = Ok (σ, nfa) →
  (∀ q, q ∈ nfa_states nfa ↔ reachable σ (nfa_start nfa) q)
  ∧ nfa_accept nfa ∈ nfa_states nfa
  ∧ reachable σ (nfa_start nfa) (nfa_accept nfa).
Proof.
  intros Hc. apply compile_regex_to_nfa_Ok in Hc as (post & _ & Hb).
  apply thompson_from_postfix_Ok in Hb as (frag & Hloop & Hs & Ha & Hdfs).
  destruct (dfs_reachable σ (frag_start frag)) as (V & HV & Hreach).
  rewrite HV in Hdfs. injection Hdfs as HVeq.
  assert (cfg_inv σ [frag]) as (_ & Hfrags & _).
  { eapply thompson_loop_inv; [apply (cfg_inv_init 0)|exact Hloop]. }
  apply Forall_cons in Hfrags as [(_ & _ & _ & Hpath) _].
  rewrite Hs, Ha, <- HVeq. split_and!; [done| |done].
  by apply Hreach.
Qed.

Lemma compile_states_are_reachable_witness :
  compile_regex_to_nfa [97; 42]%N = Ok (store_a_star, nfa_a_star)
  ∧ (∀ q, q ∈ nfa_states nfa_a_star
          ↔ reachable store_a_star (nfa_start nfa_a_star) q)
  ∧ nfa_accept nfa_a_star ∈ nfa_states nfa_a_star
  ∧ reachable store_a_star (nfa_start nfa_a_star) (nfa_accept nfa_a_star).
Proof.
  assert (compile_regex_to_nfa [97; 42]%N = Ok (store_a_star, nfa_a_star))
    as Hc by (vm_compute; reflexivity).
  split; [exact Hc|].
  exact (compile_states_are_reachable [97; 42]%N store_a_star nfa_a_star Hc).
Defined.

(** C3. On the empty word [nfa_accepts] returns, and returns [true]
    exactly when the accept state belongs to the epsilon-closure of the
    singleton of the start state: [epsilon_closure] returns that closure
    and the answer is membership of the accept state in it.  This holds
    for every automaton, in particular for those [compile_regex_to_nfa]
    returns. *)
Theorem accepts_empty_word_iff_closure (σ : store) (nfa : NFA) :
  ∃ closure,
    epsilon_closure σ {[nfa_start nfa]} = Ok closure
    ∧ (∀ q, q ∈ closure ↔ in_eps_closure σ {[nfa_start nfa]} q)
    ∧ nfa_accepts σ nfa [] = Ok (bool_decide (nfa_accept nfa ∈ closure))
    ∧ (nfa_accepts σ nfa [] = Ok true
       ↔ in_eps_closure σ {[nfa_start nfa]} (nfa_accept nfa)).
Proof. apply nfa_accepts_nil. Qed.




(** C5. The precedence table is alternation 1, concatenation 2, and 3 for
    star, plus and optional.  On reading an operator [ch] the converter
    pops from the operator stack the longest run [popped] of tops that
    are not an opening parenthesis and have strictly greater precedence,
    or equal precedence when [ch] is alternation or concatenation
    ([must_pop]); it stops at the first top [rest] that is an opening
    parenthesis or fails that test, and pushes [ch].  When [ch] is star,
    plus or optional, a top of equal precedence is not popped. *)
Theorem operator_precedence_and_popping (ch : char) (out stack : list char) :
  is_Some (PRECEDENCE !! ch) →
  (PRECEDENCE !! BAR = Some 1 ∧ PRECEDENCE !! DOT = Some 2
   ∧ PRECEDENCE !! STAR = Some 3 ∧ PRECEDENCE !! PLUS = Some 3
   ∧ PRECEDENCE !! QMARK = Some 3)
  ∧ (∃ popped rest,
       stack = popped ++ rest
       ∧ to_postfix_step (out, stack) ch = Ok (out ++ popped, ch :: rest)
       ∧ Forall (λ top, top ≠ LPAREN ∧ must_pop top ch) popped
       ∧ (match rest with
          | [] => True
          | top :: _ => top = LPAREN ∨ ¬ must_pop top ch
          end))
  ∧ (ch ∈ [STAR; PLUS; QMARK] →
     ∀ top, PRECEDENCE !! top = PRECEDENCE !! ch →
       to_postfix_step (out, top :: stack) ch = Ok (out, ch :: top :: stack)).
Proof.
  intros Hop. split_and!; try reflexivity.
  - destruct (pop_ops_split ch out stack) as (popped & rest & Hsplit & Hpop & Hall & Hrest).
    exists popped, rest. split_and!; [done| |done|done].
    rewrite (to_postfix_step_operator ch out stack Hop), Hpop. done.
  - intros Hunary top Hprec.
    rewrite (to_postfix_step_operator ch out (top :: stack) Hop).
    cbn [pop_ops]. case_bool_decide; [done|].
    assert (pops top ch = false) as ->; [|done].
    destruct (pops top ch) eqn:Hpops; [|done].
    apply pops_spec in Hpops as (pt & pc & Ht & Hc & Hcase).
    rewrite Hprec, Hc in Ht. injection Ht as ->.
    destruct Hcase as [?|[_ Hleft]]; [lia|].
    unfold left_assoc in Hleft. set_unfold.
    unfold BAR, DOT, STAR, PLUS, QMARK in *. destruct_or!; subst; done.
Qed.

Lemma operator_precedence_and_popping_witness :
  is_Some (PRECEDENCE !! DOT)
  ∧ ∃ popped rest,
      [STAR; BAR] = popped ++ rest
      ∧ to_postfix_step ([97; 98]%N, [STAR; BAR]) DOT
        = Ok ([97; 98]%N ++ popped, DOT :: rest)
      ∧ Forall (λ top, top ≠ LPAREN ∧ must_pop top DOT) popped
      ∧ (match rest with
         | [] => True
         | top :: _ => top = LPAREN ∨ ¬ must_pop top DOT
         end).
Proof.
  assert (is_Some (PRECEDENCE !! DOT)) as Hdot by (exists 2; reflexivity).
  split; [exact Hdot|].
  exact (proj1 (proj2 (operator_precedence_and_popping
                         DOT [97; 98]%N [STAR; BAR] Hdot))).
Defined.

(** C7. [compile_regex_to_nfa] fails with unbalanced parentheses exactly
    when the scan of the expanded regex reads a closing parenthesis while
    the operator stack holds no opening parenthesis, or finishes with an
    opening parenthesis still on the stack.  The regex [")a("] fails so. *)
Theorem unbalanced_parentheses_exactly :
  (∀ regex : list char,
     (∃ e, compile_regex_to_nfa regex = Raise e ∧ UnbalancedParentheses e)
     ↔ ((∃ pre post out stack,
           add_concat (remove_spaces regex) = pre ++ RPAREN :: post
           ∧ to_postfix_scan ([], []) pre = Ok (out, stack)
           ∧ LPAREN ∉ stack)
        ∨ (∃ out stack,
             to_postfix_scan ([], []) (add_concat (remove_spaces regex))
             = Ok (out, stack)
             ∧ LPAREN ∈ stack)))
  ∧ compile_regex_to_nfa [RPAREN; 97%N; LPAREN]
    = Raise ValueError_parentesis_desbalanceados
  ∧ UnbalancedParentheses ValueError_parentesis_desbalanceados.
Proof.
  split_and!; [|vm_compute; reflexivity|by left].
  intros regex. split.
  - intros (e & Hc & He).
    apply compile_regex_to_nfa_Raise in Hc as [Hp|(post & _ & Hb)].
    + apply to_postfix_Raise in Hp as [[_ H]|[_ H]]; [by left|by right].
    + apply thompson_from_postfix_Raise in Hb.
      unfold UnbalancedParentheses in He. destruct_or!; congruence.
  - intros [H|H].
    + exists ValueError_parentesis_desbalanceados. split; [|by left].
      apply compile_regex_to_nfa_Raise. left. apply to_postfix_Raise. by left.
    + exists ValueError_parentesis_desbalanceados_al_final. split; [|by right].
      apply compile_regex_to_nfa_Raise. left. apply to_postfix_Raise. by right.
Qed.

(** C8. When the loop of the builder finishes with a fragment stack whose
    length is not one, [compile_regex_to_nfa] raises the invalid-regex
    error and returns no automaton; the empty regex is such a case, its
    final stack being empty. *)
Theorem invalid_construction_when_stack_not_singleton
    (regex post : list char) (σ : store) (stack : list Fragment) :
  to_postfix (add_concat (remove_spaces regex)) = Ok post →
  thompson_loop (Store 0 ∅, []) post = Ok (σ, stack) →
  length stack ≠ 1 →
  compile_regex_to_nfa regex = Raise RuntimeError_ER_invalida
  ∧ InvalidConstruction RuntimeError_ER_invalida.
Proof.
  intros Hpost Hloop Hlen. split; [|done].
  rewrite compile_regex_to_nfa_eq, Hpost.
  by eapply thompson_from_postfix_invalid.
Qed.

Lemma invalid_construction_when_stack_not_singleton_witness :
  to_postfix (add_concat (remove_spaces [])) = Ok []
  ∧ thompson_loop (Store 0 ∅, []) [] = Ok (Store 0 ∅, [])
  ∧ length ([] : list Fragment) ≠ 1
  ∧ compile_regex_to_nfa [] = Raise RuntimeError_ER_invalida.
Proof.
  assert (to_postfix (add_concat (remove_spaces [])) = Ok []) as Hpost
    by reflexivity.
  assert (thompson_loop (Store 0 ∅, []) [] = Ok (Store 0 ∅, [])) as Hloop
    by reflexivity.
  assert (length ([] : list Fragment) ≠ 1) as Hlen by (cbn; lia).
  split_and!; [exact Hpost|exact Hloop|exact Hlen|].
  exact (proj1 (invalid_construction_when_stack_not_singleton
                  [] [] (Store 0 ∅) [] Hpost Hloop Hlen)).
Defined.

(** C9. The early exit of the simulator is a pure optimisation: for every
    automaton and every word, [nfa_accepts], which leaves the loop when
    the current set becomes empty, returns what the simulator that
    processes every symbol returns. *)
Theorem early_exit_is_an_optimisation (σ : store) (nfa : NFA) (w : list char) :
  nfa_accepts σ nfa w = nfa_accepts_nobreak σ nfa w.
Proof.
  unfold nfa_accepts, nfa_accepts_nobreak.
  destruct (epsilon_closure σ {[nfa_start nfa]}) as [current|e]; [|done].
  by rewrite !bind_Ok, nfa_accepts_loop_nobreak_eq.
Qed.

(** C10. [compile_regex_to_nfa] never raises the unsupported-symbol
    error: it returns an automaton or raises one of the four other
    errors.  Every character that is not one of the seven operator
    characters is a literal symbol for [is_symbol], the empty-string
    marker included, and no iteration of the scan reaches the
    unsupported-symbol branch: it succeeds or reports unbalanced
    parentheses. *)
Theorem unsupported_symbol_is_unreachable :
  (∀ regex : list char,
     (∃ σ nfa, compile_regex_to_nfa regex = Ok (σ, nfa))
     ∨ compile_regex_to_nfa regex = Raise ValueError_parentesis_desbalanceados
     ∨ compile_regex_to_nfa regex
       = Raise ValueError_parentesis_desbalanceados_al_final
     ∨ compile_regex_to_nfa regex = Raise IndexError_pop_from_empty_list
     ∨ compile_regex_to_nfa regex = Raise RuntimeError_ER_invalida)
  ∧ (∀ ch : char,
       is_symbol ch = true
       ∨ ch ∈ [BAR; STAR; PLUS; QMARK; LPAREN; RPAREN; DOT])
  ∧ is_symbol EPS = true
  ∧ (∀ (out stack : list char) (ch : char),
       (∃ st, to_postfix_step (out, stack) ch = Ok st)
       ∨ to_postfix_step (out, stack) ch
         = Raise ValueError_parentesis_desbalanceados).
Proof.
  split_and!.
  - apply compile_regex_to_nfa_outcomes.
  - apply is_symbol_or_operator.
  - reflexivity.
  - intros out stack ch.
    destruct (to_postfix_step (out, stack) ch) as [st|e] eqn:Hstep; [eauto|right].
    by apply to_postfix_step_Raise in Hstep as (_ & _ & ->).
Qed.

(** * Further properties of the code *)

(** ** Tokenisation and expansion *)

Section more_tokens.

Lemma remove_spaces_app s1 s2 :
  remove_spaces (s1 ++ s2) = remove_spaces s1 ++ remove_spaces s2.
Proof. apply filter_app. Qed.

Lemma remove_spaces_all_space ws :
  Forall (λ ch, isspace ch = true) ws → remove_spaces ws = [].
Proof.
  induction 1 as [|ch ws Hch _ IH]; [done|].
  unfold remove_spaces in *. rewrite filter_cons_False; [done|]. congruence.
Qed.

Lemma gap_DOT_l b : gap DOT b = [].
Proof.
  unfold gap. rewrite decide_False; [done|].
  intros [Ha _]. unfold literal in Ha.
  destruct Ha as [Ha|Ha]; [by vm_compute in Ha|].
  unfold DOT, RPAREN, STAR, PLUS, QMARK in Ha. destruct_or!; done.
Qed.

Lemma gap_DOT_r a : gap a DOT = [].
Proof.
  unfold gap. rewrite decide_False; [done|].
  intros [_ Hb]. unfold literal in Hb.
  destruct Hb as [Hb|Hb]; [by vm_compute in Hb|].
  unfold DOT, LPAREN, EPS in Hb. destruct_or!; done.
Qed.

Lemma gap_cases a b : gap a b = [] ∨ gap a b = [DOT].
Proof. unfold gap. case_decide; auto. Qed.

Lemma add_concat_idem exp : add_concat (add_concat exp) = add_concat exp.
Proof.
  induction exp as [|a [|b rest] IH]; [done..|].
  rewrite add_concat_cons.
  pose proof (add_concat_head (b :: rest)) as Hhead.
  destruct (add_concat (b :: rest)) as [|c l]; [done|].
  injection Hhead as ->.
  destruct (gap_cases a b) as [Hg|Hg]; rewrite Hg; cbn [app].
  - by rewrite add_concat_cons, Hg, IH.
  - rewrite (add_concat_cons a DOT), gap_DOT_r. cbn [app].
    rewrite (add_concat_cons DOT b), gap_DOT_l. cbn [app].
    by rewrite IH.
Qed.

Lemma add_concat_sublist exp : exp `sublist_of` add_concat exp.
Proof.
  induction exp as [|a [|b rest] IH]; [done..|].
  rewrite add_concat_cons. apply sublist_skip.
  destruct (gap_cases a b) as [->| ->]; cbn [app]; [done|].
  by apply sublist_cons.
Qed.

Lemma add_concat_length exp : length (add_concat exp) ≤ 2 * length exp - 1.
Proof.
  induction exp as [|a [|b rest] IH].
  - rewrite add_concat_nil. cbn. lia.
  - rewrite add_concat_singleton. cbn. lia.
  - rewrite add_concat_cons. cbn [length] in *. rewrite length_app.
    destruct (gap_cases a b) as [->| ->]; cbn [length]; lia.
Qed.

End more_tokens.

(** X1. Whitespace is ignored wherever it stands: a run of whitespace
    characters inserted anywhere in a regex does not change what
    [compile_regex_to_nfa] returns or raises. *)
Theorem compile_ignores_whitespace (s1 ws s2 : list char) :
  Forall (λ ch, isspace ch = true) ws →
  compile_regex_to_nfa (s1 ++ ws ++ s2) = compile_regex_to_nfa (s1 ++ s2).
Proof.
  intros Hws. unfold compile_regex_to_nfa.
  by rewrite !remove_spaces_app, (remove_spaces_all_space ws Hws).
Qed.

Lemma compile_ignores_whitespace_witness :
  Forall (λ ch, isspace ch = true) [32; 9]%N
  ∧ compile_regex_to_nfa ([97%N] ++ [32; 9]%N ++ [BAR; 98%N])
    = compile_regex_to_nfa ([97%N] ++ [BAR; 98%N]).
Proof.
  assert (Forall (λ ch, isspace ch = true) [32; 9]%N) as Hws
    by (repeat constructor).
  split; [exact Hws|].
  exact (compile_ignores_whitespace [97%N] [32; 9]%N [BAR; 98%N] Hws).
Defined.

(** X2. The expander is idempotent: a regex whose concatenations are
    already explicit is left unchanged, so expanding twice is expanding
    once. *)
Theorem add_concat_idempotent (exp : list char) :
  add_concat (add_concat exp) = add_concat exp.
Proof. apply add_concat_idem. Qed.

(** X3. The expander only inserts: its input is a subsequence of its
    output, and an input of [n] characters grows to at most [2 * n - 1]
    characters. *)
Theorem add_concat_only_inserts (exp : list char) :
  exp `sublist_of` add_concat exp
  ∧ length exp ≤ length (add_concat exp)
  ∧ length (add_concat exp) ≤ 2 * length exp - 1.
Proof.
  split_and!.
  - apply add_concat_sublist.
  - apply sublist_length, add_concat_sublist.
  - apply add_concat_length.
Qed.

(** ** Infix to postfix: balance, order and conservation of tokens *)

Section more_postfix.

Local Abbreviation count_open stack := (length (filter (λ x, x = LPAREN) stack)).

Lemma count_open_0 (stack : list char) : count_open stack = 0 ↔ LPAREN ∉ stack.
Proof.
  induction stack as [|x stack IH]; [cbn; set_solver|].
  destruct (decide (x = LPAREN)) as [->|Hne].
  - rewrite filter_cons_True by done. cbn. set_solver.
  - rewrite filter_cons_False by done. rewrite IH. set_solver.
Qed.

Lemma count_open_no_paren (popped rest : list char) :
  LPAREN ∉ popped → count_open (popped ++ rest) = count_open rest.
Proof.
  intros Hno. rewrite filter_app, length_app.
  apply count_open_0 in Hno. lia.
Qed.

Lemma Forall_not_LPAREN (P : char → Prop) (popped : list char) :
  Forall (λ top, top ≠ LPAREN ∧ P top) popped → LPAREN ∉ popped.
Proof. rewrite Forall_forall. intros H Hin. by destruct (H _ Hin). Qed.

(** One iteration of the scan moves the depth as [paren_depth] does. *)
Lemma to_postfix_step_depth out stack ch :
  match to_postfix_step (out, stack) ch with
  | Ok (_, stack') =>
      paren_depth (count_open stack) [ch] = Some (count_open stack')
  | Raise e =>
      paren_depth (count_open stack) [ch] = None
      ∧ e = ValueError_parentesis_desbalanceados
  end.
Proof.
  destruct (to_postfix_step (out, stack) ch) as [[out' stack']|e] eqn:Hstep.
  - unfold to_postfix_step in Hstep. cbn [paren_depth].
    case_bool_decide as Heps.
    { injection Hstep as <- <-. subst ch. by rewrite !decide_False. }
    destruct (is_symbol ch) eqn:Hsym.
    { injection Hstep as <- <-.
      rewrite !decide_False; [done|intros ->; by vm_compute in Hsym..]. }
    case_bool_decide as Hl.
    { injection Hstep as <- <-. subst ch. rewrite decide_True by done.
      by rewrite filter_cons_True. }
    case_bool_decide as Hr.
    + subst ch. rewrite decide_False, decide_True by done.
      destruct (pop_to_paren_split out stack)
        as (popped & rest & -> & Hpop & Hno & Hrest).
      rewrite Hpop in Hstep. destruct rest as [|top below]; [done|].
      injection Hstep as <- <-. subst top.
      rewrite count_open_no_paren by done. by rewrite filter_cons_True.
    + case_bool_decide as Hop; [|done].
      rewrite !decide_False by done.
      destruct (pop_ops_split ch out stack)
        as (popped & rest & -> & Hpop & Hall & _).
      rewrite Hpop in Hstep. injection Hstep as <- <-.
      rewrite count_open_no_paren
        by exact (Forall_not_LPAREN (λ top, must_pop top ch) _ Hall).
      by rewrite filter_cons_False.
  - apply to_postfix_step_Raise in Hstep as (-> & Hno & ->).
    split; [|done]. cbn [paren_depth].
    rewrite decide_False, decide_True by done.
    apply count_open_0 in Hno. by rewrite Hno.
Qed.

Lemma paren_depth_cons d ch s :
  paren_depth d (ch :: s) = paren_depth d [ch] ≫= λ d', paren_depth d' s.
Proof.
  cbn [paren_depth]. repeat case_decide; try done. by destruct d.
Qed.

Lemma to_postfix_scan_depth s out stack :
  match to_postfix_scan (out, stack) s with
  | Ok (_, stack') =>
      paren_depth (count_open stack) s = Some (count_open stack')
  | Raise e =>
      paren_depth (count_open stack) s = None
      ∧ e = ValueError_parentesis_desbalanceados
  end.
Proof.
  revert out stack. induction s as [|ch s IH]; intros out stack; [done|].
  cbn [to_postfix_scan]. rewrite paren_depth_cons.
  pose proof (to_postfix_step_depth out stack ch) as Hstep.
  destruct (to_postfix_step (out, stack) ch) as [[out' stack']|e].
  - rewrite Hstep. apply IH.
  - destruct Hstep as [-> ->]. done.
Qed.

(** The three outcomes of [to_postfix], read off the depth. *)
Lemma to_postfix_depth s :
  match paren_depth 0 s with
  | None => to_postfix s = Raise ValueError_parentesis_desbalanceados
  | Some 0 => ∃ post, to_postfix s = Ok post
  | Some (S _) =>
      to_postfix s = Raise ValueError_parentesis_desbalanceados_al_final
  end.
Proof.
  pose proof (to_postfix_scan_depth s [] []) as Hscan. unfold to_postfix.
  destruct (to_postfix_scan ([], []) s) as [[out stack]|e] eqn:Hs.
  - cbn in Hscan. rewrite Hscan. rewrite bind_Ok.
    assert (stack_ok stack) as Hok.
    { eapply (to_postfix_scan_stack_ok s [] []); [constructor|done]. }
    destruct (to_postfix_drain out stack) as [post|e] eqn:Hdrain.
    + apply to_postfix_drain_Ok in Hdrain as [_ Hno].
      apply count_open_0 in Hno. rewrite Hno. eauto.
    + apply (to_postfix_drain_Raise _ _ _ Hok) in Hdrain as [-> Hin].
      destruct (length (filter (λ x, x = LPAREN) stack)) eqn:Hc; [|done].
      apply count_open_0 in Hc. done.
  - cbn in Hscan. destruct Hscan as [-> ->]. done.
Qed.

Lemma paren_depth_app_no_paren d (l s : list char) :
  Forall not_paren l → paren_depth d (l ++ s) = paren_depth d s.
Proof.
  induction 1 as [|x l [Hx1 Hx2] _ IH]; [done|].
  cbn [app paren_depth]. by rewrite !decide_False.
Qed.

Lemma gap_not_paren a b : Forall not_paren (gap a b).
Proof.
  destruct (gap_cases a b) as [->| ->]; [constructor|].
  constructor; [|constructor]. by split.
Qed.

Lemma paren_depth_add_concat d s : paren_depth d (add_concat s) = paren_depth d s.
Proof.
  revert d. induction s as [|a [|b rest] IH]; intros d; [done..|].
  rewrite add_concat_cons.
  rewrite (paren_depth_cons d a), (paren_depth_cons d a (b :: rest)).
  destruct (paren_depth d [a]) as [d'|]; [|done]. cbn [mbind option_bind].
  rewrite paren_depth_app_no_paren by apply gap_not_paren. apply IH.
Qed.

Lemma paren_depth_remove_spaces d s :
  paren_depth d (remove_spaces s) = paren_depth d s.
Proof.
  revert d. induction s as [|ch s IH]; intros d; [done|].
  unfold remove_spaces in *. destruct (isspace ch) eqn:Hsp.
  - rewrite filter_cons_False by congruence. rewrite IH.
    cbn [paren_depth]. rewrite !decide_False; [done|intros ->; done..].
  - rewrite filter_cons_True by done.
    cbn [paren_depth]. repeat case_decide; try apply IH. by destruct d.
Qed.

(** Symbols never sit on the operator stack. *)
Lemma stack_ok_no_symbol (stack : list char) :
  stack_ok stack → filter (λ ch, is_symbol ch = true) stack = [].
Proof.
  induction 1 as [|op stack Hop _ IH]; [done|].
  rewrite filter_cons_False; [done|].
  destruct Hop as [->|Hop]; [done|].
  apply PRECEDENCE_is_Some in Hop.
  assert (is_symbol op = false) as ->; [|done].
  apply is_symbol_false. set_unfold. naive_solver.
Qed.

Lemma stack_ok_app (l1 l2 : list char) :
  stack_ok (l1 ++ l2) → stack_ok l1 ∧ stack_ok l2.
Proof. apply Forall_app. Qed.

Lemma to_postfix_step_symbols out stack ch out' stack' :
  stack_ok stack →
  to_postfix_step (out, stack) ch = Ok (out', stack') →
  filter (λ ch, is_symbol ch = true) out'
  = filter (λ ch, is_symbol ch = true) out
    ++ filter (λ ch, is_symbol ch = true) [ch].
Proof.
  intros Hok. unfold to_postfix_step.
  case_bool_decide as Heps.
  { intros [= <- <-]. subst ch. by rewrite filter_app. }
  destruct (is_symbol ch) eqn:Hsym.
  { intros [= <- <-]. by rewrite filter_app. }
  rewrite (filter_cons_False _ ch) by congruence. rewrite app_nil_r.
  case_bool_decide; [by intros [= <- <-]|].
  case_bool_decide.
  - destruct (pop_to_paren_split out stack) as (popped & rest & -> & -> & _ & _).
    destruct rest; [done|]. intros [= <- <-].
    apply stack_ok_app in Hok as [Hok _].
    by rewrite filter_app, (stack_ok_no_symbol popped Hok), app_nil_r.
  - case_bool_decide; [|done].
    destruct (pop_ops_split ch out stack) as (popped & rest & -> & -> & _ & _).
    intros [= <- <-]. apply stack_ok_app in Hok as [Hok _].
    by rewrite filter_app, (stack_ok_no_symbol popped Hok), app_nil_r.
Qed.

Lemma to_postfix_scan_symbols s out stack out' stack' :
  stack_ok stack →
  to_postfix_scan (out, stack) s = Ok (out', stack') →
  filter (λ ch, is_symbol ch = true) out'
  = filter (λ ch, is_symbol ch = true) out
    ++ filter (λ ch, is_symbol ch = true) s.
Proof.
  revert out stack. induction s as [|ch s IH]; intros out stack Hok.
  - intros [= <- <-]. by rewrite app_nil_r.
  - cbn [to_postfix_scan].
    destruct (to_postfix_step (out, stack) ch) as [[o1 s1]|] eqn:Hstep; [|done].
    rewrite bind_Ok. intros Hscan.
    rewrite (IH o1 s1); [|by eapply to_postfix_step_stack_ok|done].
    rewrite (to_postfix_step_symbols _ _ _ _ _ Hok Hstep), <- app_assoc.
    f_equal. by rewrite <- filter_app.
Qed.

Lemma to_postfix_symbols s post :
  to_postfix s = Ok post →
  filter (λ ch, is_symbol ch = true) post = filter (λ ch, is_symbol ch = true) s.
Proof.
  unfold to_postfix.
  destruct (to_postfix_scan ([], []) s) as [[out stack]|] eqn:Hscan; [|done].
  rewrite bind_Ok. intros Hdrain.
  assert (stack_ok stack) as Hok.
  { eapply (to_postfix_scan_stack_ok s [] []); [constructor|done]. }
  apply to_postfix_drain_Ok in Hdrain as [-> _].
  rewrite filter_app, (stack_ok_no_symbol stack Hok), app_nil_r.
  by rewrite (to_postfix_scan_symbols s [] [] out stack (Forall_nil_2 _) Hscan).
Qed.

(** Operators popped from the stack are not parentheses. *)
Lemma stack_ok_filter_not_paren (popped : list char) :
  stack_ok popped → LPAREN ∉ popped → filter not_paren popped = popped.
Proof.
  induction 1 as [|op stack Hop _ IH]; [done|]. intros Hno.
  rewrite filter_cons_True; [rewrite IH; [done|set_solver]|].
  destruct Hop as [->|Hop]; [set_solver|].
  apply PRECEDENCE_is_Some in Hop. split; [set_solver|].
  set_unfold. unfold RPAREN, BAR, DOT, STAR, PLUS, QMARK in *.
  destruct_or!; subst; done.
Qed.

Lemma to_postfix_step_perm out stack ch out' stack' :
  stack_ok stack →
  to_postfix_step (out, stack) ch = Ok (out', stack') →
  out' ++ filter not_paren stack'
  ≡ₚ out ++ filter not_paren stack ++ filter not_paren [ch].
Proof.
  intros Hok. unfold to_postfix_step.
  case_bool_decide as Heps.
  { intros [= <- <-]. subst ch. rewrite filter_cons_True by done.
    cbn [filter list_filter]. rewrite <- !app_assoc. f_equiv. apply Permutation_app_comm. }
  destruct (is_symbol ch) eqn:Hsym.
  { intros [= <- <-]. rewrite (filter_cons_True _ ch).
    - cbn [filter list_filter]. rewrite <- !app_assoc. f_equiv.
      apply Permutation_app_comm.
    - split; intros ->; done. }
  case_bool_decide as Hl.
  { intros [= <- <-]. subst ch.
    rewrite !(filter_cons_False _ LPAREN) by (intros []; done).
    cbn [filter list_filter]. by rewrite app_nil_r. }
  case_bool_decide as Hr.
  - subst ch. rewrite (filter_cons_False _ RPAREN) by (intros []; done).
    cbn [filter list_filter]. rewrite app_nil_r.
    destruct (pop_to_paren_split out stack) as (popped & rest & -> & -> & Hno & Hrest).
    destruct rest as [|top below]; [done|]. subst top. intros [= <- <-].
    apply stack_ok_app in Hok as [Hok _].
    rewrite filter_app, (stack_ok_filter_not_paren popped Hok Hno).
    rewrite (filter_cons_False _ LPAREN) by (intros []; done).
    by rewrite <- app_assoc.
  - case_bool_decide as Hop; [|done].
    destruct (pop_ops_split ch out stack) as (popped & rest & -> & -> & Hall & _).
    intros [= <- <-]. apply stack_ok_app in Hok as [Hok _].
    rewrite filter_app.
    rewrite (stack_ok_filter_not_paren popped Hok
               (Forall_not_LPAREN (λ top, must_pop top ch) _ Hall)).
    rewrite !(filter_cons_True _ ch) by done.
    cbn [filter list_filter]. rewrite <- !app_assoc. f_equiv. f_equiv.
    apply Permutation_cons_append.
Qed.

Lemma to_postfix_scan_perm s out stack out' stack' :
  stack_ok stack →
  to_postfix_scan (out, stack) s = Ok (out', stack') →
  out' ++ filter not_paren stack'
  ≡ₚ out ++ filter not_paren stack ++ filter not_paren s.
Proof.
  revert out stack. induction s as [|ch s IH]; intros out stack Hok.
  - intros [= <- <-]. by rewrite app_nil_r.
  - cbn [to_postfix_scan].
    destruct (to_postfix_step (out, stack) ch) as [[o1 s1]|] eqn:Hstep; [|done].
    rewrite bind_Ok. intros Hscan.
    rewrite (IH o1 s1); [|by eapply to_postfix_step_stack_ok|done].
    rewrite app_assoc, (to_postfix_step_perm _ _ _ _ _ Hok Hstep).
    rewrite <- !app_assoc. f_equiv. f_equiv.
    change (ch :: s) with ([ch] ++ s). by rewrite filter_app.
Qed.

Lemma to_postfix_perm s post :
  to_postfix s = Ok post → post ≡ₚ filter not_paren s.
Proof.
  unfold to_postfix.
  destruct (to_postfix_scan ([], []) s) as [[out stack]|] eqn:Hscan; [|done].
  rewrite bind_Ok. intros Hdrain.
  assert (stack_ok stack) as Hok.
  { eapply (to_postfix_scan_stack_ok s [] []); [constructor|done]. }
  apply to_postfix_drain_Ok in Hdrain as [-> Hno].
  rewrite <- (stack_ok_filter_not_paren stack Hok Hno) at 1.
  by rewrite (to_postfix_scan_perm s [] [] out stack (Forall_nil_2 _) Hscan).
Qed.

End more_postfix.

(** X4. Whether [compile_regex_to_nfa] reports unbalanced parentheses is
    decided by counting the parentheses of the regex as typed: if a
    closing parenthesis has no opening one before it, the first
    [ValueError] is raised; if opening parentheses are left unclosed, the
    second one; if they balance, the conversion to postfix succeeds. *)
Theorem unbalanced_by_counting (regex : list char) :
  match paren_depth 0 regex with
  | None =>
      compile_regex_to_nfa regex = Raise ValueError_parentesis_desbalanceados
  | Some 0 =>
      ∃ post, to_postfix (add_concat (remove_spaces regex)) = Ok post
  | Some (S _) =>
      compile_regex_to_nfa regex
      = Raise ValueError_parentesis_desbalanceados_al_final
  end.
Proof.
  pose proof (to_postfix_depth (add_concat (remove_spaces regex))) as H.
  rewrite paren_depth_add_concat, paren_depth_remove_spaces in H.
  rewrite compile_regex_to_nfa_eq.
  destruct (paren_depth 0 regex) as [[|d]|]; [done|by rewrite H..].
Qed.

(** X5. The conversion to postfix keeps the operands in their order: the
    literal symbols of the output are those of the input, in the same
    order. *)
Theorem to_postfix_keeps_operand_order (s post : list char) :
  to_postfix s = Ok post →
  filter literal post = filter literal s.
Proof. apply to_postfix_symbols. Qed.

Lemma to_postfix_keeps_operand_order_witness :
  to_postfix [LPAREN; 97; 46; 98; RPAREN; 42; 124; 99]%N
  = Ok [97; 98; 46; 42; 99; 124]%N
  ∧ filter literal [97; 98; 46; 42; 99; 124]%N
    = filter literal [LPAREN; 97; 46; 98; RPAREN; 42; 124; 99]%N.
Proof.
  assert (to_postfix [LPAREN; 97; 46; 98; RPAREN; 42; 124; 99]%N
          = Ok [97; 98; 46; 42; 99; 124]%N) as H by (vm_compute; reflexivity).
  split; [exact H|].
  exact (to_postfix_keeps_operand_order _ _ H).
Defined.

(** X6. The conversion to postfix loses and invents nothing: its output
    is a permutation of the input without its parentheses, so it holds no
    parenthesis and exactly the symbols and operators of the input. *)
Theorem to_postfix_conserves_tokens (s post : list char) :
  to_postfix s = Ok post →
  post ≡ₚ filter not_paren s ∧ Forall not_paren post.
Proof.
  intros H. apply to_postfix_perm in H. split; [done|].
  rewrite H. apply Forall_forall. intros x Hx.
  by apply list_elem_of_filter in Hx as [? _].
Qed.

Lemma to_postfix_conserves_tokens_witness :
  to_postfix [LPAREN; 97; 46; 98; RPAREN; 42; 124; 99]%N
  = Ok [97; 98; 46; 42; 99; 124]%N
  ∧ [97; 98; 46; 42; 99; 124]%N
    ≡ₚ filter not_paren [LPAREN; 97; 46; 98; RPAREN; 42; 124; 99]%N.
Proof.
  assert (to_postfix [LPAREN; 97; 46; 98; RPAREN; 42; 124; 99]%N
          = Ok [97; 98; 46; 42; 99; 124]%N) as H by (vm_compute; reflexivity).
  split; [exact H|].
  exact (proj1 (to_postfix_conserves_tokens _ _ H)).
Defined.

(** ** The builder: underflow and counting *)

Section more_builder.

Implicit Types (σ : store) (u v : State) (sym : char) (f a b : Fragment).

Lemma thompson_step_Raise_iff σ stack tok e :
  thompson_step (σ, stack) tok = Raise e ↔
  e = IndexError_pop_from_empty_list
  ∧ ((tok ∈ [BAR; DOT] ∧ length stack < 2)
     ∨ (tok ∈ [STAR; PLUS; QMARK] ∧ stack = [])).
Proof.
  split.
  - intros H. split; [by eapply thompson_step_Raise|].
    unfold thompson_step in H.
    repeat case_bool_decide; subst;
      destruct stack as [|b [|a stack]]; try done;
      first [ left; split; [set_solver|cbn; lia]
            | right; split; [set_solver|done] ].
  - intros (-> & [[Htok Hlen]|[Htok ->]]).
    + rewrite !elem_of_cons, elem_of_nil in Htok.
      destruct stack as [|b [|a stack]]; [| |cbn in Hlen; lia];
        destruct_or!; subst; done.
    + rewrite !elem_of_cons, elem_of_nil in Htok. destruct_or!; subst; done.
Qed.

Lemma thompson_step_count σ stack tok σ' stack' :
  thompson_step (σ, stack) tok = Ok (σ', stack') →
  _id σ' = _id σ + 2 * length (filter (λ t, t ≠ DOT) [tok])
  ∧ length stack' + length (filter binary [tok])
    = length stack + length (filter operand [tok]).
Proof.
  unfold thompson_step.
  repeat case_bool_decide; subst;
    destruct stack as [|b [|a stack]]; try done;
    cbn [mbind res_bind pop]; unfold sym_frag; cbn -[filter Nat.mul];
    intros [= <- <-]; cbn [length _id];
    repeat first [ rewrite filter_cons_True by (unfold operand, binary; set_solver)
                 | rewrite filter_cons_False by (unfold operand, binary; set_solver) ];
    cbn; lia.
Qed.

Lemma thompson_loop_count post σ stack σ' stack' :
  thompson_loop (σ, stack) post = Ok (σ', stack') →
  _id σ' = _id σ + 2 * length (filter (λ t, t ≠ DOT) post)
  ∧ length stack' + length (filter binary post)
    = length stack + length (filter operand post).
Proof.
  revert σ stack. induction post as [|tok post IH]; intros σ stack.
  - intros [= <- <-]. cbn. lia.
  - cbn [thompson_loop].
    destruct (thompson_step (σ, stack) tok) as [[σ1 stack1]|] eqn:Hstep; [|done].
    rewrite bind_Ok. intros Hloop.
    apply thompson_step_count in Hstep as [Hid Hlen].
    apply IH in Hloop as [Hid' Hlen'].
    change (tok :: post) with ([tok] ++ post).
    rewrite !filter_app, !length_app. lia.
Qed.

End more_builder.

(** X7. An iteration of the builder fails exactly on stack underflow:
    with [IndexError], when the token is alternation or concatenation
    and fewer than two fragments are stacked, or when it is star, plus or
    optional and no fragment is stacked.  Any other token is an operand
    and always succeeds. *)
Theorem builder_fails_exactly_on_underflow
    (σ : store) (stack : list Fragment) (tok : char) (e : exn) :
  thompson_step (σ, stack) tok = Raise e ↔
  e = IndexError_pop_from_empty_list
  ∧ ((tok ∈ [BAR; DOT] ∧ length stack < 2)
     ∨ (tok ∈ [STAR; PLUS; QMARK] ∧ stack = [])).
Proof. apply thompson_step_Raise_iff. Qed.

(** X8. The builder allocates two states for every token except
    concatenation, which allocates none, and the height of the fragment
    stack is the number of operands minus the number of binary operators
    read so far. *)
Theorem builder_counts
    (post : list char) (σ σ' : store) (stack stack' : list Fragment) :
  thompson_loop (σ, stack) post = Ok (σ', stack') →
  _id σ' = _id σ + 2 * length (filter (λ t, t ≠ DOT) post)
  ∧ length stack' + length (filter binary post)
    = length stack + length (filter operand post).
Proof. apply thompson_loop_count. Qed.

Lemma builder_counts_witness :
  thompson_loop (Store 0 ∅, []) [97%N] = Ok (store_a, [mkFragment 1 2])
  ∧ _id store_a = 0 + 2 * length (filter (λ t, t ≠ DOT) [97%N])
  ∧ length [mkFragment 1 2] + length (filter binary [97%N])
    = 0 + length (filter operand [97%N]).
Proof.
  assert (thompson_loop (Store 0 ∅, []) [97%N] = Ok (store_a, [mkFragment 1 2]))
    as Hloop by (vm_compute; reflexivity).
  split; [exact Hloop|].
  exact (builder_counts [97%N] (Store 0 ∅) store_a [] [mkFragment 1 2] Hloop).
Defined.

(** ** The shape of an iteration and the regions of the fragments *)

Section shape_facts.

Implicit Types (σ : store) (u v : State) (sym : char) (f a b : Fragment).

Lemma reachable_bound σ u v :
  store_ok σ → u ≤ _id σ → reachable σ u v → v ≤ _id σ.
Proof.
  intros [_ Hedge] Hu Hr. induction Hr as [|x y z [sym Hxy] _ IH]; [done|].
  apply IH. by apply Hedge in Hxy as [_ ?].
Qed.

Lemma frag_ok_exit_in_region σ f : frag_ok σ f → reachable σ (frag_start f) (frag_accept f).
Proof. by intros (_ & _ & _ & ?). Qed.

Local Ltac in_extra :=
  let Hin := fresh "Hin" in
  intros ? ? ? Hin; rewrite ?elem_of_cons, elem_of_nil in Hin;
  destruct_or!; try done; injection Hin as -> -> ->.

Local Ltac degree_goal :=
  intros ?; cbn [filter list_filter fst snd];
  repeat case_decide; cbn [length]; lia.

Lemma thompson_step_shape n0 σ stack tok σ' stack' :
  cfg_inv σ stack →
  region_inv n0 σ stack →
  thompson_step (σ, stack) tok = Ok (σ', stack') →
  ∃ popped rest f,
    stack = popped ++ rest
    ∧ stack' = f :: rest
    ∧ step_shape σ σ' popped f (new_edges tok σ stack).
Proof.
  intros Hinv Hreg Hstep.
  pose proof (thompson_step_edges _ _ _ _ _ (proj1 Hinv) Hstep) as Hedges.
  pose proof (thompson_step_inv _ _ _ _ _ Hinv Hstep) as Hinv'.
  pose proof Hinv as ([Hdom Hedge] & Hfrags & Hnd).
  assert (∀ x sym y, edge σ x sym y → edge σ' x sym y) as Hmono.
  { intros x sym y H. apply Hedges. by left. }
  unfold new_edges in *.
  destruct (decide (tok = BAR)) as [->|?].
  { destruct stack as [|b [|a stack]]; [done..|].
    apply Forall_cons in Hfrags as [(Hbs & Hba & Hbn & Hbr) Hfrags].
    apply Forall_cons in Hfrags as [(Has & Haa & Han & Har) Hfrags].
    rewrite thompson_step_BAR in Hstep. cbn zeta in Hstep.
    injection Hstep as Hσ <-.
    assert (_id σ' = S (S (_id σ))) as Hid by (by rewrite <- Hσ). clear Hσ.
    destruct Hinv' as (_ & Hf' & _).
    apply Forall_cons in Hf' as [(_ & _ & _ & Hst) _]. cbn in Hst.
    exists [b; a], stack, (mkFragment (S (_id σ)) (S (S (_id σ)))).
    split; [done|]. split; [done|]. constructor.
    - lia.
    - exact Hedges.
    - in_extra; cbn [fmap list_fmap]; first [left; lia | right; set_solver].
    - in_extra; cbn [fmap list_fmap]; first [left; lia | right; set_solver].
    - cbn. left. lia.
    - intros u sym Hin. cbn in Hin. rewrite ?elem_of_cons, elem_of_nil in Hin.
      destruct_or!; try done; injection Hin as -> -> ?; lia.
    - intros p Hp. cbn. rewrite !elem_of_cons, elem_of_nil in Hp.
      destruct_or!; try done; subst p;
        apply (reachable_edge _ _ EPS), Hedges; right; set_solver.
    - intros u Hu. cbn.
      assert (u = S (_id σ) ∨ u = S (S (_id σ))) as [->| ->] by lia;
        [apply rtc_refl|exact Hst].
    - degree_goal. }
  destruct (decide (tok = DOT)) as [->|?].
  { destruct stack as [|b [|a stack]]; [done..|].
    apply Forall_cons in Hfrags as [(Hbs & Hba & Hbn & Hbr) Hfrags].
    apply Forall_cons in Hfrags as [(Has & Haa & Han & Har) Hfrags].
    rewrite thompson_step_DOT in Hstep. injection Hstep as Hσ <-.
    assert (_id σ' = _id σ) as Hid by (by rewrite <- Hσ). clear Hσ.
    apply NoDup_cons in Hnd as [Hne _]. cbn [fmap list_fmap] in Hne.
    exists [b; a], stack, (mkFragment (frag_start a) (frag_accept b)).
    split; [done|]. split; [done|]. constructor.
    - lia.
    - exact Hedges.
    - in_extra; cbn [fmap list_fmap]; first [left; lia | right; set_solver].
    - in_extra; cbn [fmap list_fmap]; first [left; lia | right; set_solver].
    - cbn. right. set_solver.
    - intros u sym Hin. cbn in Hin. rewrite ?elem_of_cons, elem_of_nil in Hin.
      destruct_or!; try done; injection Hin as -> -> Heq.
      eapply (ri_disjoint _ _ _ Hreg a b (frag_start a)).
      + set_solver.
      + set_solver.
      + set_solver.
      + apply rtc_refl.
      + rewrite <- Heq. apply rtc_refl.
    - intros p Hp. cbn. rewrite !elem_of_cons, elem_of_nil in Hp.
      destruct_or!; try done; subst p; [|apply rtc_refl].
      apply (reachable_snoc _ _ (frag_accept a) EPS);
        [by eapply reachable_mono|apply Hedges; right; set_solver].
    - intros u Hu. lia.
    - degree_goal. }
  destruct (decide (tok = STAR)) as [->|?].
  { destruct stack as [|a stack]; [done|].
    apply Forall_cons in Hfrags as [(Has & Haa & Han & Har) Hfrags].
    rewrite thompson_step_STAR in Hstep. cbn zeta in Hstep.
    injection Hstep as Hσ <-.
    assert (_id σ' = S (S (_id σ))) as Hid by (by rewrite <- Hσ). clear Hσ.
    destruct Hinv' as (_ & Hf' & _).
    apply Forall_cons in Hf' as [(_ & _ & _ & Hst) _]. cbn in Hst.
    exists [a], stack, (mkFragment (S (_id σ)) (S (S (_id σ)))).
    split; [done|]. split; [done|]. constructor.
    - lia.
    - exact Hedges.
    - in_extra; cbn [fmap list_fmap]; first [left; lia | right; set_solver].
    - in_extra; cbn [fmap list_fmap]; first [left; lia | right; set_solver].
    - cbn. left. lia.
    - intros u sym Hin. cbn in Hin. rewrite ?elem_of_cons, elem_of_nil in Hin.
      destruct_or!; try done; injection Hin as -> -> ?; lia.
    - intros p Hp. cbn. rewrite !elem_of_cons, elem_of_nil in Hp.
      destruct_or!; try done; subst p;
        apply (reachable_edge _ _ EPS), Hedges; right; set_solver.
    - intros u Hu. cbn.
      assert (u = S (_id σ) ∨ u = S (S (_id σ))) as [->| ->] by lia;
        [apply rtc_refl|exact Hst].
    - degree_goal. }
  destruct (decide (tok = PLUS)) as [->|?].
  { destruct stack as [|a stack]; [done|].
    apply Forall_cons in Hfrags as [(Has & Haa & Han & Har) Hfrags].
    rewrite thompson_step_PLUS in Hstep. cbn zeta in Hstep.
    injection Hstep as Hσ <-.
    assert (_id σ' = S (S (_id σ))) as Hid by (by rewrite <- Hσ). clear Hσ.
    destruct Hinv' as (_ & Hf' & _).
    apply Forall_cons in Hf' as [(_ & _ & _ & Hst) _]. cbn in Hst.
    exists [a], stack, (mkFragment (S (_id σ)) (S (S (_id σ)))).
    split; [done|]. split; [done|]. constructor.
    - lia.
    - exact Hedges.
    - in_extra; cbn [fmap list_fmap]; first [left; lia | right; set_solver].
    - in_extra; cbn [fmap list_fmap]; first [left; lia | right; set_solver].
    - cbn. left. lia.
    - intros u sym Hin. cbn in Hin. rewrite ?elem_of_cons, elem_of_nil in Hin.
      destruct_or!; try done; injection Hin as -> -> ?; lia.
    - intros p Hp. cbn. rewrite !elem_of_cons, elem_of_nil in Hp.
      destruct_or!; try done; subst p;
        apply (reachable_edge _ _ EPS), Hedges; right; set_solver.
    - intros u Hu. cbn.
      assert (u = S (_id σ) ∨ u = S (S (_id σ))) as [->| ->] by lia;
        [apply rtc_refl|exact Hst].
    - degree_goal. }
  destruct (decide (tok = QMARK)) as [->|?].
  { destruct stack as [|a stack]; [done|].
    apply Forall_cons in Hfrags as [(Has & Haa & Han & Har) Hfrags].
    rewrite thompson_step_QMARK in Hstep. cbn zeta in Hstep.
    injection Hstep as Hσ <-.
    assert (_id σ' = S (S (_id σ))) as Hid by (by rewrite <- Hσ). clear Hσ.
    destruct Hinv' as (_ & Hf' & _).
    apply Forall_cons in Hf' as [(_ & _ & _ & Hst) _]. cbn in Hst.
    exists [a], stack, (mkFragment (S (_id σ)) (S (S (_id σ)))).
    split; [done|]. split; [done|]. constructor.
    - lia.
    - exact Hedges.
    - in_extra; cbn [fmap list_fmap]; first [left; lia | right; set_solver].
    - in_extra; cbn [fmap list_fmap]; first [left; lia | right; set_solver].
    - cbn. left. lia.
    - intros u sym Hin. cbn in Hin. rewrite ?elem_of_cons, elem_of_nil in Hin.
      destruct_or!; try done; injection Hin as -> -> ?; lia.
    - intros p Hp. cbn. rewrite !elem_of_cons, elem_of_nil in Hp.
      destruct_or!; try done; subst p;
        apply (reachable_edge _ _ EPS), Hedges; right; set_solver.
    - intros u Hu. cbn.
      assert (u = S (_id σ) ∨ u = S (S (_id σ))) as [->| ->] by lia;
        [apply rtc_refl|exact Hst].
    - degree_goal. }
  rewrite thompson_step_symbol in Hstep by set_solver.
  injection Hstep as Hσ <-.
  assert (_id σ' = S (S (_id σ))) as Hid by (by rewrite <- Hσ). clear Hσ.
  destruct Hinv' as (_ & Hf' & _).
  apply Forall_cons in Hf' as [(_ & _ & _ & Hst) _]. cbn in Hst.
  exists [], stack, (mkFragment (S (_id σ)) (S (S (_id σ)))).
  split; [done|]. split; [done|]. constructor.
  - lia.
  - exact Hedges.
  - in_extra; cbn [fmap list_fmap]; first [left; lia | right; set_solver].
  - in_extra; cbn [fmap list_fmap]; first [left; lia | right; set_solver].
  - cbn. left. lia.
  - intros u sym Hin. cbn in Hin. rewrite ?elem_of_cons, elem_of_nil in Hin.
    destruct_or!; try done; injection Hin as -> -> ?; lia.
  - intros p Hp. set_solver.
  - intros u Hu. cbn.
    assert (u = S (_id σ) ∨ u = S (S (_id σ))) as [->| ->] by lia;
      [apply rtc_refl|exact Hst].
  - degree_goal.
Qed.

End shape_facts.

Section region_facts.

Implicit Types (σ : store) (u v : State) (sym : char) (f g p : Fragment).

Lemma NoDup_accepts_app (popped rest : list Fragment) p g :
  NoDup (frag_accept <$> popped ++ rest) →
  p ∈ popped → g ∈ rest → frag_accept p ≠ frag_accept g.
Proof.
  rewrite fmap_app. intros (_ & Hdisj & _)%NoDup_app Hp Hg Heq.
  eapply (Hdisj (frag_accept p)).
  - apply list_elem_of_fmap. eauto.
  - rewrite Heq. apply list_elem_of_fmap. eauto.
Qed.

(** Facts every proof below needs about a step of a given shape. *)
Section with_shape.

Context (n0 : nat) (σ σ' : store) (popped rest : list Fragment)
  (f : Fragment) (extra : list (State * char * State)).
Context (Hinv : cfg_inv σ (popped ++ rest)).
Context (Hreg : region_inv n0 σ (popped ++ rest)).
Context (Hshape : step_shape σ σ' popped f extra).

Lemma shape_mono x sym y : edge σ x sym y → edge σ' x sym y.
Proof using All. intros H. apply (shape_edges _ _ _ _ _ Hshape). by left. Qed.

Lemma shape_frag_ok g : g ∈ popped ++ rest → frag_ok σ g.
Proof using All. destruct Hinv as (_ & Hfrags & _). rewrite Forall_forall in Hfrags. auto. Qed.

Lemma shape_region_bound g x :
  g ∈ popped ++ rest → reachable σ (frag_start g) x → x ≤ _id σ.
Proof using All.
  intros Hg. apply reachable_bound; [apply Hinv|].
  by destruct (shape_frag_ok g Hg) as (? & _).
Qed.

(** A set of old states that is closed under the old transitions and
    holds no exit of a popped fragment is not left by the new ones. *)
Lemma shape_confined (P : State → Prop) :
  (∀ x sym y, P x → edge σ x sym y → P y) →
  (∀ x, P x → x ≤ _id σ) →
  (∀ p, p ∈ popped → ¬ P (frag_accept p)) →
  ∀ x sym y, P x → edge σ' x sym y → edge σ x sym y.
Proof using All.
  intros Hclosed Hbound Hexits x sym y Hx Hxy.
  apply (shape_edges _ _ _ _ _ Hshape) in Hxy as [Hxy|Hxy]; [done|].
  apply (shape_src _ _ _ _ _ Hshape) in Hxy as [Hfresh|Hin].
  - apply Hbound in Hx. lia.
  - apply list_elem_of_fmap in Hin as (p & -> & Hp). by apply Hexits in Hx.
Qed.

Lemma shape_region_confined g :
  g ∈ rest →
  ∀ x sym y, reachable σ (frag_start g) x → edge σ' x sym y → edge σ x sym y.
Proof using All.
  intros Hg. apply (shape_confined (reachable σ (frag_start g))).
  - intros x sym y Hx Hxy. eapply rtc_r; [done|]. by exists sym.
  - intros x. apply shape_region_bound. set_solver.
  - intros p Hp Hx.
    eapply (ri_disjoint _ _ _ Hreg p g (frag_accept p)); [set_solver|set_solver| | |done].
    + eapply NoDup_accepts_app; [apply Hinv|done..].
    + apply frag_ok_exit_in_region, shape_frag_ok. set_solver.
Qed.

Lemma shape_region_rest g x :
  g ∈ rest → reachable σ' (frag_start g) x ↔ reachable σ (frag_start g) x.
Proof using All.
  intros Hg. split.
  - revert x. apply rtc_ind_r; [apply rtc_refl|].
    intros y z Hy [sym Hyz] IH.
    eapply rtc_r; [done|]. exists sym. by eapply shape_region_confined.
  - apply reachable_mono. apply shape_mono.
Qed.

Lemma shape_region_new x :
  reachable σ' (frag_start f) x →
  _id σ < x ≤ _id σ' ∨ ∃ p, p ∈ popped ∧ reachable σ (frag_start p) x.
Proof using All.
  revert x. apply rtc_ind_r; [|intros y z Hy [sym Hyz] IH].
  - destruct (shape_start _ _ _ _ _ Hshape) as [?|Hin]; [by left|right].
    apply list_elem_of_fmap in Hin as (p & -> & Hp). exists p. split; [done|apply rtc_refl].
  - apply (shape_edges _ _ _ _ _ Hshape) in Hyz as [Hyz|Hyz].
    + right. destruct IH as [Hfresh|(p & Hp & Hreach)].
      * destruct Hinv as ([_ Hedge] & _). apply Hedge in Hyz. lia.
      * exists p. split; [done|]. eapply rtc_r; [done|]. by exists sym.
    + apply (shape_tgt _ _ _ _ _ Hshape) in Hyz as [?|Hin]; [by left|right].
      apply list_elem_of_fmap in Hin as (p & -> & Hp).
      exists p. split; [done|apply rtc_refl].
Qed.

Lemma region_inv_extend :
  cfg_inv σ' (f :: rest) → region_inv n0 σ' (f :: rest).
Proof using All.
  intros Hinv'. pose proof Hinv as ([Hdom Hedge] & Hfrags & Hnd).
  assert (∀ g x, g ∈ rest → reachable σ' (frag_start f) x →
                 reachable σ' (frag_start g) x → False) as Hnew.
  { intros g x Hg Hf Hgx. apply shape_region_rest in Hgx; [|done].
    apply shape_region_new in Hf as [Hfresh|(p & Hp & Hpx)].
    - apply shape_region_bound in Hgx; [lia|set_solver].
    - eapply (ri_disjoint _ _ _ Hreg p g x); [set_solver|set_solver| |done|done].
      by eapply NoDup_accepts_app. }
  constructor.
  - pose proof (ri_low _ _ _ Hreg). pose proof (shape_id _ _ _ _ _ Hshape). lia.
  - intros g1 g2 x Hg1 Hg2 Hne H1 H2.
    apply elem_of_cons in Hg1 as [->|Hg1]; apply elem_of_cons in Hg2 as [->|Hg2].
    + done.
    + by eapply Hnew.
    + by eapply Hnew.
    + apply shape_region_rest in H1; [|done]. apply shape_region_rest in H2; [|done].
      eapply (ri_disjoint _ _ _ Hreg g1 g2 x); [set_solver|set_solver|done..].
  - intros g u sym Hg Hu. apply elem_of_cons in Hg as [->|Hg].
    + apply (shape_edges _ _ _ _ _ Hshape) in Hu as [Hu|Hu].
      * destruct (shape_start _ _ _ _ _ Hshape) as [Hfresh|Hin].
        -- apply Hedge in Hu. lia.
        -- apply list_elem_of_fmap in Hin as (p & Heq & Hp). rewrite Heq in Hu.
           eapply (ri_no_incoming _ _ _ Hreg p); [set_solver|done].
      * by apply (shape_no_incoming _ _ _ _ _ Hshape) in Hu.
    + apply (shape_edges _ _ _ _ _ Hshape) in Hu as [Hu|Hu].
      * eapply (ri_no_incoming _ _ _ Hreg g); [set_solver|done].
      * apply (shape_tgt _ _ _ _ _ Hshape) in Hu as [Hfresh|Hin].
        -- destruct (shape_frag_ok g) as (? & _); [set_solver|]. lia.
        -- apply list_elem_of_fmap in Hin as (p & Heq & Hp).
           eapply (ri_disjoint _ _ _ Hreg p g (frag_start g));
             [set_solver|set_solver| | |apply rtc_refl].
           ++ by eapply NoDup_accepts_app.
           ++ rewrite Heq. apply rtc_refl.
  - intros u Hu. destruct (decide (u ≤ _id σ)) as [Hle|Hgt].
    + destruct (ri_cover _ _ _ Hreg u) as (g & Hg & Hgu); [lia|].
      apply elem_of_app in Hg as [Hg|Hg].
      * exists f. split; [set_solver|].
        eapply rtc_trans; [by apply (shape_cover_popped _ _ _ _ _ Hshape)|].
        eapply reachable_mono; [apply shape_mono|done].
      * exists g. split; [set_solver|]. by apply shape_region_rest.
    + exists f. split; [set_solver|].
      apply (shape_cover_fresh _ _ _ _ _ Hshape). lia.
  - intros u.
    destruct (filter (λ e, e.1.1 = u) extra) as [|e0 l0] eqn:Hfilter.
    + destruct (ri_degree _ _ _ Hreg u) as (l & Hlen & Hl).
      exists l. split; [done|]. intros sym v Huv.
      apply (shape_edges _ _ _ _ _ Hshape) in Huv as [Huv|Huv]; [auto|].
      assert ((u, sym, v) ∈ filter (λ e, e.1.1 = u) extra) as Hin
        by (by apply list_elem_of_filter).
      rewrite Hfilter in Hin. set_solver.
    + exists ((λ e, (e.1.2, e.2)) <$> filter (λ e, e.1.1 = u) extra).
      split; [rewrite length_fmap; apply (shape_degree _ _ _ _ _ Hshape)|].
      intros sym v Huv.
      assert ((u, sym, v) ∈ extra) as Hin.
      { apply (shape_edges _ _ _ _ _ Hshape) in Huv as [Huv|Huv]; [|done]. exfalso.
        assert (e0 ∈ filter (λ e, e.1.1 = u) extra) as He0
          by (rewrite Hfilter; set_solver).
        apply list_elem_of_filter in He0 as [Hsrc He0].
        destruct e0 as [[u0 sym0] v0]. cbn in Hsrc. subst u0.
        apply (shape_src _ _ _ _ _ Hshape) in He0 as [Hfresh|Hex].
        - apply Hedge in Huv. lia.
        - apply list_elem_of_fmap in Hex as (p & -> & Hp).
          destruct (shape_frag_ok p) as (_ & _ & Hnone & _); [set_solver|].
          by apply Hnone in Huv. }
      apply list_elem_of_fmap. exists (u, sym, v). split; [done|].
      by apply list_elem_of_filter.
Qed.

End with_shape.

Lemma region_inv_init n : region_inv n (Store n ∅) [].
Proof.
  constructor.
  - done.
  - intros f g x Hf. set_solver.
  - intros f u sym Hf. set_solver.
  - intros u Hu. cbn in Hu. lia.
  - intros u. exists []. split; [cbn; lia|].
    intros sym v H. apply edge_dom in H. cbn in H. set_solver.
Qed.

Lemma thompson_step_region n0 σ stack tok σ' stack' :
  cfg_inv σ stack → region_inv n0 σ stack →
  thompson_step (σ, stack) tok = Ok (σ', stack') →
  region_inv n0 σ' stack'.
Proof.
  intros Hinv Hreg Hstep.
  pose proof (thompson_step_inv _ _ _ _ _ Hinv Hstep) as Hinv'.
  destruct (thompson_step_shape n0 _ _ _ _ _ Hinv Hreg Hstep)
    as (popped & rest & f & -> & -> & Hshape).
  by eapply (region_inv_extend n0 σ σ' popped rest f).
Qed.

Lemma thompson_loop_region n0 σ stack post σ' stack' :
  cfg_inv σ stack → region_inv n0 σ stack →
  thompson_loop (σ, stack) post = Ok (σ', stack') →
  region_inv n0 σ' stack'.
Proof.
  revert σ stack. induction post as [|tok post IH]; intros σ stack Hinv Hreg.
  - by intros [= <- <-].
  - cbn [thompson_loop].
    destruct (thompson_step (σ, stack) tok) as [[σ1 stack1]|] eqn:Hstep; [|done].
    rewrite bind_Ok. apply IH.
    + by eapply thompson_step_inv.
    + by eapply thompson_step_region.
Qed.

End region_facts.

(** ** Runs and the simulator *)

Section run_facts.

Implicit Types (σ : store) (u v x y : State) (w : list char) (S C : gset State).

Lemma run_app σ u w1 v w2 x :
  run σ u w1 v → run σ v w2 x → run σ u (w1 ++ w2) x.
Proof.
  induction 1 as [|? ? ? ? He _ IH|? ? ? ? ? He _ IH]; intros H2; [done|..].
  - eapply run_eps; eauto.
  - cbn [app]. eapply run_sym; eauto.
Qed.

Lemma run_snoc_eps σ u w v x : run σ u w v → edge σ v EPS x → run σ u w x.
Proof.
  intros Hr He. rewrite <- (app_nil_r w). eapply run_app; [done|].
  eapply run_eps; [done|apply run_nil].
Qed.

Lemma run_rtc_eps σ u v w x : rtc (eps_step σ) u v → run σ v w x → run σ u w x.
Proof.
  induction 1 as [|a b c Hab _ IH]; [done|]. intros H.
  eapply run_eps; [exact Hab|auto].
Qed.

Lemma run_nil_rtc σ u x : run σ u [] x ↔ rtc (eps_step σ) u x.
Proof.
  split.
  - intros H. remember [] as w eqn:Hw.
    induction H as [|? ? ? ? He _ IH|]; [apply rtc_refl| |done].
    eapply rtc_l; [exact He|auto].
  - intros H. eapply run_rtc_eps; [done|apply run_nil].
Qed.

Lemma run_mono σ σ' u w x :
  (∀ a sym b, edge σ a sym b → edge σ' a sym b) → run σ u w x → run σ' u w x.
Proof.
  intros Hmono. induction 1 as [|? ? ? ? He _ IH|? ? ? ? ? He _ IH].
  - apply run_nil.
  - eapply run_eps; eauto.
  - eapply run_sym; eauto.
Qed.

Lemma run_reachable σ u w x : run σ u w x → reachable σ u x.
Proof.
  induction 1 as [|? ? ? ? He _ IH|? ? ? ? ? He _ IH]; [apply rtc_refl|..].
  - eapply reachable_cons; eauto.
  - eapply reachable_cons; eauto.
Qed.

(** A run that starts in a set of states which the new transitions do not
    leave is a run of the old heap. *)
Lemma run_confined σ σ' (P : State → Prop) u w x :
  (∀ a sym b, P a → edge σ a sym b → P b) →
  (∀ a sym b, P a → edge σ' a sym b → edge σ a sym b) →
  P u → run σ' u w x → run σ u w x.
Proof.
  intros Hclosed Hold Hu Hr.
  induction Hr as [|? ? ? ? He _ IH|? ? ? ? ? He _ IH].
  - apply run_nil.
  - apply Hold in He; [|done]. eapply run_eps; [done|]. apply IH. eauto.
  - apply Hold in He; [|done]. eapply run_sym; [done|]. apply IH. eauto.
Qed.

(** Every character of the word is read on a transition it labels. *)
Lemma run_labels σ u w x ch :
  run σ u w x → ch ∈ w → ∃ a b, edge σ a ch b.
Proof.
  induction 1 as [|? ? ? ? He _ IH|? c ? ? ? He _ IH]; intros Hin.
  - set_solver.
  - auto.
  - apply elem_of_cons in Hin as [->|Hin]; eauto.
Qed.

Lemma run_cons_inv σ u ch w x :
  run σ u (ch :: w) x ↔
  ∃ a b, rtc (eps_step σ) u a ∧ edge σ a ch b ∧ run σ b w x.
Proof.
  split.
  - intros H. remember (ch :: w) as w' eqn:Hw.
    induction H as [|? ? ? ? He _ IH|? ? ? ? ? He Hr _]; [done| |].
    + destruct (IH Hw) as (a & b & Hua & Hab & Hb).
      exists a, b. split; [|done]. eapply rtc_l; [exact He|done].
    + injection Hw as -> ->. eexists _, _. split; [apply rtc_refl|done].
  - intros (a & b & Hua & Hab & Hb).
    eapply run_rtc_eps; [done|]. eapply run_sym; eauto.
Qed.

Lemma epsilon_closure_closed σ S C :
  epsilon_closure σ S = Ok C →
  ∀ a b, a ∈ C → edge σ a EPS b → b ∈ C.
Proof.
  intros Hrun a b Ha Hab.
  destruct (epsilon_closure_spec σ S) as (C' & Hrun' & HC).
  rewrite Hrun in Hrun'. injection Hrun' as <-.
  apply HC in Ha as (s & Hs & Hsa). apply HC. exists s. split; [done|].
  eapply rtc_r; [done|exact Hab].
Qed.

(** The set of current states after the loop of the simulator. *)
Lemma nfa_accepts_loop_nobreak_spec σ w S :
  (∀ a b, a ∈ S → edge σ a EPS b → b ∈ S) →
  ∃ S', nfa_accepts_loop_nobreak σ S w = Ok S'
        ∧ ∀ x, x ∈ S' ↔ ∃ u, u ∈ S ∧ run σ u w x.
Proof.
  revert S. induction w as [|ch w IH]; intros S Hclosed.
  - exists S. split; [done|]. intros x. split.
    + intros Hx. exists x. split; [done|apply run_nil].
    + intros (u & Hu & Hr). apply run_nil_rtc in Hr.
      induction Hr as [|a b c Hab _ IHr]; [done|]. apply IHr. by eapply Hclosed.
  - cbn [nfa_accepts_loop_nobreak].
    destruct (epsilon_closure_spec σ (move σ S ch)) as (C & Hrun & HC).
    rewrite Hrun, bind_Ok.
    destruct (IH C) as (S' & Hloop & HS').
    { by eapply epsilon_closure_closed. }
    exists S'. split; [done|]. intros x. rewrite HS'. split.
    + intros (c & Hc & Hr). apply HC in Hc as (b & Hb & Hbc).
      apply elem_of_move in Hb as (a & Ha & Hab).
      exists a. split; [done|]. eapply run_sym; [done|]. by eapply run_rtc_eps.
    + intros (u & Hu & Hr). apply run_cons_inv in Hr as (a & b & Hua & Hab & Hb).
      assert (a ∈ S) as Ha.
      { clear -Hua Hu Hclosed. induction Hua as [|p q r Hpq _ IHr]; [done|].
        apply IHr. by eapply Hclosed. }
      exists b. split; [|done]. apply HC. exists b. split; [|apply rtc_refl].
      apply elem_of_move. eauto.
Qed.

Lemma nfa_accepts_run σ (nfa : NFA) w :
  ∃ r : bool, nfa_accepts σ nfa w = Ok r ∧ (r = true ↔ nfa_lang σ nfa w).
Proof.
  unfold nfa_accepts, nfa_lang.
  destruct (epsilon_closure_spec σ {[nfa_start nfa]}) as (C0 & Hrun & HC0).
  rewrite Hrun, bind_Ok, nfa_accepts_loop_nobreak_eq.
  destruct (nfa_accepts_loop_nobreak_spec σ w C0) as (C & Hloop & HC).
  { by eapply epsilon_closure_closed. }
  rewrite Hloop, bind_Ok. eexists. split; [done|].
  rewrite bool_decide_eq_true, HC. split.
  - intros (u & Hu & Hr). apply HC0 in Hu as (s & Hs & Hsu).
    apply elem_of_singleton in Hs as ->. by eapply run_rtc_eps.
  - intros Hr. exists (nfa_start nfa). split; [|done].
    apply HC0. exists (nfa_start nfa). split; [set_solver|apply rtc_refl].
Qed.

Lemma nfa_accepts_true_iff σ (nfa : NFA) w :
  nfa_accepts σ nfa w = Ok true ↔ nfa_lang σ nfa w.
Proof.
  destruct (nfa_accepts_run σ nfa w) as (r & -> & Hr).
  rewrite <- Hr. split; [by intros [= ->]|by intros ->].
Qed.

Lemma run_single_EPS σ u x : run σ u [EPS] x ↔ tc (eps_step σ) u x.
Proof.
  rewrite run_cons_inv. split.
  - intros (a & b & Hua & Hab & Hb). apply run_nil_rtc in Hb.
    eapply tc_rtc_l; [done|]. eapply tc_rtc_r; [by apply tc_once|done].
  - intros H. induction H as [a b Hab|a b c Hab _ IH].
    + exists a, b. split; [apply rtc_refl|]. split; [done|apply run_nil].
    + destruct IH as (a' & b' & Hba' & Hab' & Hb').
      exists a', b'. split; [|done]. eapply rtc_l; [exact Hab|done].
Qed.

End run_facts.

(** X9. The simulator decides runs: [nfa_accepts] returns a boolean on
    every heap, automaton and word, and it is [true] exactly when some
    sequence of transitions leads from the start state to the accept
    state reading the word, epsilon transitions being free. *)
Theorem simulator_decides_runs (σ : store) (nfa : NFA) (w : list char) :
  ∃ r : bool, nfa_accepts σ nfa w = Ok r ∧ (r = true ↔ nfa_lang σ nfa w).
Proof. apply nfa_accepts_run. Qed.

(** X11. The empty-string marker is an ordinary label for the simulator:
    the one-character word made of it is accepted exactly when the accept
    state is reachable from the start state by one or more epsilon
    transitions. *)
Theorem marker_character_reads_epsilon (σ : store) (nfa : NFA) :
  nfa_accepts σ nfa [EPS] = Ok true
  ↔ tc (eps_step σ) (nfa_start nfa) (nfa_accept nfa).
Proof. rewrite nfa_accepts_true_iff. apply run_single_EPS. Qed.

(** X12. [epsilon_closure] is a closure operator: its result contains the
    given set, is left unchanged by a second closure, and grows with the
    given set. *)
Theorem epsilon_closure_is_a_closure (σ : store) (S S' : gset State) :
  ∃ C C',
    epsilon_closure σ S = Ok C
    ∧ S ⊆ C
    ∧ epsilon_closure σ C = Ok C
    ∧ epsilon_closure σ (S ∪ S') = Ok C'
    ∧ C ⊆ C'.
Proof.
  destruct (epsilon_closure_spec σ S) as (C & Hrun & HC).
  destruct (epsilon_closure_spec σ C) as (CC & Hrun2 & HCC).
  destruct (epsilon_closure_spec σ (S ∪ S')) as (C' & Hrun' & HC').
  exists C, C'. split_and!; [done| | |done|].
  - intros x Hx. apply HC. exists x. split; [done|apply rtc_refl].
  - rewrite Hrun2. f_equal. apply set_eq. intros x. rewrite HCC. split.
    + intros (u & Hu & Hux). apply HC in Hu as (s & Hs & Hsu).
      apply HC. exists s. split; [done|]. by eapply rtc_trans.
    + intros Hx. exists x. split; [done|apply rtc_refl].
  - intros x Hx. apply HC in Hx as (s & Hs & Hsx).
    apply HC'. exists s. split; [set_solver|done].
Qed.

(** ** Runs through the fragments of an iteration *)

Section run_shape.

Implicit Types (σ : store) (u v x y z : State) (w : list char) (f g p : Fragment).

Context (n0 : nat) (σ σ' : store) (popped rest : list Fragment)
  (f : Fragment) (extra : list (State * char * State)).
Context (Hinv : cfg_inv σ (popped ++ rest)).
Context (Hreg : region_inv n0 σ (popped ++ rest)).
Context (Hshape : step_shape σ σ' popped f extra).

(** The fragments left on the stack keep their words. *)
Lemma frag_lang_rest g w : g ∈ rest → frag_lang σ' g w ↔ frag_lang σ g w.
Proof using All.
  intros Hg. unfold frag_lang. split.
  - apply (run_confined σ σ' (reachable σ (frag_start g))).
    + intros a sym b Ha Hab. eapply rtc_r; [done|]. by exists sym.
    + intros a sym b.
      by apply (shape_region_confined n0 σ σ' popped rest f extra Hinv Hreg Hshape).
    + apply rtc_refl.
  - apply run_mono.
    apply (shape_mono n0 σ σ' popped rest f extra Hinv Hreg Hshape).
Qed.

(** Inside a popped fragment the only new transitions leave its exit. *)
Lemma popped_region_edge p x sym y :
  p ∈ popped → reachable σ (frag_start p) x → edge σ' x sym y →
  edge σ x sym y ∨ (x = frag_accept p ∧ (x, sym, y) ∈ extra).
Proof using All.
  intros Hp Hx Hxy.
  apply (shape_edges _ _ _ _ _ Hshape) in Hxy as [Hxy|Hxy]; [by left|right].
  split; [|done].
  destruct (shape_src _ _ _ _ _ Hshape _ _ _ Hxy) as [Hfresh|Hin].
  - apply (shape_region_bound n0 σ σ' popped rest f extra Hinv Hreg Hshape p) in Hx;
      [lia|set_solver].
  - apply list_elem_of_fmap in Hin as (p' & -> & Hp').
    destruct (decide (frag_accept p' = frag_accept p)) as [|Hne]; [done|].
    exfalso.
    eapply (ri_disjoint _ _ _ Hreg p' p (frag_accept p'));
      [set_solver|set_solver|done| |done].
    apply frag_ok_exit_in_region,
      (shape_frag_ok n0 σ σ' popped rest f extra Hinv Hreg Hshape). set_solver.
Qed.

(** A run inside a popped fragment whose exit gets no new transition. *)
Lemma run_in_popped p x w z :
  p ∈ popped →
  (∀ sym y, (frag_accept p, sym, y) ∉ extra) →
  reachable σ (frag_start p) x →
  run σ' x w z → run σ x w z.
Proof using All.
  intros Hp Hnone. apply (run_confined σ σ' (reachable σ (frag_start p))).
  - intros a sym b Ha Hab. eapply rtc_r; [done|]. by exists sym.
  - intros a sym b Ha Hab.
    destruct (popped_region_edge p a sym b Hp Ha Hab) as [?|[-> Hin]]; [done|].
    by apply Hnone in Hin.
Qed.

Context (Heps : ∀ u sym v, (u, sym, v) ∈ extra → sym = EPS).

(** A run that leaves a popped fragment [p] first reaches its exit, then
    goes round [p] any number of times over a new transition back to its
    entry, and finally leaves over a new transition to another state. *)
Lemma run_through_popped p x w z :
  p ∈ popped →
  reachable σ (frag_start p) x →
  ¬ reachable σ (frag_start p) z →
  EPS ∉ w →
  run σ' x w z →
  ∃ w1 ws y w2,
    w = w1 ++ concat ws ++ w2
    ∧ run σ x w1 (frag_accept p)
    ∧ Forall (frag_lang σ p) ws
    ∧ (ws ≠ [] → (frag_accept p, EPS, frag_start p) ∈ extra)
    ∧ (frag_accept p, EPS, y) ∈ extra
    ∧ y ≠ frag_start p
    ∧ run σ' y w2 z.
Proof using All.
  intros Hp Hx Hz Hw Hr. revert Hx Hw.
  induction Hr as [|x y w z He Hr IH|x ch y w z He Hr IH]; intros Hx Hw.
  - done.
  - destruct (popped_region_edge p x EPS y Hp Hx He) as [Hold|[-> Hnew]].
    + destruct IH as (w1 & ws & y' & w2 & -> & Hr1 & Hws & Hloop & Hexit & Hne & Hr2);
        [done|by eapply rtc_r; [|by exists EPS]|done|].
      exists w1, ws, y', w2. split_and!; try done. by eapply run_eps.
    + destruct (decide (y = frag_start p)) as [->|Hne].
      * destruct IH as (w1 & ws & y' & w2 & -> & Hr1 & Hws & Hloop & Hexit & Hne & Hr2);
          [done|apply rtc_refl|done|].
        exists [], (w1 :: ws), y', w2. split_and!; try done.
        -- cbn. by rewrite <- app_assoc.
        -- apply run_nil.
        -- by constructor.
      * exists [], [], y, w. split_and!; try done. apply run_nil.
  - assert (ch ≠ EPS) as Hch by set_solver.
    destruct (popped_region_edge p x ch y Hp Hx He) as [Hold|[-> Hnew]].
    + destruct IH as (w1 & ws & y' & w2 & -> & Hr1 & Hws & Hloop & Hexit & Hne & Hr2);
        [done|by eapply rtc_r; [|by exists ch]|set_solver|].
      exists (ch :: w1), ws, y', w2. split_and!; try done. by eapply run_sym.
    + by apply Heps in Hnew.
Qed.

(** From a fresh state a run starts over a new transition. *)
Lemma run_from_fresh x w z :
  _id σ < x → x ≠ z → EPS ∉ w → run σ' x w z →
  ∃ y, (x, EPS, y) ∈ extra ∧ run σ' y w z.
Proof using All.
  intros Hx Hne Hw Hr. destruct Hinv as ([_ Hedge] & _).
  destruct Hr as [|x y w z He Hr|x ch y w z He Hr]; [done|..].
  - apply (shape_edges _ _ _ _ _ Hshape) in He as [He|He]; [|eauto].
    apply Hedge in He. lia.
  - apply (shape_edges _ _ _ _ _ Hshape) in He as [He|He].
    + apply Hedge in He. lia.
    + apply Heps in He. set_solver.
Qed.

End run_shape.

Section run_sink.

Lemma run_from_sink σ (z : State) (w : list char) (x : State) :
  (∀ sym y, ¬ edge σ z sym y) → run σ z w x → w = [] ∧ x = z.
Proof.
  intros Hnone Hr. destruct Hr as [|? ? ? ? He|? ? ? ? ? He]; [done|..];
    by apply Hnone in He.
Qed.

End run_sink.

(** ** The words of the fragment an iteration pushes *)

Section lang_facts.

Implicit Types (σ : store) (u v x y z : State) (w : list char) (f g p a b : Fragment).

Lemma thompson_step_shape_arity n0 σ stack tok σ' stack' :
  cfg_inv σ stack →
  region_inv n0 σ stack →
  thompson_step (σ, stack) tok = Ok (σ', stack') →
  ∃ popped rest f,
    stack = popped ++ rest
    ∧ stack' = f :: rest
    ∧ step_shape σ σ' popped f (new_edges tok σ stack)
    ∧ length popped + length (filter operand [tok])
      = 1 + length (filter binary [tok]).
Proof.
  intros Hinv Hreg Hstep.
  destruct (thompson_step_shape n0 _ _ _ _ _ Hinv Hreg Hstep)
    as (popped & rest & f & -> & -> & Hshape).
  exists popped, rest, f. split_and!; [done..|].
  apply thompson_step_count in Hstep as [_ Hlen].
  rewrite length_app in Hlen. cbn [length] in Hlen. lia.
Qed.

Lemma concat_no_EPS (ws : list (list char)) (wi : list char) :
  EPS ∉ concat ws → wi ∈ ws → EPS ∉ wi.
Proof.
  intros Hno Hin Hwi. apply Hno. apply list_elem_of_In, in_concat.
  exists wi. split; by apply list_elem_of_In.
Qed.

Local Ltac in_list H :=
  rewrite ?elem_of_cons, elem_of_nil in H; destruct_or!; try done.

(** Unfolding of the shape for a binary operator, a unary operator and an
    operand. *)
Lemma shape_binary n0 σ b a rest tok σ' stack' :
  tok ∈ [BAR; DOT] →
  cfg_inv σ (b :: a :: rest) →
  region_inv n0 σ (b :: a :: rest) →
  thompson_step (σ, b :: a :: rest) tok = Ok (σ', stack') →
  ∃ f, stack' = f :: rest
       ∧ step_shape σ σ' [b; a] f (new_edges tok σ (b :: a :: rest))
       ∧ cfg_inv σ' (f :: rest).
Proof.
  intros Htok Hinv Hreg Hstep.
  pose proof (thompson_step_inv _ _ _ _ _ Hinv Hstep) as Hinv'.
  destruct (thompson_step_shape_arity n0 _ _ _ _ _ Hinv Hreg Hstep)
    as (popped & rest' & f & Hstack & -> & Hshape & Hlen).
  rewrite filter_cons_False, filter_cons_True in Hlen
    by (unfold operand, binary; set_solver).
  cbn in Hlen. destruct popped as [|p1 [|p2 [|p3 popped]]]; cbn in Hlen; try lia.
  cbn in Hstack. injection Hstack as <- <- <-. eauto.
Qed.

Lemma shape_unary n0 σ a rest tok σ' stack' :
  tok ∈ [STAR; PLUS; QMARK] →
  cfg_inv σ (a :: rest) →
  region_inv n0 σ (a :: rest) →
  thompson_step (σ, a :: rest) tok = Ok (σ', stack') →
  ∃ f, stack' = f :: rest
       ∧ step_shape σ σ' [a] f (new_edges tok σ (a :: rest))
       ∧ cfg_inv σ' (f :: rest).
Proof.
  intros Htok Hinv Hreg Hstep.
  pose proof (thompson_step_inv _ _ _ _ _ Hinv Hstep) as Hinv'.
  destruct (thompson_step_shape_arity n0 _ _ _ _ _ Hinv Hreg Hstep)
    as (popped & rest' & f & Hstack & -> & Hshape & Hlen).
  rewrite !filter_cons_False in Hlen
    by (unfold operand, binary, BAR, DOT, STAR, PLUS, QMARK in *; set_solver).
  cbn in Hlen. destruct popped as [|p1 [|p2 popped]]; cbn in Hlen; try lia.
  cbn in Hstack. injection Hstack as <- <-. eauto.
Qed.

Local Ltac triple_eq H := injection H; clear H; intros; subst.

Lemma lang_step_BAR n0 σ b a rest σ' stack' :
  cfg_inv σ (b :: a :: rest) →
  region_inv n0 σ (b :: a :: rest) →
  thompson_step (σ, b :: a :: rest) BAR = Ok (σ', stack') →
  ∃ f, stack' = f :: rest
       ∧ ∀ w, EPS ∉ w →
           frag_lang σ' f w ↔ lang_alt (frag_lang σ a) (frag_lang σ b) w.
Proof.
  intros Hinv Hreg Hstep.
  destruct (shape_binary n0 σ b a rest BAR σ' stack') as (f & -> & Hshape & Hinv');
    [set_solver|done..|].
  rewrite thompson_step_BAR in Hstep. cbn zeta in Hstep.
  injection Hstep as _ Hf. subst f.
  unfold new_edges in Hshape. rewrite decide_True in Hshape by done.
  assert (∀ u sym v,
            (u, sym, v) ∈ [(S (_id σ), EPS, frag_start a);
                           (S (_id σ), EPS, frag_start b);
                           (frag_accept a, EPS, S (S (_id σ)));
                           (frag_accept b, EPS, S (S (_id σ)))] →
            sym = EPS) as Heps.
  { intros u sym v H. in_list H; by injection H. }
  pose proof Hinv as (Hok & Hfrags & Hnd).
  apply Forall_cons in Hfrags as [(Hbs & Hba & Hbn & Hbr) Hfrags].
  apply Forall_cons in Hfrags as [(Has & Haa & Han & Har) Hfrags].
  destruct Hinv' as (_ & Hf' & _).
  apply Forall_cons in Hf' as [(_ & _ & Hsink & _) _]. cbn in Hsink.
  assert (∀ x sym y, edge σ x sym y → edge σ' x sym y) as Hmono.
  { intros x sym y H. apply (shape_edges _ _ _ _ _ Hshape). by left. }
  assert (∀ p w, p ∈ [b; a] → EPS ∉ w →
            run σ' (frag_start p) w (S (S (_id σ))) → frag_lang σ p w) as Hexit.
  { intros p w Hp Hw Hr.
    assert (frag_start p ≤ _id σ ∧ frag_accept p ≤ _id σ) as [Hps Hpa].
    { in_list Hp; subst; done. }
    destruct (run_through_popped n0 σ σ' [b; a] rest _ _ Hinv Hreg Hshape Heps
                p (frag_start p) w (S (S (_id σ))) Hp)
      as (w1 & ws & y & w2 & -> & Hr1 & Hws & Hloop & Hout & Hne & Hr2);
      [apply rtc_refl| |done|done|].
    { intros Hin.
      apply (shape_region_bound n0 σ σ' [b; a] rest _ _ Hinv Hreg Hshape p) in Hin;
        [lia|set_solver]. }
    assert (y = S (S (_id σ))) as ->.
    { in_list Hout; triple_eq Hout; first [done|lia]. }
    destruct (run_from_sink σ' _ w2 _ Hsink Hr2) as [-> _].
    destruct ws as [|w0 ws].
    - cbn. by rewrite app_nil_r.
    - exfalso. pose proof (Hloop ltac:(done)) as Hin.
      in_list Hin; triple_eq Hin; lia. }
  eexists. split; [done|]. intros w Hw.
  unfold frag_lang at 1, lang_alt. cbn [frag_start frag_accept]. split.
  - intros Hr.
    destruct (run_from_fresh n0 σ σ' [b; a] rest _ _ Hinv Hreg Hshape Heps
                (S (_id σ)) w (S (S (_id σ)))) as (y & Hy & Hry); [lia|lia|done|done|].
    in_list Hy; triple_eq Hy; try lia.
    + left. apply (Hexit a); [set_solver|done..].
    + right. apply (Hexit b); [set_solver|done..].
  - intros [Hr|Hr].
    + apply (run_eps σ' _ (frag_start a));
        [apply (shape_edges _ _ _ _ _ Hshape); right; set_solver|].
      apply (run_snoc_eps σ' _ _ (frag_accept a));
        [by eapply run_mono|apply (shape_edges _ _ _ _ _ Hshape); right; set_solver].
    + apply (run_eps σ' _ (frag_start b));
        [apply (shape_edges _ _ _ _ _ Hshape); right; set_solver|].
      apply (run_snoc_eps σ' _ _ (frag_accept b));
        [by eapply run_mono|apply (shape_edges _ _ _ _ _ Hshape); right; set_solver].
Qed.

Lemma lang_step_DOT n0 σ b a rest σ' stack' :
  cfg_inv σ (b :: a :: rest) →
  region_inv n0 σ (b :: a :: rest) →
  thompson_step (σ, b :: a :: rest) DOT = Ok (σ', stack') →
  ∃ f, stack' = f :: rest
       ∧ ∀ w, EPS ∉ w →
           frag_lang σ' f w ↔ lang_cat (frag_lang σ a) (frag_lang σ b) w.
Proof.
  intros Hinv Hreg Hstep.
  destruct (shape_binary n0 σ b a rest DOT σ' stack') as (f & -> & Hshape & Hinv');
    [set_solver|done..|].
  rewrite thompson_step_DOT in Hstep. injection Hstep as _ Hf. subst f.
  unfold new_edges in Hshape.
  rewrite decide_False, decide_True in Hshape by done.
  assert (∀ u sym v,
            (u, sym, v) ∈ [(frag_accept a, EPS, frag_start b)] → sym = EPS) as Heps.
  { intros u sym v H. in_list H; by injection H. }
  pose proof Hinv as (Hok & Hfrags & Hnd).
  apply Forall_cons in Hfrags as [(Hbs & Hba & Hbn & Hbr) Hfrags].
  apply Forall_cons in Hfrags as [(Has & Haa & Han & Har) Hfrags].
  apply NoDup_cons in Hnd as [Hab _]. cbn [fmap list_fmap] in Hab.
  assert (frag_accept a ≠ frag_accept b) as Hne by set_solver.
  assert (∀ x, reachable σ (frag_start a) x → reachable σ (frag_start b) x → False)
    as Hdisj.
  { intros x. apply (ri_disjoint _ _ _ Hreg a b x); [set_solver|set_solver|done]. }
  assert (∀ x sym y, edge σ x sym y → edge σ' x sym y) as Hmono.
  { intros x sym y H. apply (shape_edges _ _ _ _ _ Hshape). by left. }
  eexists. split; [done|]. intros w Hw.
  unfold frag_lang at 1, lang_cat. cbn [frag_start frag_accept]. split.
  - intros Hr.
    destruct (run_through_popped n0 σ σ' [b; a] rest _ _ Hinv Hreg Hshape Heps
                a (frag_start a) w (frag_accept b))
      as (w1 & ws & y & w2 & -> & Hr1 & Hws & Hloop & Hout & Hney & Hr2);
      [set_solver|apply rtc_refl| |done|done|].
    { intros Hin. by eapply Hdisj. }
    in_list Hout. triple_eq Hout.
    destruct ws as [|w0 ws].
    + exists w1, w2. split; [done|]. split; [done|].
      apply (run_in_popped n0 σ σ' [b; a] rest _ _ Hinv Hreg Hshape b);
        [set_solver| |apply rtc_refl|done].
      intros sym y Hin. in_list Hin. by triple_eq Hin.
    + exfalso. pose proof (Hloop ltac:(done)) as Hin.
      in_list Hin. triple_eq Hin. congruence.
  - intros (w1 & w2 & -> & Hr1 & Hr2).
    eapply run_app; [|by eapply run_mono].
    apply (run_snoc_eps σ' _ _ (frag_accept a));
      [by eapply run_mono|apply (shape_edges _ _ _ _ _ Hshape); right; set_solver].
Qed.

(** After star or plus, the words read from the operand's exit to the new
    exit are the concatenations of words of the operand. *)
Lemma run_loop σ σ' a (t : State) (ws : list (list char)) :
  (∀ x sym y, edge σ x sym y → edge σ' x sym y) →
  edge σ' (frag_accept a) EPS (frag_start a) →
  edge σ' (frag_accept a) EPS t →
  Forall (frag_lang σ a) ws →
  run σ' (frag_accept a) (concat ws) t.
Proof.
  intros Hmono Hback Hout. induction 1 as [|w0 ws Hw0 _ IH].
  - eapply run_eps; [exact Hout|apply run_nil].
  - cbn [concat]. eapply run_eps; [exact Hback|].
    eapply run_app; [by eapply run_mono|exact IH].
Qed.

Lemma lang_step_STAR n0 σ a rest σ' stack' :
  cfg_inv σ (a :: rest) →
  region_inv n0 σ (a :: rest) →
  thompson_step (σ, a :: rest) STAR = Ok (σ', stack') →
  ∃ f, stack' = f :: rest
       ∧ ∀ w, EPS ∉ w → frag_lang σ' f w ↔ lang_star (frag_lang σ a) w.
Proof.
  intros Hinv Hreg Hstep.
  destruct (shape_unary n0 σ a rest STAR σ' stack') as (f & -> & Hshape & Hinv');
    [set_solver|done..|].
  rewrite thompson_step_STAR in Hstep. cbn zeta in Hstep.
  injection Hstep as _ Hf. subst f.
  unfold new_edges in Hshape.
  rewrite !decide_False, decide_True in Hshape by done.
  assert (∀ u sym v,
            (u, sym, v) ∈ [(S (_id σ), EPS, frag_start a);
                           (S (_id σ), EPS, S (S (_id σ)));
                           (frag_accept a, EPS, frag_start a);
                           (frag_accept a, EPS, S (S (_id σ)))] →
            sym = EPS) as Heps.
  { intros u sym v H. in_list H; by injection H. }
  pose proof Hinv as (Hok & Hfrags & Hnd).
  apply Forall_cons in Hfrags as [(Has & Haa & Han & Har) Hfrags].
  destruct Hinv' as (_ & Hf' & _).
  apply Forall_cons in Hf' as [(_ & _ & Hsink & _) _]. cbn in Hsink.
  assert (∀ x sym y, edge σ x sym y → edge σ' x sym y) as Hmono.
  { intros x sym y H. apply (shape_edges _ _ _ _ _ Hshape). by left. }
  eexists. split; [done|]. intros w Hw.
  unfold frag_lang at 1, lang_star. cbn [frag_start frag_accept]. split.
  - intros Hr.
    destruct (run_from_fresh n0 σ σ' [a] rest _ _ Hinv Hreg Hshape Heps
                (S (_id σ)) w (S (S (_id σ)))) as (y & Hy & Hry); [lia|lia|done|done|].
    in_list Hy; triple_eq Hy; try lia.
    + destruct (run_through_popped n0 σ σ' [a] rest _ _ Hinv Hreg Hshape Heps
                  a (frag_start a) w (S (S (_id σ))))
        as (w1 & ws & y & w2 & -> & Hr1 & Hws & Hloop & Hout & Hney & Hr2);
        [set_solver|apply rtc_refl| |done|done|].
      { intros Hin.
        apply (shape_region_bound n0 σ σ' [a] rest _ _ Hinv Hreg Hshape a) in Hin;
          [lia|set_solver]. }
      assert (y = S (S (_id σ))) as ->.
      { in_list Hout; triple_eq Hout; first [done|lia]. }
      destruct (run_from_sink σ' _ w2 _ Hsink Hr2) as [-> _].
      exists (w1 :: ws). split; [cbn; by rewrite app_nil_r|]. by constructor.
    + destruct (run_from_sink σ' _ w _ Hsink Hry) as [-> _].
      exists []. by split.
  - intros (ws & -> & Hws). destruct Hws as [|w0 ws Hw0 Hws].
    + eapply run_eps; [|apply run_nil].
      apply (shape_edges _ _ _ _ _ Hshape). right. set_solver.
    + cbn [concat].
      apply (run_eps σ' _ (frag_start a));
        [apply (shape_edges _ _ _ _ _ Hshape); right; set_solver|].
      eapply run_app; [by eapply run_mono|].
      apply (run_loop σ σ' a); [done| | |done];
        apply (shape_edges _ _ _ _ _ Hshape); right; set_solver.
Qed.

Lemma lang_step_PLUS n0 σ a rest σ' stack' :
  cfg_inv σ (a :: rest) →
  region_inv n0 σ (a :: rest) →
  thompson_step (σ, a :: rest) PLUS = Ok (σ', stack') →
  ∃ f, stack' = f :: rest
       ∧ ∀ w, EPS ∉ w → frag_lang σ' f w ↔ lang_plus (frag_lang σ a) w.
Proof.
  intros Hinv Hreg Hstep.
  destruct (shape_unary n0 σ a rest PLUS σ' stack') as (f & -> & Hshape & Hinv');
    [set_solver|done..|].
  rewrite thompson_step_PLUS in Hstep. cbn zeta in Hstep.
  injection Hstep as _ Hf. subst f.
  unfold new_edges in Hshape.
  rewrite !decide_False, decide_True in Hshape by done.
  assert (∀ u sym v,
            (u, sym, v) ∈ [(S (_id σ), EPS, frag_start a);
                           (frag_accept a, EPS, frag_start a);
                           (frag_accept a, EPS, S (S (_id σ)))] →
            sym = EPS) as Heps.
  { intros u sym v H. in_list H; by injection H. }
  pose proof Hinv as (Hok & Hfrags & Hnd).
  apply Forall_cons in Hfrags as [(Has & Haa & Han & Har) Hfrags].
  destruct Hinv' as (_ & Hf' & _).
  apply Forall_cons in Hf' as [(_ & _ & Hsink & _) _]. cbn in Hsink.
  assert (∀ x sym y, edge σ x sym y → edge σ' x sym y) as Hmono.
  { intros x sym y H. apply (shape_edges _ _ _ _ _ Hshape). by left. }
  eexists. split; [done|]. intros w Hw.
  unfold frag_lang at 1, lang_plus, lang_cat, lang_star.
  cbn [frag_start frag_accept]. split.
  - intros Hr.
    destruct (run_from_fresh n0 σ σ' [a] rest _ _ Hinv Hreg Hshape Heps
                (S (_id σ)) w (S (S (_id σ)))) as (y & Hy & Hry); [lia|lia|done|done|].
    in_list Hy; triple_eq Hy; try lia.
    destruct (run_through_popped n0 σ σ' [a] rest _ _ Hinv Hreg Hshape Heps
                a (frag_start a) w (S (S (_id σ))))
      as (w1 & ws & y & w2 & -> & Hr1 & Hws & Hloop & Hout & Hney & Hr2);
      [set_solver|apply rtc_refl| |done|done|].
    { intros Hin.
      apply (shape_region_bound n0 σ σ' [a] rest _ _ Hinv Hreg Hshape a) in Hin;
        [lia|set_solver]. }
    assert (y = S (S (_id σ))) as ->.
    { in_list Hout; triple_eq Hout; first [done|lia]. }
    destruct (run_from_sink σ' _ w2 _ Hsink Hr2) as [-> _].
    exists w1, (concat ws). split; [by rewrite app_nil_r|]. split; [done|].
    by exists ws.
  - intros (w1 & w2 & -> & Hr1 & ws & -> & Hws).
    apply (run_eps σ' _ (frag_start a));
      [apply (shape_edges _ _ _ _ _ Hshape); right; set_solver|].
    eapply run_app; [by eapply run_mono|].
    apply (run_loop σ σ' a); [done| | |done];
      apply (shape_edges _ _ _ _ _ Hshape); right; set_solver.
Qed.

Lemma lang_step_QMARK n0 σ a rest σ' stack' :
  cfg_inv σ (a :: rest) →
  region_inv n0 σ (a :: rest) →
  thompson_step (σ, a :: rest) QMARK = Ok (σ', stack') →
  ∃ f, stack' = f :: rest
       ∧ ∀ w, EPS ∉ w → frag_lang σ' f w ↔ lang_opt (frag_lang σ a) w.
Proof.
  intros Hinv Hreg Hstep.
  destruct (shape_unary n0 σ a rest QMARK σ' stack') as (f & -> & Hshape & Hinv');
    [set_solver|done..|].
  rewrite thompson_step_QMARK in Hstep. cbn zeta in Hstep.
  injection Hstep as _ Hf. subst f.
  unfold new_edges in Hshape.
  rewrite !decide_False, decide_True in Hshape by done.
  assert (∀ u sym v,
            (u, sym, v) ∈ [(S (_id σ), EPS, frag_start a);
                           (S (_id σ), EPS, S (S (_id σ)));
                           (frag_accept a, EPS, S (S (_id σ)))] →
            sym = EPS) as Heps.
  { intros u sym v H. in_list H; by injection H. }
  pose proof Hinv as (Hok & Hfrags & Hnd).
  apply Forall_cons in Hfrags as [(Has & Haa & Han & Har) Hfrags].
  destruct Hinv' as (_ & Hf' & _).
  apply Forall_cons in Hf' as [(_ & _ & Hsink & _) _]. cbn in Hsink.
  assert (∀ x sym y, edge σ x sym y → edge σ' x sym y) as Hmono.
  { intros x sym y H. apply (shape_edges _ _ _ _ _ Hshape). by left. }
  eexists. split; [done|]. intros w Hw.
  unfold frag_lang at 1, lang_opt. cbn [frag_start frag_accept]. split.
  - intros Hr.
    destruct (run_from_fresh n0 σ σ' [a] rest _ _ Hinv Hreg Hshape Heps
                (S (_id σ)) w (S (S (_id σ)))) as (y & Hy & Hry); [lia|lia|done|done|].
    in_list Hy; triple_eq Hy; try lia.
    + right.
      destruct (run_through_popped n0 σ σ' [a] rest _ _ Hinv Hreg Hshape Heps
                  a (frag_start a) w (S (S (_id σ))))
        as (w1 & ws & y & w2 & -> & Hr1 & Hws & Hloop & Hout & Hney & Hr2);
        [set_solver|apply rtc_refl| |done|done|].
      { intros Hin.
        apply (shape_region_bound n0 σ σ' [a] rest _ _ Hinv Hreg Hshape a) in Hin;
          [lia|set_solver]. }
      assert (y = S (S (_id σ))) as ->.
      { in_list Hout; triple_eq Hout; first [done|lia]. }
      destruct (run_from_sink σ' _ w2 _ Hsink Hr2) as [-> _].
      destruct ws as [|w0 ws].
      * cbn. by rewrite app_nil_r.
      * exfalso. pose proof (Hloop ltac:(done)) as Hin.
        in_list Hin; triple_eq Hin; lia.
    + left. by destruct (run_from_sink σ' _ w _ Hsink Hry) as [-> _].
  - intros [->|Hr].
    + eapply run_eps; [|apply run_nil].
      apply (shape_edges _ _ _ _ _ Hshape). right. set_solver.
    + apply (run_eps σ' _ (frag_start a));
        [apply (shape_edges _ _ _ _ _ Hshape); right; set_solver|].
      apply (run_snoc_eps σ' _ _ (frag_accept a));
        [by eapply run_mono|apply (shape_edges _ _ _ _ _ Hshape); right; set_solver].
Qed.

Lemma lang_step_symbol σ stack tok σ' stack' :
  operand tok →
  cfg_inv σ stack →
  thompson_step (σ, stack) tok = Ok (σ', stack') →
  ∃ f, stack' = f :: stack
       ∧ ∀ w, EPS ∉ w → frag_lang σ' f w ↔ lang_sym tok w.
Proof.
  intros Htok Hinv Hstep.
  pose proof (thompson_step_inv _ _ _ _ _ Hinv Hstep) as Hinv'.
  pose proof (thompson_step_edges _ _ _ _ _ (proj1 Hinv) Hstep) as Hedges.
  rewrite thompson_step_symbol in Hstep by done.
  injection Hstep as _ <-.
  unfold new_edges in Hedges. unfold operand in Htok.
  rewrite !decide_False in Hedges by set_solver.
  destruct Hinv as ([_ Hedge] & _).
  destruct Hinv' as (_ & Hf' & _).
  apply Forall_cons in Hf' as [(_ & _ & Hsink & _) _]. cbn in Hsink.
  eexists. split; [done|]. intros w Hw.
  unfold frag_lang, lang_sym. cbn [frag_start frag_accept]. split.
  - intros Hr.
    inversion Hr as [u Hu1 Hu2 Hu3|x y w0 z He Hr'|x ch y w0 z He Hr']; subst; [lia|..].
    + apply Hedges in He as [He|He]; [apply Hedge in He; lia|].
      in_list He. triple_eq He.
      destruct (run_from_sink σ' _ w _ Hsink Hr') as [-> _].
      by rewrite decide_True.
    + apply Hedges in He as [He|He]; [apply Hedge in He; lia|].
      in_list He. triple_eq He.
      destruct (run_from_sink σ' _ w0 _ Hsink Hr') as [-> _].
      rewrite decide_False; [done|set_solver].
  - case_decide as Heq.
    + intros ->. subst tok. eapply run_eps; [|apply run_nil].
      apply Hedges. right. set_solver.
    + intros ->. eapply run_sym; [|apply run_nil].
      apply Hedges. right. set_solver.
Qed.

End lang_facts.

(** ** The languages of a postfix sequence *)

Section postfix_lang_facts.

Implicit Types (σ : store) (w : list char) (f g a b : Fragment) (A B L : lang).

Lemma langs_match_rest n0 σ σ' popped rest f extra (Ls : list lang) :
  cfg_inv σ (popped ++ rest) →
  region_inv n0 σ (popped ++ rest) →
  step_shape σ σ' popped f extra →
  langs_match σ rest Ls → langs_match σ' rest Ls.
Proof.
  intros Hinv Hreg Hshape.
  assert (∀ sub Ks, (∀ g, g ∈ sub → g ∈ rest) →
            langs_match σ sub Ks → langs_match σ' sub Ks) as Hgen.
  { intros sub Ks Hsub Hm. unfold langs_match in *.
    induction Hm as [|g L sub Ks Hg _ IH]; [constructor|].
    constructor; [|apply IH; set_solver].
    intros w Hw.
    rewrite (frag_lang_rest n0 σ σ' popped rest f extra Hinv Hreg Hshape g w);
      [auto|set_solver]. }
  by apply Hgen.
Qed.

Lemma lang_cat_ext A B A' B' w :
  EPS ∉ w →
  (∀ w, EPS ∉ w → A w ↔ A' w) → (∀ w, EPS ∉ w → B w ↔ B' w) →
  lang_cat A B w ↔ lang_cat A' B' w.
Proof.
  intros Hw HA HB. unfold lang_cat.
  split; intros (w1 & w2 & -> & H1 & H2); exists w1, w2;
    (split; [done|]); rewrite elem_of_app in Hw;
    (split; [apply HA|apply HB]); tauto.
Qed.

Lemma lang_star_ext A A' w :
  EPS ∉ w → (∀ w, EPS ∉ w → A w ↔ A' w) → lang_star A w ↔ lang_star A' w.
Proof.
  intros Hw HA. unfold lang_star.
  split; intros (ws & -> & Hws); exists ws; (split; [done|]);
    rewrite Forall_forall in *; intros wi Hwi;
    apply HA; [by eapply concat_no_EPS|auto|by eapply concat_no_EPS|auto].
Qed.

Lemma thompson_step_langs n0 σ stack tok σ' stack' (Ls : list lang) :
  cfg_inv σ stack →
  region_inv n0 σ stack →
  langs_match σ stack Ls →
  thompson_step (σ, stack) tok = Ok (σ', stack') →
  ∃ Ls', postfix_lang_step Ls tok = Some Ls' ∧ langs_match σ' stack' Ls'.
Proof.
  intros Hinv Hreg Hm Hstep.
  destruct (thompson_step_shape n0 _ _ _ _ _ Hinv Hreg Hstep)
    as (popped & rest0 & f0 & Hstack & Hstack' & Hshape).
  unfold postfix_lang_step.
  destruct (decide (tok = BAR)) as [->|?].
  { destruct stack as [|b [|a rest]]; [done..|].
    destruct (lang_step_BAR n0 _ _ _ _ _ _ Hinv Hreg Hstep) as (f & -> & Hf).
    apply Forall2_cons_inv_l in Hm as (B & Ls1 & HB & Hm & ->).
    apply Forall2_cons_inv_l in Hm as (A & Ls2 & HA & Hm & ->).
    eexists. split; [done|]. constructor.
    - intros w Hw. rewrite Hf by done. unfold lang_alt. by rewrite HA, HB.
    - injection Hstack' as Hf0 Hrest. subst f0 rest0.
      assert (popped = [b; a]) as ->.
      { apply (app_inv_tail rest). symmetry. exact Hstack. }
      exact (langs_match_rest n0 σ σ' [b; a] rest _ _ _ Hinv Hreg Hshape Hm). }
  destruct (decide (tok = DOT)) as [->|?].
  { destruct stack as [|b [|a rest]]; [done..|].
    destruct (lang_step_DOT n0 _ _ _ _ _ _ Hinv Hreg Hstep) as (f & -> & Hf).
    apply Forall2_cons_inv_l in Hm as (B & Ls1 & HB & Hm & ->).
    apply Forall2_cons_inv_l in Hm as (A & Ls2 & HA & Hm & ->).
    eexists. split; [done|]. constructor.
    - intros w Hw. rewrite Hf by done. by apply lang_cat_ext.
    - injection Hstack' as Hf0 Hrest. subst f0 rest0.
      assert (popped = [b; a]) as ->.
      { apply (app_inv_tail rest). symmetry. exact Hstack. }
      exact (langs_match_rest n0 σ σ' [b; a] rest _ _ _ Hinv Hreg Hshape Hm). }
  destruct (decide (tok = STAR)) as [->|?].
  { destruct stack as [|a rest]; [done|].
    destruct (lang_step_STAR n0 _ _ _ _ _ Hinv Hreg Hstep) as (f & -> & Hf).
    apply Forall2_cons_inv_l in Hm as (A & Ls2 & HA & Hm & ->).
    eexists. split; [done|]. constructor.
    - intros w Hw. rewrite Hf by done. by apply lang_star_ext.
    - injection Hstack' as Hf0 Hrest. subst f0 rest0.
      assert (popped = [a]) as ->.
      { apply (app_inv_tail rest). symmetry. exact Hstack. }
      exact (langs_match_rest n0 σ σ' [a] rest _ _ _ Hinv Hreg Hshape Hm). }
  destruct (decide (tok = PLUS)) as [->|?].
  { destruct stack as [|a rest]; [done|].
    destruct (lang_step_PLUS n0 _ _ _ _ _ Hinv Hreg Hstep) as (f & -> & Hf).
    apply Forall2_cons_inv_l in Hm as (A & Ls2 & HA & Hm & ->).
    eexists. split; [done|]. constructor.
    - intros w Hw. rewrite Hf by done. unfold lang_plus.
      apply lang_cat_ext; [done|done|]. intros w' Hw'. by apply lang_star_ext.
    - injection Hstack' as Hf0 Hrest. subst f0 rest0.
      assert (popped = [a]) as ->.
      { apply (app_inv_tail rest). symmetry. exact Hstack. }
      exact (langs_match_rest n0 σ σ' [a] rest _ _ _ Hinv Hreg Hshape Hm). }
  destruct (decide (tok = QMARK)) as [->|?].
  { destruct stack as [|a rest]; [done|].
    destruct (lang_step_QMARK n0 _ _ _ _ _ Hinv Hreg Hstep) as (f & -> & Hf).
    apply Forall2_cons_inv_l in Hm as (A & Ls2 & HA & Hm & ->).
    eexists. split; [done|]. constructor.
    - intros w Hw. rewrite Hf by done. unfold lang_opt. by rewrite HA.
    - injection Hstack' as Hf0 Hrest. subst f0 rest0.
      assert (popped = [a]) as ->.
      { apply (app_inv_tail rest). symmetry. exact Hstack. }
      exact (langs_match_rest n0 σ σ' [a] rest _ _ _ Hinv Hreg Hshape Hm). }
  destruct (lang_step_symbol σ stack tok σ' stack') as (f & -> & Hf);
    [unfold operand; set_solver|done..|].
  eexists. split; [done|]. constructor; [done|].
  injection Hstack' as Hf0 Hrest. subst f0 rest0.
  assert (popped = []) as ->.
  { apply (app_inv_tail stack). symmetry. exact Hstack. }
  exact (langs_match_rest n0 σ σ' [] stack _ _ _ Hinv Hreg Hshape Hm).
Qed.

Lemma thompson_loop_langs n0 post σ stack σ' stack' (Ls : list lang) :
  cfg_inv σ stack →
  region_inv n0 σ stack →
  langs_match σ stack Ls →
  thompson_loop (σ, stack) post = Ok (σ', stack') →
  ∃ Ls', postfix_langs Ls post = Some Ls' ∧ langs_match σ' stack' Ls'.
Proof.
  revert σ stack Ls. induction post as [|tok post IH]; intros σ stack Ls Hinv Hreg Hm.
  - intros [= <- <-]. by exists Ls.
  - cbn [thompson_loop postfix_langs].
    destruct (thompson_step (σ, stack) tok) as [[σ1 stack1]|] eqn:Hstep; [|done].
    rewrite bind_Ok. intros Hloop.
    destruct (thompson_step_langs n0 _ _ _ _ _ _ Hinv Hreg Hm Hstep) as (Ls1 & -> & Hm1).
    cbn [mbind option_bind]. eapply IH; [| |exact Hm1|exact Hloop].
    + by eapply thompson_step_inv.
    + by eapply thompson_step_region.
Qed.

Lemma thompson_loop_langs_init n post σ stack :
  thompson_loop (Store n ∅, []) post = Ok (σ, stack) →
  ∃ Ls, postfix_langs [] post = Some Ls ∧ langs_match σ stack Ls.
Proof.
  apply (thompson_loop_langs n post (Store n ∅) []).
  - apply cfg_inv_init.
  - apply region_inv_init.
  - constructor.
Qed.

Lemma compile_lang regex σ (nfa : NFA) :
  compile_regex_to_nfa regex = Ok (σ, nfa) →
  ∃ post L,
    to_postfix (add_concat (remove_spaces regex)) = Ok post
    ∧ postfix_langs [] post = Some [L]
    ∧ ∀ w, EPS ∉ w → nfa_accepts σ nfa w = Ok true ↔ L w.
Proof.
  intros Hc. apply compile_regex_to_nfa_Ok in Hc as (post & Hpost & Hb).
  apply thompson_from_postfix_Ok in Hb as (frag & Hloop & Hs & Ha & _).
  destruct (thompson_loop_langs_init 0 post σ [frag] Hloop) as (Ls & HLs & Hm).
  apply Forall2_cons_inv_l in Hm as (L & Ls' & HL & Hm & ->).
  apply Forall2_nil_inv_l in Hm as ->.
  exists post, L. split_and!; [done..|].
  intros w Hw. rewrite nfa_accepts_true_iff, <- (HL w Hw).
  unfold nfa_lang, frag_lang. by rewrite Hs, Ha.
Qed.

End postfix_lang_facts.

(** ** The states of the automaton *)

Section states_facts.

Implicit Types (σ : store) (u v x y z : State) (w : list char) (f g p a b : Fragment).

Lemma low_inv_extend n0 σ σ' popped rest f extra :
  region_inv n0 σ (popped ++ rest) →
  step_shape σ σ' popped f extra →
  low_inv n0 σ (popped ++ rest) → low_inv n0 σ' (f :: rest).
Proof.
  intros Hreg Hshape [Hedge Hstarts].
  pose proof (ri_low _ _ _ Hreg) as Hlow.
  rewrite Forall_forall in Hstarts.
  assert (∀ v, _id σ < v ≤ _id σ' ∨ v ∈ frag_start <$> popped → n0 < v) as Hnew.
  { intros v [?|Hin]; [lia|].
    apply list_elem_of_fmap in Hin as (p & -> & Hp). apply Hstarts. set_solver. }
  split.
  - intros u sym v Huv. apply (shape_edges _ _ _ _ _ Hshape) in Huv as [Huv|Huv].
    + by eapply Hedge.
    + apply Hnew. by eapply (shape_tgt _ _ _ _ _ Hshape).
  - constructor.
    + apply Hnew, (shape_start _ _ _ _ _ Hshape).
    + apply Forall_forall. intros g Hg. apply Hstarts. set_solver.
Qed.

Lemma low_inv_init n : low_inv n (Store n ∅) [].
Proof.
  split; [|constructor]. intros u sym v H. apply edge_dom in H. cbn in H. set_solver.
Qed.

Lemma thompson_loop_low n0 σ stack post σ' stack' :
  cfg_inv σ stack → region_inv n0 σ stack → low_inv n0 σ stack →
  thompson_loop (σ, stack) post = Ok (σ', stack') →
  low_inv n0 σ' stack'.
Proof.
  revert σ stack. induction post as [|tok post IH]; intros σ stack Hinv Hreg Hlow.
  - by intros [= <- <-].
  - cbn [thompson_loop].
    destruct (thompson_step (σ, stack) tok) as [[σ1 stack1]|] eqn:Hstep; [|done].
    rewrite bind_Ok. apply IH.
    + by eapply thompson_step_inv.
    + by eapply thompson_step_region.
    + destruct (thompson_step_shape n0 _ _ _ _ _ Hinv Hreg Hstep)
        as (popped & rest & f & -> & -> & Hshape).
      by eapply low_inv_extend.
Qed.

Lemma low_inv_reachable n0 σ stack f x :
  low_inv n0 σ stack → f ∈ stack → reachable σ (frag_start f) x → n0 < x.
Proof.
  intros [Hedge Hstarts] Hf Hr. rewrite Forall_forall in Hstarts.
  destruct (rtc_inv_r _ _ Hr) as [<-|(y & _ & sym & Hyx)]; [auto|].
  by eapply Hedge.
Qed.

(** The invariants of a configuration the loop reaches from a fresh
    heap. *)
Lemma thompson_loop_invariants n post σ stack :
  thompson_loop (Store n ∅, []) post = Ok (σ, stack) →
  cfg_inv σ stack ∧ region_inv n σ stack ∧ low_inv n σ stack.
Proof.
  intros Hloop. split_and!.
  - eapply thompson_loop_inv; [apply (cfg_inv_init n)|done].
  - eapply thompson_loop_region; [apply (cfg_inv_init n)|apply region_inv_init|done].
  - eapply thompson_loop_low;
      [apply (cfg_inv_init n)|apply region_inv_init|apply low_inv_init|done].
Qed.

Lemma compile_states regex σ (nfa : NFA) :
  compile_regex_to_nfa regex = Ok (σ, nfa) →
  ∃ post,
    to_postfix (add_concat (remove_spaces regex)) = Ok post
    ∧ (∀ q, q ∈ nfa_states nfa ↔ 1 ≤ q ≤ _id σ)
    ∧ _id σ = 2 * length (filter (λ t, t ≠ DOT) post)
    ∧ size (nfa_states nfa) = _id σ.
Proof.
  intros Hc. apply compile_regex_to_nfa_Ok in Hc as (post & Hpost & Hb).
  apply thompson_from_postfix_Ok in Hb as (frag & Hloop & Hs & Ha & Hdfs).
  destruct (dfs_reachable σ (frag_start frag)) as (V & HV & Hreach).
  rewrite HV in Hdfs. injection Hdfs as HVeq.
  destruct (thompson_loop_invariants 0 post σ [frag] Hloop) as (Hinv & Hreg & Hlow).
  assert (∀ q, q ∈ nfa_states nfa ↔ 1 ≤ q ≤ _id σ) as Hstates.
  { intros q. rewrite <- HVeq, Hreach. split.
    - intros Hr. split.
      + apply (low_inv_reachable 0 σ [frag] frag q Hlow) in Hr; [lia|set_solver].
      + eapply reachable_bound; [apply Hinv| |done].
        destruct Hinv as (_ & Hfrags & _).
        by apply Forall_cons in Hfrags as [(? & _) _].
    - intros Hq. destruct (ri_cover _ _ _ Hreg q) as (g & Hg & Hgq); [cbn; lia|].
      apply list_elem_of_singleton in Hg as ->. done. }
  exists post. split_and!; [done|done| |].
  - apply thompson_loop_count in Hloop as [Hid _]. cbn in Hid. lia.
  - assert (nfa_states nfa = list_to_set (seq 1 (_id σ))) as ->.
    { apply set_eq. intros q. rewrite Hstates, elem_of_list_to_set, elem_of_seq. lia. }
    rewrite size_list_to_set by apply NoDup_seq. apply length_seq.
Qed.

Lemma compile_structure regex σ (nfa : NFA) :
  compile_regex_to_nfa regex = Ok (σ, nfa) →
  (∀ sym v, ¬ edge σ (nfa_accept nfa) sym v)
  ∧ (∀ u sym, ¬ edge σ u sym (nfa_start nfa))
  ∧ (∀ u, ∃ l : list (char * State),
       length l ≤ 2 ∧ ∀ sym v, edge σ u sym v → (sym, v) ∈ l).
Proof.
  intros Hc. apply compile_regex_to_nfa_Ok in Hc as (post & Hpost & Hb).
  apply thompson_from_postfix_Ok in Hb as (frag & Hloop & Hs & Ha & _).
  destruct (thompson_loop_invariants 0 post σ [frag] Hloop) as (Hinv & Hreg & _).
  destruct Hinv as (_ & Hfrags & _).
  apply Forall_cons in Hfrags as [(_ & _ & Hsink & _) _].
  rewrite Hs, Ha. split_and!.
  - exact Hsink.
  - intros u sym. apply (ri_no_incoming _ _ _ Hreg frag). set_solver.
  - apply (ri_degree _ _ _ Hreg).
Qed.

Lemma elem_of_alphabet σ u sym v : edge σ u sym v → sym ∈ alphabet σ.
Proof.
  intros H. apply edge_lookup in H as (es & succs & Hu & Hs & _).
  unfold alphabet. apply elem_of_union_list. exists (dom es). split.
  - apply list_elem_of_fmap. exists (u, es). split; [done|].
    by apply elem_of_map_to_list.
  - apply elem_of_dom. eauto.
Qed.

(** The words of the fragments left on the stack do not change. *)
Lemma thompson_step_frame n0 σ stack tok σ' stack' :
  cfg_inv σ stack → region_inv n0 σ stack →
  thompson_step (σ, stack) tok = Ok (σ', stack') →
  ∃ popped rest f,
    stack = popped ++ rest ∧ stack' = f :: rest
    ∧ length popped + length (filter operand [tok])
      = 1 + length (filter binary [tok])
    ∧ ∀ g w, g ∈ rest → frag_lang σ' g w ↔ frag_lang σ g w.
Proof.
  intros Hinv Hreg Hstep.
  destruct (thompson_step_shape_arity n0 _ _ _ _ _ Hinv Hreg Hstep)
    as (popped & rest & f & -> & -> & Hshape & Hlen).
  exists popped, rest, f. split_and!; [done..|].
  intros g w Hg.
  by apply (frag_lang_rest n0 σ σ' popped rest f _ Hinv Hreg Hshape).
Qed.

End states_facts.

(** ** The transitions the binary operators and the operands add *)

Section more_edges.

Implicit Types (σ : store) (u v : State) (sym : char) (f a b : Fragment).

Lemma step_edges_get_eq σ stack tok σ' stack' u sym (X : gset State) :
  store_ok σ →
  thompson_step (σ, stack) tok = Ok (σ', stack') →
  (∀ x, x ∈ X ↔ edge σ u sym x ∨ (u, sym, x) ∈ new_edges tok σ stack) →
  edges_get σ' u sym = X.
Proof.
  intros Hok Hstep HX. apply set_eq. intros x.
  change (x ∈ edges_get σ' u sym) with (edge σ' u sym x).
  by rewrite (thompson_step_edges _ _ _ _ _ Hok Hstep), HX.
Qed.

Local Ltac in_list H :=
  rewrite ?elem_of_cons, elem_of_nil in H; destruct_or!; try done.
Local Ltac triple_eq H := injection H; clear H; intros; subst.

Lemma alternation_edges n pre σ b a rest :
  thompson_loop (Store n ∅, []) pre = Ok (σ, b :: a :: rest) →
  ∃ σ',
    thompson_step (σ, b :: a :: rest) BAR
    = Ok (σ', mkFragment (S (_id σ)) (S (S (_id σ))) :: rest)
    ∧ (S (_id σ) ∉ dom (heap σ)) ∧ (S (S (_id σ)) ∉ dom (heap σ))
    ∧ edges_get σ' (S (_id σ)) EPS = {[frag_start a; frag_start b]}
    ∧ edges_get σ' (frag_accept a) EPS = {[S (S (_id σ))]}
    ∧ edges_get σ' (frag_accept b) EPS = {[S (S (_id σ))]}
    ∧ (∀ u sym,
         ¬ (sym = EPS ∧ (u = S (_id σ) ∨ u = frag_accept a ∨ u = frag_accept b)) →
         edges_get σ' u sym = edges_get σ u sym).
Proof.
  intros Hloop.
  destruct (thompson_loop_invariants n pre σ _ Hloop) as (Hinv & _ & _).
  pose proof Hinv as (Hok & Hfrags & Hnd). pose proof Hok as [Hdom Hedge].
  apply Forall_cons in Hfrags as [(Hbs & Hba & Hbn & _) Hfrags].
  apply Forall_cons in Hfrags as [(Has & Haa & Han & _) _].
  eexists. split; [apply thompson_step_BAR|]. cbn zeta.
  pose proof (thompson_step_BAR σ b a rest) as Hstep. cbn zeta in Hstep.
  split_and!.
  - intros H. apply Hdom in H. lia.
  - intros H. apply Hdom in H. lia.
  - apply (step_edges_get_eq _ _ _ _ _ _ _ _ Hok Hstep). intros x.
    unfold new_edges. rewrite decide_True by done. set_unfold. split.
    + intros [->| ->]; auto 10.
    + intros H. destruct_or!; try triple_eq H; auto; try lia.
      apply Hedge in H. lia.
  - apply (step_edges_get_eq _ _ _ _ _ _ _ _ Hok Hstep). intros x.
    unfold new_edges. rewrite decide_True by done. set_unfold. split.
    + intros ->. auto 10.
    + intros H. destruct_or!; try triple_eq H; auto; try lia.
      by apply Han in H.
  - apply (step_edges_get_eq _ _ _ _ _ _ _ _ Hok Hstep). intros x.
    unfold new_edges. rewrite decide_True by done. set_unfold. split.
    + intros ->. auto 10.
    + intros H. destruct_or!; try triple_eq H; auto; try lia.
      by apply Hbn in H.
  - intros u sym Hother.
    apply (step_edges_get_eq _ _ _ _ _ _ _ _ Hok Hstep). intros x.
    unfold new_edges. rewrite decide_True by done.
    change (x ∈ edges_get σ u sym) with (edge σ u sym x). split; [auto|].
    intros [H|H]; [done|]. exfalso. apply Hother.
    in_list H; triple_eq H; auto.
Qed.

Lemma concatenation_edges n pre σ b a rest :
  thompson_loop (Store n ∅, []) pre = Ok (σ, b :: a :: rest) →
  ∃ σ',
    thompson_step (σ, b :: a :: rest) DOT
    = Ok (σ', mkFragment (frag_start a) (frag_accept b) :: rest)
    ∧ _id σ' = _id σ
    ∧ edges_get σ' (frag_accept a) EPS = {[frag_start b]}
    ∧ (∀ sym, edges_get σ' (frag_accept b) sym = ∅)
    ∧ (∀ u sym, ¬ (sym = EPS ∧ u = frag_accept a) →
         edges_get σ' u sym = edges_get σ u sym).
Proof.
  intros Hloop.
  destruct (thompson_loop_invariants n pre σ _ Hloop) as (Hinv & _ & _).
  pose proof Hinv as (Hok & Hfrags & Hnd). pose proof Hok as [Hdom Hedge].
  apply Forall_cons in Hfrags as [(Hbs & Hba & Hbn & _) Hfrags].
  apply Forall_cons in Hfrags as [(Has & Haa & Han & _) _].
  apply NoDup_cons in Hnd as [Hne _]. cbn [fmap list_fmap] in Hne.
  eexists. split; [apply thompson_step_DOT|].
  pose proof (thompson_step_DOT σ b a rest) as Hstep.
  split_and!.
  - reflexivity.
  - apply (step_edges_get_eq _ _ _ _ _ _ _ _ Hok Hstep). intros x.
    unfold new_edges. rewrite decide_False, decide_True by done. set_unfold. split.
    + intros ->. auto.
    + intros H. destruct_or!; try triple_eq H; auto. by apply Han in H.
  - intros sym. apply (step_edges_get_eq _ _ _ _ _ _ _ _ Hok Hstep). intros x.
    unfold new_edges. rewrite decide_False, decide_True by done. set_unfold. split.
    + done.
    + intros H. destruct_or!; try triple_eq H; [by apply Hbn in H|].
      apply Hne. set_solver.
  - intros u sym Hother.
    apply (step_edges_get_eq _ _ _ _ _ _ _ _ Hok Hstep). intros x.
    unfold new_edges. rewrite decide_False, decide_True by done.
    change (x ∈ edges_get σ u sym) with (edge σ u sym x). split; [auto|].
    intros [H|H]; [done|]. exfalso. apply Hother.
    in_list H; triple_eq H; auto.
Qed.

Lemma operand_edges n pre σ stack tok :
  thompson_loop (Store n ∅, []) pre = Ok (σ, stack) →
  operand tok →
  ∃ σ',
    thompson_step (σ, stack) tok
    = Ok (σ', mkFragment (S (_id σ)) (S (S (_id σ))) :: stack)
    ∧ (S (_id σ) ∉ dom (heap σ)) ∧ (S (S (_id σ)) ∉ dom (heap σ))
    ∧ edges_get σ' (S (_id σ)) tok = {[S (S (_id σ))]}
    ∧ (∀ sym, sym ≠ tok → edges_get σ' (S (_id σ)) sym = ∅)
    ∧ (∀ sym, edges_get σ' (S (S (_id σ))) sym = ∅)
    ∧ (∀ u sym, u ≠ S (_id σ) → edges_get σ' u sym = edges_get σ u sym).
Proof.
  intros Hloop Htok.
  destruct (thompson_loop_invariants n pre σ _ Hloop) as (Hinv & _ & _).
  pose proof Hinv as (Hok & _ & _). pose proof Hok as [Hdom Hedge].
  pose proof (thompson_step_symbol σ stack tok Htok) as Hstep.
  eexists. split; [exact Hstep|].
  assert (∀ u sym x,
            (u, sym, x) ∈ new_edges tok σ stack
            ↔ (u, sym, x) = (S (_id σ), tok, S (S (_id σ)))) as Hnew.
  { intros u sym x. unfold new_edges, operand in *.
    rewrite !decide_False by set_solver. set_solver. }
  split_and!.
  - intros H. apply Hdom in H. lia.
  - intros H. apply Hdom in H. lia.
  - apply (step_edges_get_eq _ _ _ _ _ _ _ _ Hok Hstep). intros x.
    rewrite Hnew. set_unfold. split.
    + intros ->. auto.
    + intros [H|H]; [apply Hedge in H; lia|by triple_eq H].
  - intros sym Hsym. apply (step_edges_get_eq _ _ _ _ _ _ _ _ Hok Hstep). intros x.
    rewrite Hnew. set_unfold. split; [done|].
    intros [H|H]; [apply Hedge in H; lia|by triple_eq H].
  - intros sym. apply (step_edges_get_eq _ _ _ _ _ _ _ _ Hok Hstep). intros x.
    rewrite Hnew. set_unfold. split; [done|].
    intros [H|H]; [apply Hedge in H; lia|triple_eq H; lia].
  - intros u sym Hu. apply (step_edges_get_eq _ _ _ _ _ _ _ _ Hok Hstep). intros x.
    rewrite Hnew. change (x ∈ edges_get σ u sym) with (edge σ u sym x).
    split; [auto|]. intros [H|H]; [done|by triple_eq H].
Qed.

End more_edges.

(** * Further properties of the construction and of the simulator *)

(** X10. A word that holds a character labelling no transition of the
    heap is rejected, whatever the automaton: [move] finds no target for
    it, and the loop of [nfa_accepts] then stops with [False]. *)
Theorem unknown_symbol_is_rejected (σ : store) (nfa : NFA) (w : list char) (ch : char) :
  ch ∈ w → ch ∉ alphabet σ → nfa_accepts σ nfa w = Ok false.
Proof.
  intros Hin Hch.
  destruct (nfa_accepts_run σ nfa w) as ([] & Hr & Hiff); [|done].
  exfalso. apply Hch.
  destruct (run_labels σ _ w _ ch (proj1 Hiff eq_refl) Hin) as (a & b & He).
  by eapply elem_of_alphabet.
Qed.

Lemma unknown_symbol_is_rejected_witness :
  (98%N ∈ [98%N]) ∧ (98%N ∉ alphabet store_a)
  ∧ nfa_accepts store_a nfa_a [98%N] = Ok false.
Proof.
  assert (98%N ∈ [98%N]) as Hin by (apply list_elem_of_here).
  assert (98%N ∉ alphabet store_a) as Hch
    by (apply (bool_decide_unpack _); vm_compute; exact I).
  split; [exact Hin|]. split; [exact Hch|].
  exact (unknown_symbol_is_rejected store_a nfa_a [98%N] 98%N Hin Hch).
Defined.

(** X13. Alternation, transitions.  In a configuration the loop reaches
    with two fragments [a] (below) and [b] (on top), the token [|] allocates
    two states absent from the heap, pushes the fragment they delimit, and
    adds exactly four epsilon transitions: from the new start to the starts
    of [a] and [b], and from each of the two old accept states to the new
    accept state; every other successor set is unchanged. *)
Theorem alternation_fragment (n : nat) (pre : list char) (σ : store)
    (b a : Fragment) (rest : list Fragment) :
  thompson_loop (Store n ∅, []) pre = Ok (σ, b :: a :: rest) →
  ∃ σ',
    thompson_step (σ, b :: a :: rest) BAR
    = Ok (σ', mkFragment (S (_id σ)) (S (S (_id σ))) :: rest)
    ∧ (S (_id σ) ∉ dom (heap σ)) ∧ (S (S (_id σ)) ∉ dom (heap σ))
    ∧ edges_get σ' (S (_id σ)) EPS = {[frag_start a; frag_start b]}
    ∧ edges_get σ' (frag_accept a) EPS = {[S (S (_id σ))]}
    ∧ edges_get σ' (frag_accept b) EPS = {[S (S (_id σ))]}
    ∧ (∀ u sym,
         ¬ (sym = EPS ∧ (u = S (_id σ) ∨ u = frag_accept a ∨ u = frag_accept b)) →
         edges_get σ' u sym = edges_get σ u sym).
Proof. apply alternation_edges. Qed.

Lemma alternation_fragment_witness :
  thompson_loop (Store 0 ∅, []) [97; 98]%N
  = Ok (store_ab, [mkFragment 3 4; mkFragment 1 2])
  ∧ ∃ σ',
      thompson_step (store_ab, [mkFragment 3 4; mkFragment 1 2]) BAR
      = Ok (σ', [mkFragment 5 6])
      ∧ (5 ∉ dom (heap store_ab)) ∧ (6 ∉ dom (heap store_ab))
      ∧ edges_get σ' 5 EPS = {[1; 3]}
      ∧ edges_get σ' 2 EPS = {[6]}
      ∧ edges_get σ' 4 EPS = {[6]}
      ∧ (∀ u sym, ¬ (sym = EPS ∧ (u = 5 ∨ u = 2 ∨ u = 4)) →
           edges_get σ' u sym = edges_get store_ab u sym).
Proof.
  assert (thompson_loop (Store 0 ∅, []) [97; 98]%N
          = Ok (store_ab, [mkFragment 3 4; mkFragment 1 2]))
    as Hloop by (vm_compute; reflexivity).
  split; [exact Hloop|].
  exact (alternation_fragment 0 [97; 98]%N store_ab
           (mkFragment 3 4) (mkFragment 1 2) [] Hloop).
Defined.

(** X14. Alternation, words.  After the token [|] the fragment on top of
    the stack reads exactly the words read by one of the two fragments it
    replaces (words without the empty-string marker, which the simulator
    would follow as an epsilon transition). *)
Theorem alternation_language (n : nat) (pre : list char) (σ : store)
    (b a : Fragment) (rest : list Fragment) :
  thompson_loop (Store n ∅, []) pre = Ok (σ, b :: a :: rest) →
  ∃ σ' f,
    thompson_step (σ, b :: a :: rest) BAR = Ok (σ', f :: rest)
    ∧ ∀ w, EPS ∉ w →
        frag_lang σ' f w ↔ lang_alt (frag_lang σ a) (frag_lang σ b) w.
Proof.
  intros Hloop.
  destruct (thompson_loop_invariants n pre σ _ Hloop) as (Hinv & Hreg & _).
  pose proof (thompson_step_BAR σ b a rest) as Hstep. cbn zeta in Hstep.
  destruct (lang_step_BAR n σ b a rest _ _ Hinv Hreg Hstep) as (f & Hf & HL).
  eexists _, f. split; [|exact HL]. rewrite Hstep. by rewrite Hf.
Qed.

Lemma alternation_language_witness :
  thompson_loop (Store 0 ∅, []) [97; 98]%N
  = Ok (store_ab, [mkFragment 3 4; mkFragment 1 2])
  ∧ ∃ σ' f,
      thompson_step (store_ab, [mkFragment 3 4; mkFragment 1 2]) BAR
      = Ok (σ', [f])
      ∧ ∀ w, EPS ∉ w →
          frag_lang σ' f w
          ↔ lang_alt (frag_lang store_ab (mkFragment 1 2))
                     (frag_lang store_ab (mkFragment 3 4)) w.
Proof.
  assert (thompson_loop (Store 0 ∅, []) [97; 98]%N
          = Ok (store_ab, [mkFragment 3 4; mkFragment 1 2]))
    as Hloop by (vm_compute; reflexivity).
  split; [exact Hloop|].
  exact (alternation_language 0 [97; 98]%N store_ab
           (mkFragment 3 4) (mkFragment 1 2) [] Hloop).
Defined.

(** X15. Concatenation, transitions.  The token [.] allocates no state:
    it adds the single epsilon transition from the accept state of [a] to
    the start of [b] and pushes the fragment from the start of [a] to the
    accept state of [b], which still has no outgoing transition. *)
Theorem concatenation_fragment (n : nat) (pre : list char) (σ : store)
    (b a : Fragment) (rest : list Fragment) :
  thompson_loop (Store n ∅, []) pre = Ok (σ, b :: a :: rest) →
  ∃ σ',
    thompson_step (σ, b :: a :: rest) DOT
    = Ok (σ', mkFragment (frag_start a) (frag_accept b) :: rest)
    ∧ _id σ' = _id σ
    ∧ edges_get σ' (frag_accept a) EPS = {[frag_start b]}
    ∧ (∀ sym, edges_get σ' (frag_accept b) sym = ∅)
    ∧ (∀ u sym, ¬ (sym = EPS ∧ u = frag_accept a) →
         edges_get σ' u sym = edges_get σ u sym).
Proof. apply concatenation_edges. Qed.

Lemma concatenation_fragment_witness :
  thompson_loop (Store 0 ∅, []) [97; 98]%N
  = Ok (store_ab, [mkFragment 3 4; mkFragment 1 2])
  ∧ ∃ σ',
      thompson_step (store_ab, [mkFragment 3 4; mkFragment 1 2]) DOT
      = Ok (σ', [mkFragment 1 4])
      ∧ _id σ' = 4
      ∧ edges_get σ' 2 EPS = {[3]}
      ∧ (∀ sym, edges_get σ' 4 sym = ∅)
      ∧ (∀ u sym, ¬ (sym = EPS ∧ u = 2) →
           edges_get σ' u sym = edges_get store_ab u sym).
Proof.
  assert (thompson_loop (Store 0 ∅, []) [97; 98]%N
          = Ok (store_ab, [mkFragment 3 4; mkFragment 1 2]))
    as Hloop by (vm_compute; reflexivity).
  split; [exact Hloop|].
  exact (concatenation_fragment 0 [97; 98]%N store_ab
           (mkFragment 3 4) (mkFragment 1 2) [] Hloop).
Defined.

(** X16. Concatenation, words.  After the token [.] the fragment on top
    reads exactly the words made of a word of [a] followed by a word of
    [b], where [b] was on top and [a] below it. *)
Theorem concatenation_language (n : nat) (pre : list char) (σ : store)
    (b a : Fragment) (rest : list Fragment) :
  thompson_loop (Store n ∅, []) pre = Ok (σ, b :: a :: rest) →
  ∃ σ' f,
    thompson_step (σ, b :: a :: rest) DOT = Ok (σ', f :: rest)
    ∧ ∀ w, EPS ∉ w →
        frag_lang σ' f w ↔ lang_cat (frag_lang σ a) (frag_lang σ b) w.
Proof.
  intros Hloop.
  destruct (thompson_loop_invariants n pre σ _ Hloop) as (Hinv & Hreg & _).
  pose proof (thompson_step_DOT σ b a rest) as Hstep.
  destruct (lang_step_DOT n σ b a rest _ _ Hinv Hreg Hstep) as (f & Hf & HL).
  eexists _, f. split; [|exact HL]. rewrite Hstep. by rewrite Hf.
Qed.

Lemma concatenation_language_witness :
  thompson_loop (Store 0 ∅, []) [97; 98]%N
  = Ok (store_ab, [mkFragment 3 4; mkFragment 1 2])
  ∧ ∃ σ' f,
      thompson_step (store_ab, [mkFragment 3 4; mkFragment 1 2]) DOT
      = Ok (σ', [f])
      ∧ ∀ w, EPS ∉ w →
          frag_lang σ' f w
          ↔ lang_cat (frag_lang store_ab (mkFragment 1 2))
                     (frag_lang store_ab (mkFragment 3 4)) w.
Proof.
  assert (thompson_loop (Store 0 ∅, []) [97; 98]%N
          = Ok (store_ab, [mkFragment 3 4; mkFragment 1 2]))
    as Hloop by (vm_compute; reflexivity).
  split; [exact Hloop|].
  exact (concatenation_language 0 [97; 98]%N store_ab
           (mkFragment 3 4) (mkFragment 1 2) [] Hloop).
Defined.

(** X17. Kleene star, words.  After the token [*] the fragment on top
    reads exactly the concatenations of zero or more words of the fragment
    it replaces. *)
Theorem star_language (n : nat) (pre : list char) (σ : store)
    (a : Fragment) (rest : list Fragment) :
  thompson_loop (Store n ∅, []) pre = Ok (σ, a :: rest) →
  ∃ σ' f,
    thompson_step (σ, a :: rest) STAR = Ok (σ', f :: rest)
    ∧ ∀ w, EPS ∉ w → frag_lang σ' f w ↔ lang_star (frag_lang σ a) w.
Proof.
  intros Hloop.
  destruct (thompson_loop_invariants n pre σ _ Hloop) as (Hinv & Hreg & _).
  pose proof (thompson_step_STAR σ a rest) as Hstep. cbn zeta in Hstep.
  destruct (lang_step_STAR n σ a rest _ _ Hinv Hreg Hstep) as (f & Hf & HL).
  eexists _, f. split; [|exact HL]. rewrite Hstep. by rewrite Hf.
Qed.

Lemma star_language_witness :
  thompson_loop (Store 0 ∅, []) [97%N] = Ok (store_a, [mkFragment 1 2])
  ∧ ∃ σ' f,
      thompson_step (store_a, [mkFragment 1 2]) STAR = Ok (σ', [f])
      ∧ ∀ w, EPS ∉ w →
          frag_lang σ' f w ↔ lang_star (frag_lang store_a (mkFragment 1 2)) w.
Proof.
  assert (thompson_loop (Store 0 ∅, []) [97%N] = Ok (store_a, [mkFragment 1 2]))
    as Hloop by (vm_compute; reflexivity).
  split; [exact Hloop|].
  exact (star_language 0 [97%N] store_a (mkFragment 1 2) [] Hloop).
Defined.

(** X18. Plus, words.  After the token [+] the fragment on top reads
    exactly the concatenations of one or more words of the fragment it
    replaces: a word of that fragment followed by a word of its star. *)
Theorem plus_language (n : nat) (pre : list char) (σ : store)
    (a : Fragment) (rest : list Fragment) :
  thompson_loop (Store n ∅, []) pre = Ok (σ, a :: rest) →
  ∃ σ' f,
    thompson_step (σ, a :: rest) PLUS = Ok (σ', f :: rest)
    ∧ ∀ w, EPS ∉ w → frag_lang σ' f w ↔ lang_plus (frag_lang σ a) w.
Proof.
  intros Hloop.
  destruct (thompson_loop_invariants n pre σ _ Hloop) as (Hinv & Hreg & _).
  pose proof (thompson_step_PLUS σ a rest) as Hstep. cbn zeta in Hstep.
  destruct (lang_step_PLUS n σ a rest _ _ Hinv Hreg Hstep) as (f & Hf & HL).
  eexists _, f. split; [|exact HL]. rewrite Hstep. by rewrite Hf.
Qed.

Lemma plus_language_witness :
  thompson_loop (Store 0 ∅, []) [97%N] = Ok (store_a, [mkFragment 1 2])
  ∧ ∃ σ' f,
      thompson_step (store_a, [mkFragment 1 2]) PLUS = Ok (σ', [f])
      ∧ ∀ w, EPS ∉ w →
          frag_lang σ' f w ↔ lang_plus (frag_lang store_a (mkFragment 1 2)) w.
Proof.
  assert (thompson_loop (Store 0 ∅, []) [97%N] = Ok (store_a, [mkFragment 1 2]))
    as Hloop by (vm_compute; reflexivity).
  split; [exact Hloop|].
  exact (plus_language 0 [97%N] store_a (mkFragment 1 2) [] Hloop).
Defined.

(** X19. Optional, words.  After the token [?] the fragment on top reads
    exactly the empty word and the words of the fragment it replaces. *)
Theorem optional_language (n : nat) (pre : list char) (σ : store)
    (a : Fragment) (rest : list Fragment) :
  thompson_loop (Store n ∅, []) pre = Ok (σ, a :: rest) →
  ∃ σ' f,
    thompson_step (σ, a :: rest) QMARK = Ok (σ', f :: rest)
    ∧ ∀ w, EPS ∉ w → frag_lang σ' f w ↔ lang_opt (frag_lang σ a) w.
Proof.
  intros Hloop.
  destruct (thompson_loop_invariants n pre σ _ Hloop) as (Hinv & Hreg & _).
  pose proof (thompson_step_QMARK σ a rest) as Hstep. cbn zeta in Hstep.
  destruct (lang_step_QMARK n σ a rest _ _ Hinv Hreg Hstep) as (f & Hf & HL).
  eexists _, f. split; [|exact HL]. rewrite Hstep. by rewrite Hf.
Qed.

Lemma optional_language_witness :
  thompson_loop (Store 0 ∅, []) [97%N] = Ok (store_a, [mkFragment 1 2])
  ∧ ∃ σ' f,
      thompson_step (store_a, [mkFragment 1 2]) QMARK = Ok (σ', [f])
      ∧ ∀ w, EPS ∉ w →
          frag_lang σ' f w ↔ lang_opt (frag_lang store_a (mkFragment 1 2)) w.
Proof.
  assert (thompson_loop (Store 0 ∅, []) [97%N] = Ok (store_a, [mkFragment 1 2]))
    as Hloop by (vm_compute; reflexivity).
  split; [exact Hloop|].
  exact (optional_language 0 [97%N] store_a (mkFragment 1 2) [] Hloop).
Defined.

(** X20. Operand, transitions.  A token that is none of the five
    operators (a literal, the empty-string marker, or a stray parenthesis)
    pops nothing: it allocates two states absent from the heap, joins them
    by one transition labelled with the token, and pushes that fragment;
    the new accept state has no outgoing transition and no other successor
    set changes. *)
Theorem operand_fragment (n : nat) (pre : list char) (σ : store)
    (stack : list Fragment) (tok : char) :
  thompson_loop (Store n ∅, []) pre = Ok (σ, stack) →
  operand tok →
  ∃ σ',
    thompson_step (σ, stack) tok
    = Ok (σ', mkFragment (S (_id σ)) (S (S (_id σ))) :: stack)
    ∧ (S (_id σ) ∉ dom (heap σ)) ∧ (S (S (_id σ)) ∉ dom (heap σ))
    ∧ edges_get σ' (S (_id σ)) tok = {[S (S (_id σ))]}
    ∧ (∀ sym, sym ≠ tok → edges_get σ' (S (_id σ)) sym = ∅)
    ∧ (∀ sym, edges_get σ' (S (S (_id σ))) sym = ∅)
    ∧ (∀ u sym, u ≠ S (_id σ) → edges_get σ' u sym = edges_get σ u sym).
Proof. apply operand_edges. Qed.

Lemma operand_fragment_witness :
  thompson_loop (Store 0 ∅, []) [97%N] = Ok (store_a, [mkFragment 1 2])
  ∧ operand 98%N
  ∧ ∃ σ',
      thompson_step (store_a, [mkFragment 1 2]) 98%N
      = Ok (σ', [mkFragment 3 4; mkFragment 1 2])
      ∧ (3 ∉ dom (heap store_a)) ∧ (4 ∉ dom (heap store_a))
      ∧ edges_get σ' 3 98%N = {[4]}
      ∧ (∀ sym, sym ≠ 98%N → edges_get σ' 3 sym = ∅)
      ∧ (∀ sym, edges_get σ' 4 sym = ∅)
      ∧ (∀ u sym, u ≠ 3 → edges_get σ' u sym = edges_get store_a u sym).
Proof.
  assert (thompson_loop (Store 0 ∅, []) [97%N] = Ok (store_a, [mkFragment 1 2]))
    as Hloop by (vm_compute; reflexivity).
  assert (operand 98%N) as Htok
    by (apply (bool_decide_unpack _); vm_compute; exact I).
  split; [exact Hloop|]. split; [exact Htok|].
  exact (operand_fragment 0 [97%N] store_a [mkFragment 1 2] 98%N Hloop Htok).
Defined.

(** X21. Operand, words.  The fragment pushed for an operand token other
    than the empty-string marker reads exactly the one-character word made
    of the token; the fragment pushed for the marker reads exactly the
    empty word (among the words without the marker). *)
Theorem operand_language (n : nat) (pre : list char) (σ : store)
    (stack : list Fragment) (tok : char) :
  thompson_loop (Store n ∅, []) pre = Ok (σ, stack) →
  operand tok →
  ∃ σ' f,
    thompson_step (σ, stack) tok = Ok (σ', f :: stack)
    ∧ ∀ w, EPS ∉ w →
        frag_lang σ' f w ↔ if decide (tok = EPS) then w = [] else w = [tok].
Proof.
  intros Hloop Htok.
  destruct (thompson_loop_invariants n pre σ _ Hloop) as (Hinv & _ & _).
  pose proof (thompson_step_symbol σ stack tok Htok) as Hstep.
  destruct (lang_step_symbol σ stack tok _ _ Htok Hinv Hstep) as (f & Hf & HL).
  eexists _, f. split; [rewrite Hstep; by rewrite Hf|].
  intros w Hw. rewrite (HL w Hw). unfold lang_sym. by case_decide.
Qed.

Lemma operand_language_witness :
  thompson_loop (Store 0 ∅, []) [97%N] = Ok (store_a, [mkFragment 1 2])
  ∧ operand 98%N
  ∧ ∃ σ' f,
      thompson_step (store_a, [mkFragment 1 2]) 98%N
      = Ok (σ', [f; mkFragment 1 2])
      ∧ ∀ w, EPS ∉ w →
          frag_lang σ' f w ↔ if decide (98%N = EPS) then w = [] else w = [98%N].
Proof.
  assert (thompson_loop (Store 0 ∅, []) [97%N] = Ok (store_a, [mkFragment 1 2]))
    as Hloop by (vm_compute; reflexivity).
  assert (operand 98%N) as Htok
    by (apply (bool_decide_unpack _); vm_compute; exact I).
  split; [exact Hloop|]. split; [exact Htok|].
  exact (operand_language 0 [97%N] store_a [mkFragment 1 2] 98%N Hloop Htok).
Defined.

(** X22. Frame.  An iteration of the loop replaces the fragments it pops
    (two for a binary operator, one for a unary one, none for an operand)
    by one fragment, and every fragment left below reads the same words
    after the iteration as before, although the heap has grown. *)
Theorem untouched_fragments_keep_their_words (n : nat) (pre : list char)
    (σ σ' : store) (stack stack' : list Fragment) (tok : char) :
  thompson_loop (Store n ∅, []) pre = Ok (σ, stack) →
  thompson_step (σ, stack) tok = Ok (σ', stack') →
  ∃ popped rest f,
    stack = popped ++ rest ∧ stack' = f :: rest
    ∧ length popped + length (filter operand [tok])
      = 1 + length (filter binary [tok])
    ∧ ∀ g w, g ∈ rest → frag_lang σ' g w ↔ frag_lang σ g w.
Proof.
  intros Hloop Hstep.
  destruct (thompson_loop_invariants n pre σ _ Hloop) as (Hinv & Hreg & _).
  by apply (thompson_step_frame n).
Qed.

Lemma untouched_fragments_keep_their_words_witness :
  thompson_loop (Store 0 ∅, []) [97; 98]%N
  = Ok (store_ab, [mkFragment 3 4; mkFragment 1 2])
  ∧ thompson_step (store_ab, [mkFragment 3 4; mkFragment 1 2]) 99%N
    = Ok (add_edge (alloc2 store_ab) 5 99%N 6,
          [mkFragment 5 6; mkFragment 3 4; mkFragment 1 2])
  ∧ ∃ popped rest f,
      [mkFragment 3 4; mkFragment 1 2] = popped ++ rest
      ∧ [mkFragment 5 6; mkFragment 3 4; mkFragment 1 2] = f :: rest
      ∧ length popped + length (filter operand [99%N])
        = 1 + length (filter binary [99%N])
      ∧ ∀ g w, g ∈ rest →
          frag_lang (add_edge (alloc2 store_ab) 5 99%N 6) g w
          ↔ frag_lang store_ab g w.
Proof.
  assert (thompson_loop (Store 0 ∅, []) [97; 98]%N
          = Ok (store_ab, [mkFragment 3 4; mkFragment 1 2]))
    as Hloop by (vm_compute; reflexivity).
  assert (thompson_step (store_ab, [mkFragment 3 4; mkFragment 1 2]) 99%N
          = Ok (add_edge (alloc2 store_ab) 5 99%N 6,
                [mkFragment 5 6; mkFragment 3 4; mkFragment 1 2]))
    as Hstep by (vm_compute; reflexivity).
  split; [exact Hloop|]. split; [exact Hstep|].
  exact (untouched_fragments_keep_their_words 0 [97; 98]%N store_ab _ _ _
           99%N Hloop Hstep).
Defined.

(** X23. The loop of [thompson_from_postfix] evaluates the postfix
    expression: when it returns, evaluating the same tokens over sets of
    words (operands as one-word sets, the operators as union,
    concatenation, star, plus and option) succeeds with one set per
    fragment of the stack, and each fragment reads exactly the words of
    its set that do not hold the empty-string marker. *)
Theorem builder_evaluates_postfix (n : nat) (post : list char) (σ : store)
    (stack : list Fragment) :
  thompson_loop (Store n ∅, []) post = Ok (σ, stack) →
  ∃ Ls, postfix_langs [] post = Some Ls
        ∧ length Ls = length stack
        ∧ ∀ i f L, stack !! i = Some f → Ls !! i = Some L →
            ∀ w, EPS ∉ w → frag_lang σ f w ↔ L w.
Proof.
  intros Hloop.
  destruct (thompson_loop_langs_init n post σ stack Hloop) as (Ls & HLs & Hm).
  exists Ls. split_and!; [done|symmetry; by eapply Forall2_length|].
  intros i f L Hf HL. exact (Forall2_lookup_lr _ _ _ _ _ _ Hm Hf HL).
Qed.

Lemma builder_evaluates_postfix_witness :
  thompson_loop (Store 0 ∅, []) [97; 98]%N
  = Ok (store_ab, [mkFragment 3 4; mkFragment 1 2])
  ∧ ∃ Ls, postfix_langs [] [97; 98]%N = Some Ls
          ∧ length Ls = length [mkFragment 3 4; mkFragment 1 2]
          ∧ ∀ i f L, [mkFragment 3 4; mkFragment 1 2] !! i = Some f →
              Ls !! i = Some L →
              ∀ w, EPS ∉ w → frag_lang store_ab f w ↔ L w.
Proof.
  assert (thompson_loop (Store 0 ∅, []) [97; 98]%N
          = Ok (store_ab, [mkFragment 3 4; mkFragment 1 2]))
    as Hloop by (vm_compute; reflexivity).
  split; [exact Hloop|].
  exact (builder_evaluates_postfix 0 [97; 98]%N store_ab _ Hloop).
Defined.

(** X24. The compiled automaton accepts the language of the expression:
    when [compile_regex_to_nfa] returns, the postfix form of the
    expression evaluates to one set of words, and on every word without
    the empty-string marker [nfa_accepts] answers [True] exactly for the
    words of that set. *)
Theorem compiled_nfa_accepts_the_language (regex : list char) (σ : store) (nfa : NFA) :
  compile_regex_to_nfa regex = Ok (σ, nfa) →
  ∃ post L,
    to_postfix (add_concat (remove_spaces regex)) = Ok post
    ∧ postfix_langs [] post = Some [L]
    ∧ ∀ w, EPS ∉ w → nfa_accepts σ nfa w = Ok true ↔ L w.
Proof. apply compile_lang. Qed.

Lemma compiled_nfa_accepts_the_language_witness :
  compile_regex_to_nfa [97; 42]%N = Ok (store_a_star, nfa_a_star)
  ∧ ∃ post L,
      to_postfix (add_concat (remove_spaces [97; 42]%N)) = Ok post
      ∧ postfix_langs [] post = Some [L]
      ∧ ∀ w, EPS ∉ w → nfa_accepts store_a_star nfa_a_star w = Ok true ↔ L w.
Proof.
  assert (compile_regex_to_nfa [97; 42]%N = Ok (store_a_star, nfa_a_star))
    as Hc by (vm_compute; reflexivity).
  split; [exact Hc|].
  exact (compiled_nfa_accepts_the_language [97; 42]%N store_a_star nfa_a_star Hc).
Defined.

(** X25. The states of a compiled automaton are exactly the identifiers
    from 1 to the final value of the counter: every state the builder
    allocated is kept by the traversal, there are two of them for every
    postfix token other than the concatenation operator, and the size of
    the state set is the counter. *)
Theorem compiled_state_set (regex : list char) (σ : store) (nfa : NFA) :
  compile_regex_to_nfa regex = Ok (σ, nfa) →
  ∃ post,
    to_postfix (add_concat (remove_spaces regex)) = Ok post
    ∧ (∀ q, q ∈ nfa_states nfa ↔ 1 ≤ q ≤ _id σ)
    ∧ _id σ = 2 * length (filter (λ t, t ≠ DOT) post)
    ∧ size (nfa_states nfa) = _id σ.
Proof. apply compile_states. Qed.

Lemma compiled_state_set_witness :
  compile_regex_to_nfa [97; 42]%N = Ok (store_a_star, nfa_a_star)
  ∧ ∃ post,
      to_postfix (add_concat (remove_spaces [97; 42]%N)) = Ok post
      ∧ (∀ q, q ∈ nfa_states nfa_a_star ↔ 1 ≤ q ≤ _id store_a_star)
      ∧ _id store_a_star = 2 * length (filter (λ t, t ≠ DOT) post)
      ∧ size (nfa_states nfa_a_star) = _id store_a_star.
Proof.
  assert (compile_regex_to_nfa [97; 42]%N = Ok (store_a_star, nfa_a_star))
    as Hc by (vm_compute; reflexivity).
  split; [exact Hc|].
  exact (compiled_state_set [97; 42]%N store_a_star nfa_a_star Hc).
Defined.

(** X26. Shape of a compiled automaton: the accept state has no outgoing
    transition, no transition enters the start state, and every state has
    at most two outgoing transitions. *)
Theorem compiled_nfa_shape (regex : list char) (σ : store) (nfa : NFA) :
  compile_regex_to_nfa regex = Ok (σ, nfa) →
  (∀ sym v, ¬ edge σ (nfa_accept nfa) sym v)
  ∧ (∀ u sym, ¬ edge σ u sym (nfa_start nfa))
  ∧ (∀ u, ∃ l : list (char * State),
       length l ≤ 2 ∧ ∀ sym v, edge σ u sym v → (sym, v) ∈ l).
Proof. apply compile_structure. Qed.

Lemma compiled_nfa_shape_witness :
  compile_regex_to_nfa [97; 42]%N = Ok (store_a_star, nfa_a_star)
  ∧ (∀ sym v, ¬ edge store_a_star (nfa_accept nfa_a_star) sym v)
  ∧ (∀ u sym, ¬ edge store_a_star u sym (nfa_start nfa_a_star))
  ∧ (∀ u, ∃ l : list (char * State),
       length l ≤ 2 ∧ ∀ sym v, edge store_a_star u sym v → (sym, v) ∈ l).
Proof.
  assert (compile_regex_to_nfa [97; 42]%N = Ok (store_a_star, nfa_a_star))
    as Hc by (vm_compute; reflexivity).
  split; [exact Hc|].
  exact (compiled_nfa_shape [97; 42]%N store_a_star nfa_a_star Hc).
Defined.

(** The hypothesis on the empty-string marker cannot be dropped: the
    automaton of [a|b] accepts the two-character word made of the marker
    followed by [a], which is in neither branch. *)
Example alternation_reads_marker :
  compile_then_accepts [97; 124; 98]%N [EPS; 97%N] = Ok true.
Proof. vm_compute. reflexivity. Qed.
